(** * Netwalk: the grid engine of [src/index.tsx]

    A shallow embedding of the puzzle engine (generation, connectivity
    evaluation, win verification, rotation and hint handlers) and the
    properties its specification states about it.

    Conventions of the embedding.
    - JavaScript numbers that hold coordinates, sizes, rotations and masks
      are integers here ([Z]); bitwise [&] and [|] are [Z.land], [Z.lor];
      [%] is [Z.rem] (sign of the dividend, as in JavaScript).
    - An array is a [list]; an index read [a[i]] is [a !!! i] below, which
      is [None] where JavaScript yields [undefined].
    - A [Set<string>] keyed by [`${r},${c}`] is a [gset (Z * Z)]: the key is
      an injective rendering of the pair.
    - A function returns [option]: [None] stands for a run that leaves the
      integers-and-tiles domain (a property of [undefined] is read, which
      throws a TypeError, or an [undefined] Solution entry would be stored
      as a rotation) or, for the two loops that are not structurally
      recursive, for an exhausted iteration budget.  Totality lemmas show
      that neither happens on well-formed inputs.
    - [Math.floor(Math.random() * n)] is a draw from an oracle
      [rnd : nat -> nat], reduced modulo [n]; the oracle is indexed by the
      number of draws made so far, so every outcome of every draw is
      covered by quantifying over [rnd]. *)

From stdpp Require Import gmap list.
From Stdlib Require Import ZArith Lia.

Local Open Scope Z_scope.

(** ** Types and constants *)

Inductive TileType := TERMINAL | STRAIGHT | CORNER | T_JUNCTION | CROSS.

Record Tile := mkTile {
  type : TileType;
  rotation : Z;
  connected : bool;
  isServer : bool
}.

Abbreviation Grid := (list (list Tile)).
Abbreviation Coords := (Z * Z)%type.

(** The keys of [DIRECTIONS]; [for (const key in DIRECTIONS)] visits them in
    insertion order, which is [dirKeys]. *)
Inductive DirKey := DirN | DirE | DirS | DirW.

Record Direction := mkDirection {
  dr : Z;
  dc : Z;
  from : DirKey;
  mask : Z
}.

Definition DIRECTIONS (key : DirKey) : Direction :=
  match key with
  | DirN => mkDirection (-1) 0 DirS 1
  | DirE => mkDirection 0 1 DirW 2
  | DirS => mkDirection 1 0 DirN 4
  | DirW => mkDirection 0 (-1) DirE 8
  end.

Definition dirKeys : list DirKey := [DirN; DirE; DirS; DirW].

Definition TILE_CONNECTIONS (t : TileType) : list Z :=
  match t with
  | TERMINAL => [1; 2; 4; 8]
  | STRAIGHT => [5; 10; 5; 10]
  | CORNER => [3; 6; 12; 9]
  | T_JUNCTION => [7; 14; 13; 11]
  | CROSS => [15; 15; 15; 15]
  end.

(** ** Array reads *)

(** [a[i]] for an integer [i]: [None] is JavaScript's [undefined]. *)
Definition readAt {A} (a : list A) (i : Z) : option A :=
  if i <? 0 then None else a !! Z.to_nat i.

Infix "!!!" := readAt (at level 20).

(** [grid[r][c]] (and [grid[r]?.[c]], which differs only in not throwing). *)
Definition cell {A} (m : list (list A)) (r c : Z) : option A :=
  row ← m !!! r; row !!! c.

(** [TILE_CONNECTIONS[tile.type][tile.rotation]] as it is used, under [&]:
    a rotation outside 0..3 reads [undefined], and [undefined & m] is 0. *)
Definition tileConnections (tile : Tile) : Z :=
  default 0 (TILE_CONNECTIONS (type tile) !!! rotation tile).

(** ** Topology: the neighbour computation every loop inlines

    [let nr = r + dir.r; let nc = c + dir.c;
     if (isWrapping) { nr = (nr + size) % size; nc = (nc + size) % size; }
     if (isWrapping || (nr >= 0 && nr < size && nc >= 0 && nc < size)) ...] *)

Definition inBounds (size nr nc : Z) : bool :=
  (0 <=? nr) && (nr <? size) && (0 <=? nc) && (nc <? size).

Definition neighbour (size : Z) (isWrapping : bool) (r c : Z) (dir : Direction)
  : option Coords :=
  let nr := r + dr dir in
  let nc := c + dc dir in
  let nr := if isWrapping then Z.rem (nr + size) size else nr in
  let nc := if isWrapping then Z.rem (nc + size) size else nc in
  if isWrapping || inBounds size nr nc then Some (nr, nc) else None.

(** ** Connectivity Evaluator: [checkConnectivity] *)

(** The body of [for (const key in DIRECTIONS)] inside the BFS loop, for the
    dequeued cell [(r, c)] whose mask is [connections]; the pair threaded
    through is [(queue, visited)]. *)
Definition expand (grid : Grid) (size : Z) (isWrapping : bool) (r c : Z)
    (connections : Z) (qv : list Coords * gset Coords) (key : DirKey)
  : option (list Coords * gset Coords) :=
  let dir := DIRECTIONS key in
  if Z.land connections (mask dir) =? 0 then Some qv
  else
    match neighbour size isWrapping r c dir with
    | None => Some qv
    | Some (nr, nc) =>
        if bool_decide ((nr, nc) ∈ qv.2) then Some qv
        else
          neighbor ← cell grid nr nc;
          if Z.land (tileConnections neighbor) (mask (DIRECTIONS (from dir))) =? 0
          then Some qv
          else Some (qv.1 ++ [(nr, nc)], {[(nr, nc)]} ∪ qv.2)
    end.

Fixpoint expandAll (grid : Grid) (size : Z) (isWrapping : bool) (r c : Z)
    (connections : Z) (qv : list Coords * gset Coords) (keys : list DirKey)
  : option (list Coords * gset Coords) :=
  match keys with
  | [] => Some qv
  | key :: keys' =>
      qv' ← expand grid size isWrapping r c connections qv key;
      expandAll grid size isWrapping r c connections qv' keys'
  end.

Record BfsState := mkBfs {
  queue : list Coords;
  visited : gset Coords;
  connectedSet : gset Coords
}.

(** One iteration of [while (queue.length > 0)], for a non-empty queue. *)
Definition bfsStep (grid : Grid) (size : Z) (isWrapping : bool) (st : BfsState)
  : option BfsState :=
  match queue st with
  | [] => Some st
  | (r, c) :: rest =>
      tile ← cell grid r c;
      qv ← expandAll grid size isWrapping r c (tileConnections tile)
             (rest, visited st) dirKeys;
      Some (mkBfs qv.1 qv.2 ({[(r, c)]} ∪ connectedSet st))
  end.

Fixpoint bfsLoop (fuel : nat) (grid : Grid) (size : Z) (isWrapping : bool)
    (st : BfsState) : option (gset Coords) :=
  match queue st with
  | [] => Some (connectedSet st)
  | _ :: _ =>
      match fuel with
      | O => None
      | S fuel' =>
          st' ← bfsStep grid size isWrapping st;
          bfsLoop fuel' grid size isWrapping st'
      end
  end.

(** [grid.map((row, r) => row.map((tile, c) =>
       ({...tile, connected: connectedSet.has(`${r},${c}`)})))] *)
Definition markConnected (connectedSet : gset Coords) (grid : Grid) : Grid :=
  imap (λ r row,
    imap (λ c tile,
      mkTile (type tile) (rotation tile)
             (bool_decide ((Z.of_nat r, Z.of_nat c) ∈ connectedSet))
             (isServer tile)) row) grid.

Definition checkConnectivity (grid : Grid) (serverCoords : Coords)
    (isWrapping : bool) : option Grid :=
  let size := Z.of_nat (length grid) in
  connectedSet ← bfsLoop (length grid * length grid) grid size isWrapping
                   (mkBfs [serverCoords] {[serverCoords]} ∅);
  Some (markConnected connectedSet grid).

(** ** Generator: [generateGrid] (first block of the source) *)

(** [Array(size).fill(x).map(() => Array(size).fill(x))] *)
Definition matrix {A} (size : Z) (x : A) : list (list A) :=
  replicate (Z.to_nat size) (replicate (Z.to_nat size) x).

(** [m[r][c] |= bits].  The generator only writes at coordinates that are
    in range (lemmas [walkStep_inv], [densifyRound_spec]); a write outside the
    matrix, which those lemmas exclude, is left without effect here. *)
Definition orAt (m : list (list Z)) (r c : Z) (bits : Z) : list (list Z) :=
  if (r <? 0) || (c <? 0) then m
  else alter (alter (λ x, Z.lor x bits) (Z.to_nat c)) (Z.to_nat r) m.

(** [m[r][c] = true], with the same proviso. *)
Definition markAt (m : list (list bool)) (r c : Z) : list (list bool) :=
  if (r <? 0) || (c <? 0) then m
  else alter (alter (λ _, true) (Z.to_nat c)) (Z.to_nat r) m.

(** [connections[r][c]] under [&] and [visited[r][c]] under [!]. *)
Definition connectionAt (m : list (list Z)) (r c : Z) : Z :=
  default 0 (cell m r c).

Definition visitedAt (m : list (list bool)) (r c : Z) : bool :=
  default false (cell m r c).

(** The objects pushed on [neighbors]. *)
Record Neighbor := mkNeighbor {
  nbR : Z;
  nbC : Z;
  nbMask : Z;
  nbFromMask : Z
}.

(** The state of the spanning walk; the top of [stack] is the head of
    [walkStack], and [walkDraws] counts the calls of [Math.random] so far. *)
Record WalkState := mkWalk {
  walkConnections : list (list Z);
  walkVisited : list (list bool);
  walkStack : list Coords;
  walkDraws : nat
}.

(** [conn.toString(2).split('1').length - 1]: the number of digits 1 in the
    binary numeral of [conn] (a leading minus sign adds none). *)
Fixpoint onesOf (p : positive) : Z :=
  match p with
  | xH => 1
  | xO q => onesOf q
  | xI q => 1 + onesOf q
  end.

Definition numConnections (conn : Z) : Z :=
  match conn with
  | Z0 => 0
  | Zpos p => onesOf p
  | Zneg p => onesOf p
  end.

Definition typeOfConnection (conn : Z) : TileType :=
  let n := numConnections conn in
  if n =? 1 then TERMINAL
  else if n =? 2 then
         (if (conn =? 5) || (conn =? 10) then STRAIGHT else CORNER)
  else if n =? 3 then T_JUNCTION
  else if n =? 4 then CROSS
  else TERMINAL.

(** [targetRotations.indexOf(conn)], [-1] when absent. *)
Fixpoint indexOfFrom (i : Z) (x : Z) (l : list Z) : Z :=
  match l with
  | [] => -1
  | y :: l' => if y =? x then i else indexOfFrom (i + 1) x l'
  end.

Definition indexOf (x : Z) (l : list Z) : Z := indexOfFrom 0 x l.

(** The callback of [connections.map(... row.map((conn, c) => ...))],
    without the push on [terminals]. *)
Definition solvedTile (conn : Z) : TileType * Z :=
  let type := typeOfConnection conn in
  let rotation := indexOf conn (TILE_CONNECTIONS type) in
  (type, if rotation =? -1 then 0 else rotation).

(** The pushes on [terminals], in the order [map] visits the cells. *)
Definition terminalsOf (connections : list (list Z)) : list Coords :=
  mjoin (imap (λ r row,
    omap id (imap (λ c conn,
      if numConnections conn =? 1 then Some (Z.of_nat r, Z.of_nat c) else None)
      row)) connections).

(** [allCoords]: row-major. *)
Definition allCoords (size : Z) : list Coords :=
  r ← seqZ 0 size; c ← seqZ 0 size; [(r, c)].

Section Generator.

(** The random source: the value behind the [k]-th call of [Math.random]. *)
Variable rnd : nat → nat.

(** [Math.floor(Math.random() * n)] at draw number [draws], for [n > 0]. *)
Definition randomInt (draws : nat) (n : Z) : Z := Z.of_nat (rnd draws) `mod` n.

Definition unvisitedNeighbors (size : Z) (isWrapping : bool)
    (visited : list (list bool)) (r c : Z) : list Neighbor :=
  omap (λ key,
    let dir := DIRECTIONS key in
    match neighbour size isWrapping r c dir with
    | Some (nr, nc) =>
        if visitedAt visited nr nc then None
        else Some (mkNeighbor nr nc (mask dir) (mask (DIRECTIONS (from dir))))
    | None => None
    end) dirKeys.

(** One iteration of [while (stack.length > 0)]. *)
Definition walkStep (size : Z) (isWrapping : bool) (st : WalkState)
  : option WalkState :=
  match walkStack st with
  | [] => Some st
  | (r, c) :: rest =>
      let neighbors :=
        unvisitedNeighbors size isWrapping (walkVisited st) r c in
      if bool_decide (neighbors = []) then
        Some (mkWalk (walkConnections st) (walkVisited st) rest (walkDraws st))
      else
        neighbor ← neighbors !!!
          randomInt (walkDraws st) (Z.of_nat (length neighbors));
        Some (mkWalk
          (orAt (orAt (walkConnections st) r c (nbMask neighbor))
                (nbR neighbor) (nbC neighbor) (nbFromMask neighbor))
          (markAt (walkVisited st) (nbR neighbor) (nbC neighbor))
          ((nbR neighbor, nbC neighbor) :: (r, c) :: rest)
          (S (walkDraws st)))
  end.

Fixpoint spanningWalk (fuel : nat) (size : Z) (isWrapping : bool)
    (st : WalkState) : option WalkState :=
  match walkStack st with
  | [] => Some st
  | _ :: _ =>
      match fuel with
      | O => None
      | S fuel' =>
          st' ← walkStep size isWrapping st;
          spanningWalk fuel' size isWrapping st'
      end
  end.

(** One round of [for (let i = 0; i < extraConnections; i++)]. *)
Definition densifyRound (size : Z) (isWrapping : bool)
    (cd : list (list Z) * nat) : option (list (list Z) * nat) :=
  let connections := cd.1 in
  let draws := cd.2 in
  let r := randomInt draws size in
  let c := randomInt (S draws) size in
  let potentialDirections :=
    filter (λ key, Z.land (connectionAt connections r c)
                          (mask (DIRECTIONS key)) = 0) dirKeys in
  if bool_decide (potentialDirections = []) then
    Some (connections, S (S draws))
  else
    key ← potentialDirections !!!
      randomInt (S (S draws)) (Z.of_nat (length potentialDirections));
    let dir := DIRECTIONS key in
    match neighbour size isWrapping r c dir with
    | Some (nr, nc) =>
        Some (orAt (orAt connections r c (mask dir))
                   nr nc (mask (DIRECTIONS (from dir))),
              S (S (S draws)))
    | None => Some (connections, S (S (S draws)))
    end.

Fixpoint densify (rounds : nat) (size : Z) (isWrapping : bool)
    (cd : list (list Z) * nat) : option (list (list Z) * nat) :=
  match rounds with
  | O => Some cd
  | S rounds' =>
      cd' ← densifyRound size isWrapping cd;
      densify rounds' size isWrapping cd'
  end.

(** Step 1 of [generateGrid]: the spanning walk from a random start.  The
    walk makes at most [2 * size * size] iterations (every cell is pushed
    once and popped once), which is the budget given to it. *)
Definition spanningTree (size : Z) (isWrapping : bool) : option WalkState :=
  let startR := randomInt 0 size in
  let startC := randomInt 1 size in
  spanningWalk (2 * Z.to_nat size * Z.to_nat size) size isWrapping
    (mkWalk (matrix size 0) (markAt (matrix size false) startR startC)
            [(startR, startC)] 2).

(** Steps 1 and 1.5: the generation-time masks, with the number of draws
    made.  [Math.floor(size * size * 0.4)] is [size * size * 2 / 5] (the
    double nearest to 0.4 exceeds it by less than 3e-17, which does not
    carry the product over an integer for any grid size). *)
Definition generateConnections (size : Z) (isWrapping : bool)
  : option (list (list Z) * nat) :=
  walked ← spanningTree size isWrapping;
  let extraConnections := size * size * 2 / 5 in
  densify (Z.to_nat extraConnections) size isWrapping
    (walkConnections walked, walkDraws walked).

(** Step 4, the callback of [solvedGrid.map(... row.map(...))]: the draws
    are made in row-major order, one for every cell but the server. *)
Fixpoint scrambleRow (serverCoords : Coords) (r c : Z)
    (row : list (TileType * Z)) (draws : nat) : list Tile * nat :=
  match row with
  | [] => ([], draws)
  | tile :: row' =>
      let isThisServer := (r =? serverCoords.1) && (c =? serverCoords.2) in
      let here :=
        mkTile tile.1
          (if isThisServer then tile.2 else randomInt draws 4)
          false isThisServer in
      let rest :=
        scrambleRow serverCoords r (c + 1) row'
          (if isThisServer then draws else S draws) in
      (here :: rest.1, rest.2)
  end.

Fixpoint scrambleRows (serverCoords : Coords) (r : Z)
    (rows : list (list (TileType * Z))) (draws : nat) : Grid * nat :=
  match rows with
  | [] => ([], draws)
  | row :: rows' =>
      let first := scrambleRow serverCoords r 0 row draws in
      let rest := scrambleRows serverCoords (r + 1) rows' first.2 in
      (first.1 :: rest.1, rest.2)
  end.

(** Steps 2 to 4 of [generateGrid], from the final masks on. *)
Definition finishGrid (size : Z) (connections : list (list Z)) (draws : nat)
  : option (Grid * list (list Z) * Coords * list Coords) :=
  let terminals := terminalsOf connections in
  let solvedGrid := map (map solvedTile) connections in
  let coords := allCoords size in
  serverCoords ← coords !!! randomInt draws (Z.of_nat (length coords));
  let solutionRotations := map (map snd) solvedGrid in
  let finalGrid := (scrambleRows serverCoords 0 solvedGrid (S draws)).1 in
  Some (finalGrid, solutionRotations, serverCoords, terminals).

(** [generateGrid(size, isWrapping)].  For [size <= 0] the source throws
    ([Array(size)] or the write to [visited[0][0]]). *)
Definition generateGrid (size : Z) (isWrapping : bool)
  : option (Grid * list (list Z) * Coords * list Coords) :=
  if size <=? 0 then None
  else
    cd ← generateConnections size isWrapping;
    finishGrid size cd.1 cd.2.

End Generator.


(** ** Win Verifier: [isWinConditionMet] *)

(** [grid.flat().filter(t => t.connected).length] *)
Definition countConnected (grid : Grid) : Z :=
  Z.of_nat (length (List.filter connected (concat grid))).

(** Sequential conjunction with early [return false]. *)
Fixpoint allM {A} (check : A → option bool) (l : list A) : option bool :=
  match l with
  | [] => Some true
  | x :: l' => ok ← check x; if ok : bool then allM check l' else Some false
  end.

(** Condition 1 of [isWinConditionMet]. *)
Definition allRequiredTilesConnected (grid : Grid) (terminals : list Coords)
  : bool :=
  if bool_decide (terminals = []) then forallb connected (concat grid)
  else forallb (λ t, from_option connected false (cell grid t.1 t.2)) terminals.

(** The body of the innermost loop of condition 2, for the powered tile at
    [(r, c)] with mask [connections]: [Some false] is [return false]. *)
Definition leakFree (grid : Grid) (size : Z) (isWrapping : bool) (r c : Z)
    (connections : Z) (key : DirKey) : option bool :=
  let dir := DIRECTIONS key in
  if Z.land connections (mask dir) =? 0 then Some true
  else
    let nr := r + dr dir in
    let nc := c + dc dir in
    if negb isWrapping && ((nr <? 0) || (nr >=? size) || (nc <? 0) || (nc >=? size))
    then Some false
    else
      let nr := if isWrapping then Z.rem (nr + size) size else nr in
      let nc := if isWrapping then Z.rem (nc + size) size else nc in
      neighbor ← cell grid nr nc;
      if negb (connected neighbor) then Some false
      else if Z.land (tileConnections neighbor)
                     (mask (DIRECTIONS (from dir))) =? 0 then Some false
      else Some true.

(** Condition 2 of [isWinConditionMet]: the no-leak re-check. *)
Definition noLeaks (grid : Grid) (isWrapping : bool) : option bool :=
  let size := Z.of_nat (length grid) in
  allM (λ rc : Coords,
    tile ← cell grid rc.1 rc.2;
    if negb (connected tile) then Some true
    else allM (leakFree grid size isWrapping rc.1 rc.2 (tileConnections tile))
              dirKeys)
    (allCoords size).

Definition isWinConditionMet (grid : Grid) (terminals : list Coords)
    (isWrapping : bool) : option bool :=
  if negb (allRequiredTilesConnected grid terminals) then Some false
  else noLeaks grid isWrapping.

(** ** Rotation and hint handlers *)

(** [const newGrid = grid.map(row => row.map(cell => ({ ...cell })));
     newGrid[r][c].rotation = rot], for a tile that exists. *)
Definition setRotation (grid : Grid) (r c : Z) (rot : Z) : Grid :=
  if (r <? 0) || (c <? 0) then grid
  else alter (alter (λ t, mkTile (type t) rot (connected t) (isServer t))
                    (Z.to_nat c)) (Z.to_nat r) grid.

(** The loop that fills [incorrectTiles]. *)
Fixpoint collectIncorrect (grid : Grid) (solution : list (list Z))
    (coords : list Coords) : option (list Coords) :=
  match coords with
  | [] => Some []
  | (r, c) :: coords' =>
      tile ← cell grid r c;
      if isServer tile then collectIncorrect grid solution coords'
      else
        row ← solution !!! r;
        rest ← collectIncorrect grid solution coords';
        if bool_decide (row !!! c = Some (rotation tile)) then Some rest
        else Some ((r, c) :: rest)
  end.

(** [bestHint]: [coords] and [maxNewConnections]. *)
Abbreviation BestHint := (option Coords * Z)%type.

(** [for (const coords of incorrectTiles)]: the what-if evaluation. *)
Fixpoint tryHints (grid : Grid) (solution : list (list Z))
    (serverCoords : Coords) (isWrapping : bool) (previouslyConnectedCount : Z)
    (incorrectTiles : list Coords) (bestHint : BestHint) : option BestHint :=
  match incorrectTiles with
  | [] => Some bestHint
  | (r, c) :: rest =>
      rot ← cell solution r c;
      gridAfterHint ←
        checkConnectivity (setRotation grid r c rot) serverCoords isWrapping;
      let newConnections :=
        countConnected gridAfterHint - previouslyConnectedCount in
      tryHints grid solution serverCoords isWrapping previouslyConnectedCount
        rest
        (if newConnections >? bestHint.2 then (Some (r, c), newConnections)
         else bestHint)
  end.

(** The inner loop of the fallback: is some topological neighbour of
    [(r, c)] currently connected? *)
Fixpoint isAdjacent (grid : Grid) (gridSize : Z) (isWrapping : bool) (r c : Z)
    (keys : list DirKey) : option bool :=
  match keys with
  | [] => Some false
  | key :: keys' =>
      match neighbour gridSize isWrapping r c (DIRECTIONS key) with
      | None => isAdjacent grid gridSize isWrapping r c keys'
      | Some (nr, nc) =>
          neighbor ← cell grid nr nc;
          if connected neighbor then Some true
          else isAdjacent grid gridSize isWrapping r c keys'
      end
  end.

(** The outer loop of the fallback: [adjacentHint]. *)
Fixpoint findAdjacent (grid : Grid) (gridSize : Z) (isWrapping : bool)
    (incorrectTiles : list Coords) : option (option Coords) :=
  match incorrectTiles with
  | [] => Some None
  | (r, c) :: rest =>
      adjacent ← isAdjacent grid gridSize isWrapping r c dirKeys;
      if adjacent : bool then Some (Some (r, c))
      else findAdjacent grid gridSize isWrapping rest
  end.

(** The choice of [hintCoords] from a non-empty [incorrectTiles]. *)
Definition chooseHint (grid : Grid) (solution : list (list Z))
    (serverCoords : Coords) (isWrapping : bool) (gridSize : Z)
    (incorrectTiles : list Coords) : option (option Coords) :=
  let previouslyConnectedCount := countConnected grid in
  bestHint ← tryHints grid solution serverCoords isWrapping
               previouslyConnectedCount incorrectTiles (None, -1);
  if bool_decide (bestHint.1 = None) || (bestHint.2 <=? 0) then
    adjacentHint ← findAdjacent grid gridSize isWrapping incorrectTiles;
    match adjacentHint with
    | Some coords => Some (Some coords)
    | None => Some (head incorrectTiles)
    end
  else Some bestHint.1.

(** The [App] component: the state its handlers read and write (the part of
    it the engine uses), and the handlers. *)
Module App.

Record State := mkState {
  gridSize : Z;
  isWrapping : bool;
  grid : Grid;
  solution : list (list Z);
  serverCoords : Coords;
  terminals : list Coords;
  isWon : bool;
  hintedTile : option Coords;
  score : Z
}.

Definition setGrid (s : State) (g : Grid) : State :=
  mkState (gridSize s) (isWrapping s) g (solution s) (serverCoords s)
          (terminals s) (isWon s) (hintedTile s) (score s).

Definition setScore (s : State) (update : Z → Z) : State :=
  mkState (gridSize s) (isWrapping s) (grid s) (solution s) (serverCoords s)
          (terminals s) (isWon s) (hintedTile s) (update (score s)).

Definition setHintedTile (s : State) (h : option Coords) : State :=
  mkState (gridSize s) (isWrapping s) (grid s) (solution s) (serverCoords s)
          (terminals s) (isWon s) h (score s).

(** [rotateTile(r, c)]; the sounds are not modelled. *)
Definition rotateTile (s : State) (r c : Z) : option State :=
  match cell (grid s) r c with
  | None => Some s
  | Some tile =>
      if isWon s || isServer tile then Some s
      else
        let newGrid :=
          setRotation (grid s) r c (Z.rem (rotation tile + 1) 4) in
        updatedGridWithConnectivity ←
          checkConnectivity newGrid (serverCoords s) (isWrapping s);
        Some (setGrid (setScore s (λ prev, prev - 10))
                      updatedGridWithConnectivity)
  end.

(** [handleHintClick()]; the sound and the timer that clears [hintedTile]
    are not modelled. *)
Definition handleHintClick (s : State) : option State :=
  if isWon s then Some s
  else
    let s1 := setScore s (λ prev, prev - 250) in
    incorrectTiles ←
      collectIncorrect (grid s) (solution s) (allCoords (gridSize s));
    if bool_decide (incorrectTiles = []) then Some s1
    else
      hintCoords ← chooseHint (grid s) (solution s) (serverCoords s)
                     (isWrapping s) (gridSize s) incorrectTiles;
      match hintCoords with
      | None => Some s1
      | Some (r, c) =>
          rot ← cell (solution s) r c;
          updatedGrid ←
            checkConnectivity (setRotation (grid s) r c rot)
              (serverCoords s) (isWrapping s);
          Some (setHintedTile (setGrid s1 updatedGrid) (Some (r, c)))
      end.

End App.

(** ** The second block of the source

    [src/index.tsx] holds a second copy of the program after the first (one
    without score, densification or leak check).  Its [generateGrid],
    [checkConnectivity] and [handleHintClick] are embedded here from that
    copy, under the same names; the types, the two constant tables and the
    array helpers above are shared, being the same text in both copies. *)
Module Legacy.

(** The body of [for (const key in DIRECTIONS)] inside the BFS loop, for the
    dequeued cell [(r, c)] whose mask is [connections]; the pair threaded
    through is [(queue, visited)]. *)
Definition expand (grid : Grid) (size : Z) (isWrapping : bool) (r c : Z)
    (connections : Z) (qv : list Coords * gset Coords) (key : DirKey)
  : option (list Coords * gset Coords) :=
  let dir := DIRECTIONS key in
  if Z.land connections (mask dir) =? 0 then Some qv
  else
    match neighbour size isWrapping r c dir with
    | None => Some qv
    | Some (nr, nc) =>
        if bool_decide ((nr, nc) ∈ qv.2) then Some qv
        else
          neighbor ← cell grid nr nc;
          if Z.land (tileConnections neighbor) (mask (DIRECTIONS (from dir))) =? 0
          then Some qv
          else Some (qv.1 ++ [(nr, nc)], {[(nr, nc)]} ∪ qv.2)
    end.

Fixpoint expandAll (grid : Grid) (size : Z) (isWrapping : bool) (r c : Z)
    (connections : Z) (qv : list Coords * gset Coords) (keys : list DirKey)
  : option (list Coords * gset Coords) :=
  match keys with
  | [] => Some qv
  | key :: keys' =>
      qv' ← expand grid size isWrapping r c connections qv key;
      expandAll grid size isWrapping r c connections qv' keys'
  end.

(** One iteration of [while (queue.length > 0)], for a non-empty queue. *)
Definition bfsStep (grid : Grid) (size : Z) (isWrapping : bool) (st : BfsState)
  : option BfsState :=
  match queue st with
  | [] => Some st
  | (r, c) :: rest =>
      tile ← cell grid r c;
      qv ← expandAll grid size isWrapping r c (tileConnections tile)
             (rest, visited st) dirKeys;
      Some (mkBfs qv.1 qv.2 ({[(r, c)]} ∪ connectedSet st))
  end.

Fixpoint bfsLoop (fuel : nat) (grid : Grid) (size : Z) (isWrapping : bool)
    (st : BfsState) : option (gset Coords) :=
  match queue st with
  | [] => Some (connectedSet st)
  | _ :: _ =>
      match fuel with
      | O => None
      | S fuel' =>
          st' ← bfsStep grid size isWrapping st;
          bfsLoop fuel' grid size isWrapping st'
      end
  end.

(** [grid.map((row, r) => row.map((tile, c) =>
       ({...tile, connected: connectedSet.has(`${r},${c}`)})))] *)
Definition markConnected (connectedSet : gset Coords) (grid : Grid) : Grid :=
  imap (λ r row,
    imap (λ c tile,
      mkTile (type tile) (rotation tile)
             (bool_decide ((Z.of_nat r, Z.of_nat c) ∈ connectedSet))
             (isServer tile)) row) grid.

Definition checkConnectivity (grid : Grid) (serverCoords : Coords)
    (isWrapping : bool) : option Grid :=
  let size := Z.of_nat (length grid) in
  connectedSet ← bfsLoop (length grid * length grid) grid size isWrapping
                   (mkBfs [serverCoords] {[serverCoords]} ∅);
  Some (markConnected connectedSet grid).

Section Generator.

(** The random source: the value behind the [k]-th call of [Math.random]. *)
Variable rnd : nat → nat.

(** [Math.floor(Math.random() * n)] at draw number [draws], for [n > 0]. *)
Definition randomInt (draws : nat) (n : Z) : Z := Z.of_nat (rnd draws) `mod` n.

Definition unvisitedNeighbors (size : Z) (isWrapping : bool)
    (visited : list (list bool)) (r c : Z) : list Neighbor :=
  omap (λ key,
    let dir := DIRECTIONS key in
    match neighbour size isWrapping r c dir with
    | Some (nr, nc) =>
        if visitedAt visited nr nc then None
        else Some (mkNeighbor nr nc (mask dir) (mask (DIRECTIONS (from dir))))
    | None => None
    end) dirKeys.

(** One iteration of [while (stack.length > 0)]. *)
Definition walkStep (size : Z) (isWrapping : bool) (st : WalkState)
  : option WalkState :=
  match walkStack st with
  | [] => Some st
  | (r, c) :: rest =>
      let neighbors :=
        unvisitedNeighbors size isWrapping (walkVisited st) r c in
      if bool_decide (neighbors = []) then
        Some (mkWalk (walkConnections st) (walkVisited st) rest (walkDraws st))
      else
        neighbor ← neighbors !!!
          randomInt (walkDraws st) (Z.of_nat (length neighbors));
        Some (mkWalk
          (orAt (orAt (walkConnections st) r c (nbMask neighbor))
                (nbR neighbor) (nbC neighbor) (nbFromMask neighbor))
          (markAt (walkVisited st) (nbR neighbor) (nbC neighbor))
          ((nbR neighbor, nbC neighbor) :: (r, c) :: rest)
          (S (walkDraws st)))
  end.

Fixpoint spanningWalk (fuel : nat) (size : Z) (isWrapping : bool)
    (st : WalkState) : option WalkState :=
  match walkStack st with
  | [] => Some st
  | _ :: _ =>
      match fuel with
      | O => None
      | S fuel' =>
          st' ← walkStep size isWrapping st;
          spanningWalk fuel' size isWrapping st'
      end
  end.

(** Step 1 of [generateGrid]: the spanning walk from a random start.  The
    walk makes at most [2 * size * size] iterations (every cell is pushed
    once and popped once), which is the budget given to it. *)
Definition spanningTree (size : Z) (isWrapping : bool) : option WalkState :=
  let startR := randomInt 0 size in
  let startC := randomInt 1 size in
  spanningWalk (2 * Z.to_nat size * Z.to_nat size) size isWrapping
    (mkWalk (matrix size 0) (markAt (matrix size false) startR startC)
            [(startR, startC)] 2).

(** Step 4, the callback of [solvedGrid.map(... row.map(...))]: the draws
    are made in row-major order, one for every cell but the server. *)
Fixpoint scrambleRow (serverCoords : Coords) (r c : Z)
    (row : list (TileType * Z)) (draws : nat) : list Tile * nat :=
  match row with
  | [] => ([], draws)
  | tile :: row' =>
      let isThisServer := (r =? serverCoords.1) && (c =? serverCoords.2) in
      let here :=
        mkTile tile.1
          (if isThisServer then tile.2 else randomInt draws 4)
          false isThisServer in
      let rest :=
        scrambleRow serverCoords r (c + 1) row'
          (if isThisServer then draws else S draws) in
      (here :: rest.1, rest.2)
  end.

Fixpoint scrambleRows (serverCoords : Coords) (r : Z)
    (rows : list (list (TileType * Z))) (draws : nat) : Grid * nat :=
  match rows with
  | [] => ([], draws)
  | row :: rows' =>
      let first := scrambleRow serverCoords r 0 row draws in
      let rest := scrambleRows serverCoords (r + 1) rows' first.2 in
      (first.1 :: rest.1, rest.2)
  end.

(** Steps 2 to 4 of [generateGrid], from the masks of the walk on. *)
Definition finishGrid (size : Z) (connections : list (list Z)) (draws : nat)
  : option (Grid * list (list Z) * Coords * list Coords) :=
  let terminals := terminalsOf connections in
  let solvedGrid := map (map solvedTile) connections in
  let coords := allCoords size in
  serverCoords ← coords !!! randomInt draws (Z.of_nat (length coords));
  let solutionRotations := map (map snd) solvedGrid in
  let finalGrid := (scrambleRows serverCoords 0 solvedGrid (S draws)).1 in
  Some (finalGrid, solutionRotations, serverCoords, terminals).

(** [generateGrid(size, isWrapping)].  For [size <= 0] the source throws
    ([Array(size)] or the write to [visited[0][0]]). *)
Definition generateGrid (size : Z) (isWrapping : bool)
  : option (Grid * list (list Z) * Coords * list Coords) :=
  if size <=? 0 then None
  else
    walked ← spanningTree size isWrapping;
    finishGrid size (walkConnections walked) (walkDraws walked).

End Generator.

(** The loop that fills [incorrectTiles]. *)
Fixpoint collectIncorrect (grid : Grid) (solution : list (list Z))
    (coords : list Coords) : option (list Coords) :=
  match coords with
  | [] => Some []
  | (r, c) :: coords' =>
      tile ← cell grid r c;
      if isServer tile then collectIncorrect grid solution coords'
      else
        row ← solution !!! r;
        rest ← collectIncorrect grid solution coords';
        if bool_decide (row !!! c = Some (rotation tile)) then Some rest
        else Some ((r, c) :: rest)
  end.

(** [for (const coords of incorrectTiles)]: the what-if evaluation. *)
Fixpoint tryHints (grid : Grid) (solution : list (list Z))
    (serverCoords : Coords) (isWrapping : bool) (previouslyConnectedCount : Z)
    (incorrectTiles : list Coords) (bestHint : BestHint) : option BestHint :=
  match incorrectTiles with
  | [] => Some bestHint
  | (r, c) :: rest =>
      rot ← cell solution r c;
      gridAfterHint ←
        checkConnectivity (setRotation grid r c rot) serverCoords isWrapping;
      let newConnections :=
        countConnected gridAfterHint - previouslyConnectedCount in
      tryHints grid solution serverCoords isWrapping previouslyConnectedCount
        rest
        (if newConnections >? bestHint.2 then (Some (r, c), newConnections)
         else bestHint)
  end.

(** The inner loop of the fallback: is some topological neighbour of
    [(r, c)] currently connected? *)
Fixpoint isAdjacent (grid : Grid) (gridSize : Z) (isWrapping : bool) (r c : Z)
    (keys : list DirKey) : option bool :=
  match keys with
  | [] => Some false
  | key :: keys' =>
      match neighbour gridSize isWrapping r c (DIRECTIONS key) with
      | None => isAdjacent grid gridSize isWrapping r c keys'
      | Some (nr, nc) =>
          neighbor ← cell grid nr nc;
          if connected neighbor then Some true
          else isAdjacent grid gridSize isWrapping r c keys'
      end
  end.

(** The outer loop of the fallback: [adjacentHint]. *)
Fixpoint findAdjacent (grid : Grid) (gridSize : Z) (isWrapping : bool)
    (incorrectTiles : list Coords) : option (option Coords) :=
  match incorrectTiles with
  | [] => Some None
  | (r, c) :: rest =>
      adjacent ← isAdjacent grid gridSize isWrapping r c dirKeys;
      if adjacent : bool then Some (Some (r, c))
      else findAdjacent grid gridSize isWrapping rest
  end.

(** The choice of [hintCoords] from a non-empty [incorrectTiles]. *)
Definition chooseHint (grid : Grid) (solution : list (list Z))
    (serverCoords : Coords) (isWrapping : bool) (gridSize : Z)
    (incorrectTiles : list Coords) : option (option Coords) :=
  let previouslyConnectedCount := countConnected grid in
  bestHint ← tryHints grid solution serverCoords isWrapping
               previouslyConnectedCount incorrectTiles (None, -1);
  if bool_decide (bestHint.1 = None) || (bestHint.2 <=? 0) then
    adjacentHint ← findAdjacent grid gridSize isWrapping incorrectTiles;
    match adjacentHint with
    | Some coords => Some (Some coords)
    | None => Some (head incorrectTiles)
    end
  else Some bestHint.1.

(** [handleHintClick()] of the second block: no score is kept there. *)
Definition handleHintClick (s : App.State) : option App.State :=
  if App.isWon s then Some s
  else
    incorrectTiles ←
      collectIncorrect (App.grid s) (App.solution s) (allCoords (App.gridSize s));
    if bool_decide (incorrectTiles = []) then Some s
    else
      hintCoords ← chooseHint (App.grid s) (App.solution s) (App.serverCoords s)
                     (App.isWrapping s) (App.gridSize s) incorrectTiles;
      match hintCoords with
      | None => Some s
      | Some (r, c) =>
          rot ← cell (App.solution s) r c;
          updatedGrid ←
            checkConnectivity (setRotation (App.grid s) r c rot)
              (App.serverCoords s) (App.isWrapping s);
          Some (App.setHintedTile (App.setGrid s updatedGrid) (Some (r, c)))
      end.


End Legacy.

(** ** The rest of the [App] component

    The handlers and effects around the engine: the leaderboard, the
    distance map of the win cascade, the win effect, [startNewGame], tile
    clicks and keyboard navigation. *)

(** *** Leaderboard *)

Record ScoreEntry := mkScoreEntry {
  entryInitials : String.string;
  entryScore : Z;
  entryGridSize : Z;
  entryIsWrapping : bool
}.

(** [Array.prototype.sort] is stable: under the comparator
    [(a, b) => b.score - a.score] an entry ends behind every entry that
    precedes it in the array and scores no less.  [insertByScore] places one
    entry that way, and [sortByScore] places the entries of the array from
    left to right. *)
Fixpoint insertByScore (e : ScoreEntry) (sorted : list ScoreEntry)
  : list ScoreEntry :=
  match sorted with
  | [] => [e]
  | x :: rest =>
      if entryScore x <? entryScore e then e :: x :: rest
      else x :: insertByScore e rest
  end.

Definition sortByScore (entries : list ScoreEntry) : list ScoreEntry :=
  foldl (λ sorted e, insertByScore e sorted) [] entries.

(** The updater passed to [setLeaderboard]:
    [[...prevLeaderboard, newScore].sort(...).slice(0, 10)]. *)
Definition updateLeaderboard (newScore : ScoreEntry)
    (prevLeaderboard : list ScoreEntry) : list ScoreEntry :=
  take 10 (sortByScore (prevLeaderboard ++ [newScore])).

(** [leaderboard.length < 10 ||
     final > leaderboard[leaderboard.length - 1].score] *)
Definition isTopTen (leaderboard : list ScoreEntry) (final : Z) : option bool :=
  if Z.of_nat (length leaderboard) <? 10 then Some true
  else
    lowest ← leaderboard !!! (Z.of_nat (length leaderboard) - 1);
    Some (final >? entryScore lowest).

(** *** The distance map of the win cascade *)

(** [m[r][c] = v] for an entry that exists; a write that would throw or
    grow an array is [None]. *)
Definition writeAt (m : list (list Z)) (r c v : Z) : option (list (list Z)) :=
  _ ← cell m r c;
  Some (alter (alter (λ _, v) (Z.to_nat c)) (Z.to_nat r) m).

(** The state of the loop: [queue] is only appended to and read at [head]. *)
Record DistState := mkDist {
  distQueue : list (Coords * Z);
  distHead : nat;
  visitedForDist : gset Coords;
  newDistanceMap : list (list Z)
}.

(** The body of [for (const key in DIRECTIONS)] for the entry
    [{r: qr, c: qc, dist}] read from the queue. *)
Definition distExpand (grid : Grid) (size : Z) (isWrapping : bool)
    (qr qc dist connections : Z) (st : DistState) (key : DirKey)
  : option DistState :=
  let dir := DIRECTIONS key in
  if Z.land connections (mask dir) =? 0 then Some st
  else
    match neighbour size isWrapping qr qc dir with
    | None => Some st
    | Some (nr, nc) =>
        if bool_decide ((nr, nc) ∈ visitedForDist st) then Some st
        else
          neighbor ← cell grid nr nc;
          if connected neighbor then
            map' ← writeAt (newDistanceMap st) nr nc (dist + 1);
            Some (mkDist (distQueue st ++ [((nr, nc), dist + 1)]) (distHead st)
                         ({[(nr, nc)]} ∪ visitedForDist st) map')
          else Some st
    end.

Fixpoint distExpandAll (grid : Grid) (size : Z) (isWrapping : bool)
    (qr qc dist connections : Z) (st : DistState) (keys : list DirKey)
  : option DistState :=
  match keys with
  | [] => Some st
  | key :: keys' =>
      st' ← distExpand grid size isWrapping qr qc dist connections st key;
      distExpandAll grid size isWrapping qr qc dist connections st' keys'
  end.

(** One iteration of [while (head < queue.length)]. *)
Definition distStep (grid : Grid) (size : Z) (isWrapping : bool)
    (st : DistState) : option DistState :=
  match distQueue st !! distHead st with
  | None => Some st
  | Some ((qr, qc), dist) =>
      tile ← cell grid qr qc;
      distExpandAll grid size isWrapping qr qc dist (tileConnections tile)
        (mkDist (distQueue st) (S (distHead st)) (visitedForDist st)
                (newDistanceMap st))
        dirKeys
  end.

Fixpoint distLoop (fuel : nat) (grid : Grid) (size : Z) (isWrapping : bool)
    (st : DistState) : option (list (list Z)) :=
  match distQueue st !! distHead st with
  | None => Some (newDistanceMap st)
  | Some _ =>
      match fuel with
      | O => None
      | S fuel' =>
          st' ← distStep grid size isWrapping st;
          distLoop fuel' grid size isWrapping st'
      end
  end.

(** "Calculate distance map for win animation cascade"; the loop reads
    every queue entry once and no cell enters the queue twice, which gives
    the budget. *)
Definition computeDistanceMap (grid : Grid) (serverCoords : Coords)
    (isWrapping : bool) : option (list (list Z)) :=
  let size := Z.of_nat (length grid) in
  map0 ← writeAt (matrix size (-1)) serverCoords.1 serverCoords.2 0;
  distLoop (length grid * length grid) grid size isWrapping
    (mkDist [(serverCoords, 0)] 0 {[serverCoords]} map0).

(** *** The component's state beyond the engine's *)

Inductive Key := ArrowUp | ArrowDown | ArrowLeft | ArrowRight | Space | Enter
  | OtherKey.

Module Ui.

Record State := mkState {
  app : App.State;
  focusedTile : option Coords;
  distanceMap : list (list Z);
  finalScoreInfo : option (Z * Z);
  isHighScore : bool;
  leaderboard : list ScoreEntry
}.

Definition setApp (s : State) (a : App.State) : State :=
  mkState a (focusedTile s) (distanceMap s) (finalScoreInfo s) (isHighScore s)
          (leaderboard s).

Definition setFocusedTile (s : State) (f : option Coords) : State :=
  mkState (app s) f (distanceMap s) (finalScoreInfo s) (isHighScore s)
          (leaderboard s).

(** The arguments of the [useState] calls. *)
Definition initial : State :=
  mkState (App.mkState 7 false [] [] (0, 0) [] false None 0)
          (Some (0, 0)) [] None false [].

(** [startNewGame()]; the clock read into [startTimeRef] and the initials
    field are not modelled. *)
Definition startNewGame (rnd : nat → nat) (s : State) : option State :=
  let gridSize := App.gridSize (app s) in
  let isWrapping := App.isWrapping (app s) in
  generated ← generateGrid rnd gridSize isWrapping;
  let '(newGrid, newSolution, newServerCoords, newTerminals) := generated in
  updatedGrid ← checkConnectivity newGrid newServerCoords isWrapping;
  Some (mkState
    (App.mkState gridSize isWrapping updatedGrid newSolution newServerCoords
       newTerminals false (App.hintedTile (app s))
       (gridSize * gridSize * 100))
    (Some (gridSize / 2, gridSize / 2)) [] None false (leaderboard s)).

(** The effect that runs "whenever the grid changes".  [timeBonus] stands
    for [Math.max(0, Math.floor((parTime - duration) * 10))], which depends on
    the clock; the sound is not modelled. *)
Definition winEffect (timeBonus : Z) (s : State) : option State :=
  let a := app s in
  if App.isWon a || (Z.of_nat (length (App.grid a)) =? 0) then Some s
  else
    met ← isWinConditionMet (App.grid a) (App.terminals a) (App.isWrapping a);
    if met : bool then
      let final := App.score a + timeBonus in
      topTen ← isTopTen (leaderboard s) final;
      newDistanceMap ←
        computeDistanceMap (App.grid a) (App.serverCoords a)
          (App.isWrapping a);
      Some (mkState
        (App.mkState (App.gridSize a) (App.isWrapping a) (App.grid a)
           (App.solution a) (App.serverCoords a) (App.terminals a) true
           (App.hintedTile a) (App.score a))
        (focusedTile s) newDistanceMap (Some (final, timeBonus)) topTen
        (leaderboard s))
    else Some s.

(** [handleTileClick(r, c)] *)
Definition handleTileClick (s : State) (r c : Z) : option State :=
  a ← App.rotateTile (app s) r c;
  Some (setApp (setFocusedTile s (Some (r, c))) a).

(** [handleInitialsSubmit(e)]; [name] stands for
    [playerInitials.trim().toUpperCase()], which is empty exactly when
    [playerInitials.trim()] is; the write to local storage is not
    modelled. *)
Definition handleInitialsSubmit (name : String.string) (s : State) : State :=
  match name, finalScoreInfo s with
  | String.EmptyString, _ => s
  | _, None => s
  | _, Some (final, _) =>
      let newScore :=
        mkScoreEntry name final (App.gridSize (app s))
          (App.isWrapping (app s)) in
      mkState (app s) (focusedTile s) (distanceMap s) (finalScoreInfo s) false
              (updateLeaderboard newScore (leaderboard s))
  end.

(** The new focus of an arrow key.  [gridSize] is positive whenever a grid
    is shown; [x % 0] is not a number, which is [None] here. *)
Definition moveFocus (gridSize : Z) (isWrapping : bool) (r c : Z) (key : Key)
  : option Coords :=
  if isWrapping && (gridSize =? 0) then None
  else
    match key with
    | ArrowUp =>
        Some (if isWrapping then Z.rem (r - 1 + gridSize) gridSize
              else Z.max 0 (r - 1), c)
    | ArrowDown =>
        Some (if isWrapping then Z.rem (r + 1) gridSize
              else Z.min (gridSize - 1) (r + 1), c)
    | ArrowLeft =>
        Some (r, if isWrapping then Z.rem (c - 1 + gridSize) gridSize
                 else Z.max 0 (c - 1))
    | ArrowRight =>
        Some (r, if isWrapping then Z.rem (c + 1) gridSize
                 else Z.min (gridSize - 1) (c + 1))
    | _ => Some (r, c)
    end.

(** [handleKeyDown(e)] of the keyboard-navigation effect. *)
Definition handleKeyDown (s : State) (key : Key) : option State :=
  match focusedTile s with
  | None => Some s
  | Some (r, c) =>
      if App.isWon (app s) then Some s
      else
        match key with
        | Space | Enter =>
            a ← App.rotateTile (app s) r c;
            Some (setApp s a)
        | OtherKey => Some s
        | _ =>
            focus ← moveFocus (App.gridSize (app s)) (App.isWrapping (app s))
                       r c key;
            Some (setFocusedTile s (Some focus))
        end
  end.

End Ui.

(** *** The same handlers in the second block of the source

    The second block keeps no score and no leaderboard; the fields of
    [Ui.State] that it lacks are carried along unchanged.  Its distance map
    and arrow-key arithmetic are the same text as the first block's and
    share [computeDistanceMap] and [Ui.moveFocus]. *)
Module LegacyUi.

(** [rotateTile(r, c)] of the second block. *)
Definition rotateTile (s : App.State) (r c : Z) : option App.State :=
  match cell (App.grid s) r c with
  | None => Some s
  | Some tile =>
      if App.isWon s || isServer tile then Some s
      else
        let newGrid :=
          setRotation (App.grid s) r c (Z.rem (rotation tile + 1) 4) in
        updatedGridWithConnectivity ←
          Legacy.checkConnectivity newGrid (App.serverCoords s)
            (App.isWrapping s);
        Some (App.setGrid s updatedGridWithConnectivity)
  end.

(** [startNewGame()] of the second block. *)
Definition startNewGame (rnd : nat → nat) (s : Ui.State) : option Ui.State :=
  let gridSize := App.gridSize (Ui.app s) in
  let isWrapping := App.isWrapping (Ui.app s) in
  generated ← Legacy.generateGrid rnd gridSize isWrapping;
  let '(newGrid, newSolution, newServerCoords, newTerminals) := generated in
  updatedGrid ← Legacy.checkConnectivity newGrid newServerCoords isWrapping;
  Some (Ui.mkState
    (App.mkState gridSize isWrapping updatedGrid newSolution newServerCoords
       newTerminals false (App.hintedTile (Ui.app s)) (App.score (Ui.app s)))
    (Some (gridSize / 2, gridSize / 2)) [] (Ui.finalScoreInfo s)
    (Ui.isHighScore s) (Ui.leaderboard s)).

(** The win effect of the second block:
    [terminals.every((t) => grid[t.r][t.c].connected)]. *)
Definition winEffect (s : Ui.State) : option Ui.State :=
  let a := Ui.app s in
  if App.isWon a || (Z.of_nat (length (App.grid a)) =? 0)
     || (Z.of_nat (length (App.terminals a)) =? 0) then Some s
  else
    allTerminalsConnected ←
      allM (λ t : Coords, tile ← cell (App.grid a) t.1 t.2;
                          Some (connected tile)) (App.terminals a);
    if allTerminalsConnected : bool then
      newDistanceMap ←
        computeDistanceMap (App.grid a) (App.serverCoords a)
          (App.isWrapping a);
      Some (Ui.mkState
        (App.mkState (App.gridSize a) (App.isWrapping a) (App.grid a)
           (App.solution a) (App.serverCoords a) (App.terminals a) true
           (App.hintedTile a) (App.score a))
        (Ui.focusedTile s) newDistanceMap (Ui.finalScoreInfo s)
        (Ui.isHighScore s) (Ui.leaderboard s))
    else Some s.

(** [handleKeyDown(e)] of the second block: a won game does not stop the
    arrow keys. *)
Definition handleKeyDown (s : Ui.State) (key : Key) : option Ui.State :=
  match Ui.focusedTile s with
  | None => Some s
  | Some (r, c) =>
      match key with
      | Space | Enter =>
          a ← rotateTile (Ui.app s) r c;
          Some (Ui.setApp s a)
      | OtherKey => Some s
      | _ =>
          focus ← Ui.moveFocus (App.gridSize (Ui.app s))
                     (App.isWrapping (Ui.app s)) r c key;
          Some (Ui.setFocusedTile s (Some focus))
      end
  end.

End LegacyUi.

(** ** Vocabulary of the statements *)

(** [rc] is a cell of a grid of side [size]. *)
Definition inGrid (size : Z) (rc : Coords) : Prop :=
  0 ≤ rc.1 < size ∧ 0 ≤ rc.2 < size.

(** [m] is a [size] by [size] array of arrays. *)
Definition square {A} (size : Z) (m : list (list A)) : Prop :=
  Z.of_nat (length m) = size ∧
  Forall (λ row, Z.of_nat (length row) = size) m.

(** The inputs [checkConnectivity] is called with: a square grid and the
    coordinates of one of its cells. *)
Definition wellFormed (grid : Grid) (serverCoords : Coords) : Prop :=
  square (Z.of_nat (length grid)) grid ∧
  inGrid (Z.of_nat (length grid)) serverCoords.

(** The tile with its [connected] flag replaced. *)
Definition withConnected (flag : bool) (tile : Tile) : Tile :=
  mkTile (type tile) (rotation tile) flag (isServer tile).

(** Two tiles that differ at most in [connected]. *)
Definition sameTile (t t' : Tile) : Prop :=
  type t' = type t ∧ rotation t' = rotation t ∧ isServer t' = isServer t.

(** Two grids of one shape whose tiles differ at most in [connected]. *)
Definition sameButConnected (g g' : Grid) : Prop :=
  Forall2 (Forall2 sameTile) g g'.

(** The mask the tile at [rc] exposes, 0 where there is no tile. *)
Definition maskAt (grid : Grid) (rc : Coords) : Z :=
  from_option tileConnections 0 (cell grid rc.1 rc.2).

(** [m] has the bit of direction [key]. *)
Definition hasBit (m : Z) (key : DirKey) : Prop :=
  Z.land m (mask (DIRECTIONS key)) ≠ 0.

(** The mutual-agreement edge of the Evaluator: [x] exposes a bit toward its
    topological neighbour [y], and [y] exposes the opposite bit. *)
Definition mutual (grid : Grid) (size : Z) (isWrapping : bool) (x y : Coords)
  : Prop :=
  ∃ key,
    hasBit (maskAt grid x) key ∧
    neighbour size isWrapping x.1 x.2 (DIRECTIONS key) = Some y ∧
    is_Some (cell grid y.1 y.2) ∧
    hasBit (maskAt grid y) (from (DIRECTIONS key)).

(** The [connected] flag read at [rc], [false] where there is no tile. *)
Definition connectedAt (grid : Grid) (rc : Coords) : bool :=
  from_option connected false (cell grid rc.1 rc.2).

(** The set of all cells of a grid of side [size]. *)
Definition cellsSet (size : Z) : gset Coords := list_to_set (allCoords size).

(** The invariant of the BFS loop of [checkConnectivity]. *)
Definition bfsInv (grid : Grid) (size : Z) (isWrapping : bool)
    (serverCoords : Coords) (st : BfsState) : Prop :=
  serverCoords ∈ visited st ∧
  (∀ x, x ∈ visited st ↔ x ∈ connectedSet st ∨ x ∈ queue st) ∧
  (∀ x y, x ∈ connectedSet st → mutual grid size isWrapping x y →
          y ∈ visited st) ∧
  (∀ x, x ∈ visited st → rtc (mutual grid size isWrapping) serverCoords x).

(** The number of elements of a set of cells (the name [size] is taken by
    the source's grid side). *)
Abbreviation card := (@stdpp.base.size (gset Coords) _).

(** Two grids that expose the same masks at the same places. *)
Definition sameMasks (g1 g2 : Grid) : Prop :=
  ∀ r c, tileConnections <$> cell g1 r c = tileConnections <$> cell g2 r c.

(** A small board used to exercise the statements: the server, a terminal
    pointing east, sits in the top-left corner of a 3 by 3 bounded grid. *)
Definition tile (t : TileType) (rot : Z) : Tile := mkTile t rot false false.

Definition sampleGrid : Grid :=
  [[mkTile TERMINAL 1 false true; tile CORNER 2; tile TERMINAL 0];
   [tile TERMINAL 0; tile STRAIGHT 0; tile TERMINAL 0];
   [tile TERMINAL 0; tile TERMINAL 0; tile TERMINAL 0]].

(** What the no-leak re-check asks of a grid: every bit exposed by a
    connected cell points to an existing neighbour that is connected and
    exposes the opposite bit. *)
Definition leakFreeGrid (grid : Grid) (isWrapping : bool) : Prop :=
  ∀ x key,
    connectedAt grid x = true → hasBit (maskAt grid x) key →
    ∃ y, neighbour (Z.of_nat (length grid)) isWrapping x.1 x.2 (DIRECTIONS key)
           = Some y ∧
         connectedAt grid y = true ∧
         hasBit (maskAt grid y) (from (DIRECTIONS key)).

(** The weaker property the Evaluator does establish: every bit exposed by a
    connected cell that points to an existing neighbour that exposes the
    opposite bit points to a connected cell. *)
Definition closedUnderMutual (grid : Grid) (isWrapping : bool) : Prop :=
  ∀ x y,
    connectedAt grid x = true →
    mutual grid (Z.of_nat (length grid)) isWrapping x y →
    connectedAt grid y = true.

(** A 5 by 5 bounded board right after a scramble: the server, in the
    top-left corner, is a terminal pointing east; every other tile is a
    terminal pointing north. *)
Definition leakyGrid : Grid :=
  [[mkTile TERMINAL 1 false true; tile TERMINAL 0; tile TERMINAL 0;
    tile TERMINAL 0; tile TERMINAL 0];
   [tile TERMINAL 0; tile TERMINAL 0; tile TERMINAL 0; tile TERMINAL 0;
    tile TERMINAL 0];
   [tile TERMINAL 0; tile TERMINAL 0; tile TERMINAL 0; tile TERMINAL 0;
    tile TERMINAL 0];
   [tile TERMINAL 0; tile TERMINAL 0; tile TERMINAL 0; tile TERMINAL 0;
    tile TERMINAL 0];
   [tile TERMINAL 0; tile TERMINAL 0; tile TERMINAL 0; tile TERMINAL 0;
    tile TERMINAL 0]].

(** Every bit exposed by a connected cell points to an existing neighbour
    that exposes the opposite bit. *)
Definition stubsMatched (grid : Grid) (isWrapping : bool) : Prop :=
  ∀ x key,
    connectedAt grid x = true → hasBit (maskAt grid x) key →
    ∃ y, neighbour (Z.of_nat (length grid)) isWrapping x.1 x.2 (DIRECTIONS key)
           = Some y ∧
         hasBit (maskAt grid y) (from (DIRECTIONS key)).

(** A session on [sampleGrid]: bounded 3 by 3 board, server at [(0, 0)]. *)
Definition sampleState : App.State :=
  App.mkState 3 false sampleGrid
    [[1; 2; 2]; [1; 0; 3]; [1; 0; 3]] (0, 0) [(0, 0); (2, 1)] false None 900.

(** ** Vocabulary of the Generator's invariants *)

(** The generation-time mask of cell [x]. *)
Definition connAt (conn : list (list Z)) (x : Coords) : Z :=
  connectionAt conn x.1 x.2.

(** [conn] records an edge from [x] toward its topological neighbour [y]. *)
Definition edge (size : Z) (isWrapping : bool) (conn : list (list Z))
    (x y : Coords) : Prop :=
  ∃ key, hasBit (connAt conn x) key ∧
         neighbour size isWrapping x.1 x.2 (DIRECTIONS key) = Some y.

(** Every recorded edge is recorded from both ends. *)
Definition reciprocal (size : Z) (isWrapping : bool) (conn : list (list Z))
  : Prop :=
  ∀ x key,
    inGrid size x → hasBit (connAt conn x) key →
    ∃ y, neighbour size isWrapping x.1 x.2 (DIRECTIONS key) = Some y ∧
         hasBit (connAt conn y) (from (DIRECTIONS key)).

(** Masks are 4-bit values. *)
Definition maskRange (size : Z) (conn : list (list Z)) : Prop :=
  ∀ x, inGrid size x → 0 ≤ connAt conn x < 16.

(** The invariant of the mask matrix through steps 1 and 1.5. *)
Definition connInv (size : Z) (isWrapping : bool) (conn : list (list Z))
  : Prop :=
  square size conn ∧ reciprocal size isWrapping conn ∧ maskRange size conn.

(** [connections[x] |= mask; connections[y] |= fromMask] for direction
    [key]. *)
Definition link (conn : list (list Z)) (x y : Coords) (key : DirKey)
  : list (list Z) :=
  orAt (orAt conn x.1 x.2 (mask (DIRECTIONS key)))
       y.1 y.2 (mask (DIRECTIONS (from (DIRECTIONS key)))).

(** [visited[x]] of the spanning walk. *)
Definition seenAt (vis : list (list bool)) (x : Coords) : bool :=
  visitedAt vis x.1 x.2.

(** The cells not yet visited by the spanning walk. *)
Definition unvisited (size : Z) (vis : list (list bool)) : list Coords :=
  filter (λ x, seenAt vis x = false) (allCoords size).

(** The invariant of the spanning walk started at [start]. *)
Definition walkInv (size : Z) (isWrapping : bool) (start : Coords)
    (st : WalkState) : Prop :=
  connInv size isWrapping (walkConnections st) ∧
  square size (walkVisited st) ∧
  (∀ x, x ∈ walkStack st → inGrid size x ∧ seenAt (walkVisited st) x = true) ∧
  (∀ x, inGrid size x → seenAt (walkVisited st) x = true →
        rtc (edge size isWrapping (walkConnections st)) start x) ∧
  (∀ x, inGrid size x → seenAt (walkVisited st) x = true →
        x ∈ walkStack st ∨
        ∀ key y, neighbour size isWrapping x.1 x.2 (DIRECTIONS key) = Some y →
                 seenAt (walkVisited st) y = true) ∧
  inGrid size start ∧ seenAt (walkVisited st) start = true.

(** The number of iterations the walk still needs, at most. *)
Definition walkMeasure (size : Z) (st : WalkState) : nat :=
  (2 * length (unvisited size (walkVisited st)) + length (walkStack st))%nat.

(** ** The solved configuration *)

(** The grid with every tile's rotation set to its recorded Solution
    value. *)
Definition withSolution (grid : Grid) (solution : list (list Z)) : Grid :=
  imap (λ r row,
    imap (λ c t,
      mkTile (type t)
             (default (rotation t) (cell solution (Z.of_nat r) (Z.of_nat c)))
             (connected t) (isServer t)) row) grid.

(** The grid with every non-server tile's rotation set to its recorded
    Solution value; the server tile is left as it is. *)
Definition withSolutionOffServer (grid : Grid) (solution : list (list Z))
  : Grid :=
  imap (λ r row,
    imap (λ c t,
      if isServer t then t
      else mkTile (type t)
             (default (rotation t) (cell solution (Z.of_nat r) (Z.of_nat c)))
             (connected t) (isServer t)) row) grid.

(** Every tile of the grid is marked connected. *)
Definition allConnected (grid : Grid) : Prop :=
  Forall (Forall (λ t, connected t = true)) grid.

(** The grid sizes the game offers. *)
Definition supportedSize (size : Z) : Prop :=
  size = 5 ∨ size = 7 ∨ size = 9 ∨ size = 11.

(** What the scramble keeps of a solved tile [t] at a place that is the
    server's iff [server]. *)
Definition scrambled (server : bool) (t : TileType * Z) (tile : Tile) : Prop :=
  type tile = t.1 ∧ connected tile = false ∧ isServer tile = server ∧
  (server = true → rotation tile = t.2).

(** ** Vocabulary of the hint *)

(** A session whose grid and Solution are [gridSize] by [gridSize] and
    whose server coordinate is a cell. *)
Definition wfState (s : App.State) : Prop :=
  square (App.gridSize s) (App.grid s) ∧
  square (App.gridSize s) (App.solution s) ∧
  inGrid (App.gridSize s) (App.serverCoords s).

(** [x] is an incorrect tile: a non-server tile whose rotation differs from
    the Solution at its place. *)
Definition incorrectAt (grid : Grid) (solution : list (list Z)) (x : Coords)
  : Prop :=
  ∃ t rot,
    cell grid x.1 x.2 = Some t ∧ isServer t = false ∧
    cell solution x.1 x.2 = Some rot ∧ rot ≠ rotation t.

(** The grid after the tile at [x] is set to its Solution rotation and the
    Evaluator is run again. *)
Definition gridAfterHint (s : App.State) (x : Coords) : option Grid :=
  rot ← cell (App.solution s) x.1 x.2;
  checkConnectivity (setRotation (App.grid s) x.1 x.2 rot)
    (App.serverCoords s) (App.isWrapping s).

(** The number of connected cells after correcting the tile at [x]. *)
Definition countAfterHint (s : App.State) (x : Coords) : Z :=
  from_option countConnected 0 (gridAfterHint s x).

(** A bounded 5 by 5 session in which the hint lowers the number of
    connected cells.  The Solution is the serpentine path that
    [generateGrid] builds when every draw but the server's is 0; the server
    is the corner at [(1, 0)].  Every tile is at its Solution rotation but
    three: the straight at [(0, 1)] (rotation 0, Solution 1), the corner at
    [(1, 1)] (rotation 3, Solution 2) and the straight at [(2, 1)]
    (rotation 1, Solution 0).  The [connected] flags are the Evaluator's. *)
Definition hintDropGrid : Grid :=
  [[mkTile TERMINAL 1 false false; mkTile STRAIGHT 0 true false;
    mkTile STRAIGHT 1 false false; mkTile STRAIGHT 1 false false;
    mkTile CORNER 2 false false];
   [mkTile CORNER 1 true true; mkTile CORNER 3 true false;
    mkTile CORNER 1 false false; mkTile CORNER 2 false false;
    mkTile STRAIGHT 0 false false];
   [mkTile STRAIGHT 0 true false; mkTile STRAIGHT 1 false false;
    mkTile STRAIGHT 0 false false; mkTile STRAIGHT 0 false false;
    mkTile STRAIGHT 0 false false];
   [mkTile STRAIGHT 0 true false; mkTile STRAIGHT 0 false false;
    mkTile STRAIGHT 0 false false; mkTile STRAIGHT 0 false false;
    mkTile STRAIGHT 0 false false];
   [mkTile TERMINAL 0 true false; mkTile CORNER 0 false false;
    mkTile CORNER 3 false false; mkTile CORNER 0 false false;
    mkTile CORNER 3 false false]].

Definition hintDropSolution : list (list Z) :=
  [[1; 1; 1; 1; 2];
   [1; 2; 1; 2; 0];
   [0; 0; 0; 0; 0];
   [0; 0; 0; 0; 0];
   [0; 0; 3; 0; 3]].

Definition hintDropState : App.State :=
  App.mkState 5 false hintDropGrid hintDropSolution (1, 0) [(0, 0); (4, 0)]
    false None 2500.

(** The draws behind [hintDropSolution]: all 0, but the draw of the server
    (the 57th), which is 5. *)
Definition hintDropDraws (k : nat) : nat :=
  if Nat.eqb k 56 then 5%nat else 0%nat.

(** Draws on which the two blocks of the source generate different grids:
    all 0, but the 29th, which is 1. *)
Definition extraEdgeDraws (k : nat) : nat :=
  if Nat.eqb k 28 then 1%nat else 0%nat.

(** ** Counting stubs *)

(** The sum of [f] over a list of cells. *)
Definition sumOver (f : Coords → Z) (l : list Coords) : Z :=
  foldr (λ x acc, f x + acc) 0 l.

(** The number of bits set in the masks of a grid of side [size]. *)
Definition totalBits (size : Z) (conn : list (list Z)) : Z :=
  sumOver (λ x, numConnections (connAt conn x)) (allCoords size).

(** The number of wire stubs of a tile kind. *)
Definition stubs (t : TileType) : Z :=
  match t with
  | TERMINAL => 1
  | STRAIGHT => 2
  | CORNER => 2
  | T_JUNCTION => 3
  | CROSS => 4
  end.

(** The number of wire stubs on a grid of side [size]. *)
Definition totalStubs (size : Z) (grid : Grid) : Z :=
  sumOver (λ x, from_option (λ t, stubs (type t)) 0 (cell grid x.1 x.2))
          (allCoords size).

(** The walk builds a tree: cells not yet visited have an empty mask, and
    every visit but the first has added one edge, that is two bits. *)
Definition treeInv (size : Z) (st : WalkState) : Prop :=
  (∀ x, inGrid size x → seenAt (walkVisited st) x = false →
        connAt (walkConnections st) x = 0) ∧
  totalBits size (walkConnections st)
  + 2 * Z.of_nat (length (unvisited size (walkVisited st))) + 2
  = 2 * size * size.

(** ** Vocabulary of the statements about boards in play *)

(** What the Generator guarantees of its masks: they are reciprocal 4-bit
    values that link every cell to every other. *)
Definition puzzle (size : Z) (isWrapping : bool) (conn : list (list Z))
  : Prop :=
  connInv size isWrapping conn ∧
  ∃ start, inGrid size start ∧
           ∀ x, inGrid size x → rtc (edge size isWrapping conn) start x.

(** [grid] is a board of the puzzle with masks [conn] and server
    [serverCoords]: every tile has the kind of its mask and a rotation in
    0..3, the server flag marks the server's cell, and the server tile is at
    its solved rotation. *)
Definition boardOf (size : Z) (conn : list (list Z)) (serverCoords : Coords)
    (grid : Grid) : Prop :=
  square size grid ∧
  ∀ x, inGrid size x →
    ∃ tile, cell grid x.1 x.2 = Some tile ∧
            type tile = (solvedTile (connAt conn x)).1 ∧
            isServer tile = bool_decide (x = serverCoords) ∧
            0 ≤ rotation tile < 4 ∧
            (x = serverCoords →
             rotation tile = (solvedTile (connAt conn x)).2).

(** The engine's state is that of a game on the puzzle with masks [conn]:
    Solution and terminals are the Generator's, the grid is a board of the
    puzzle, and its [connected] flags are the Evaluator's. *)
Definition playing (conn : list (list Z)) (s : App.State) : Prop :=
  App.solution s = map (map snd) (map (map solvedTile) conn) ∧
  App.terminals s = terminalsOf conn ∧
  inGrid (App.gridSize s) (App.serverCoords s) ∧
  boardOf (App.gridSize s) conn (App.serverCoords s) (App.grid s) ∧
  checkConnectivity (App.grid s) (App.serverCoords s) (App.isWrapping s)
  = Some (App.grid s).

(** The engine's state is that of a game on some generated puzzle. *)
Definition playable (s : App.State) : Prop :=
  ∃ conn, puzzle (App.gridSize s) (App.isWrapping s) conn ∧ playing conn s.

(** One move of the player: a rotation or a hint. *)
Definition move (s s' : App.State) : Prop :=
  (∃ r c, App.rotateTile s r c = Some s') ∨ App.handleHintClick s = Some s'.

(** [n] clicks on the hint button in a row. *)
Fixpoint hints (n : nat) (s : App.State) : option App.State :=
  match n with
  | O => Some s
  | S n' => s' ← App.handleHintClick s; hints n' s'
  end.


(** The entry of a distance map at [x], [-1] where there is none. *)
Definition distAt (distanceMap : list (list Z)) (x : Coords) : Z :=
  default (-1) (cell distanceMap x.1 x.2).

(** The edge the distance map follows: [x] exposes a bit toward its
    topological neighbour [y], and [y] is marked connected. *)
Definition powers (grid : Grid) (size : Z) (isWrapping : bool) (x y : Coords)
  : Prop :=
  ∃ key,
    hasBit (maskAt grid x) key ∧
    neighbour size isWrapping x.1 x.2 (DIRECTIONS key) = Some y ∧
    connectedAt grid y = true.

(** A leaderboard in descending order of score. *)
Definition descending (entries : list ScoreEntry) : Prop :=
  ∀ i j a b, (i < j)%nat → entries !! i = Some a → entries !! j = Some b →
             entryScore b ≤ entryScore a.

(** The grid with every [connected] flag cleared. *)
Definition flagless (grid : Grid) : Grid := map (map (withConnected false)) grid.

(** [incorrectAt], as a test. *)
Definition isIncorrect (grid : Grid) (solution : list (list Z)) (x : Coords)
  : bool :=
  match cell grid x.1 x.2, cell solution x.1 x.2 with
  | Some t, Some rot => negb (isServer t) && negb (rot =? rotation t)
  | _, _ => false
  end.

(** The list [incorrectTiles] that [handleHintClick] builds in state [s]. *)
Definition incorrectTiles (s : App.State) : list Coords :=
  default [] (collectIncorrect (App.grid s) (App.solution s)
                (allCoords (App.gridSize s))).

(** The direction an arrow key stands for. *)
Definition arrowDir (key : Key) : option DirKey :=
  match key with
  | ArrowUp => Some DirN
  | ArrowRight => Some DirE
  | ArrowDown => Some DirS
  | ArrowLeft => Some DirW
  | _ => None
  end.

(** The game [startNewGame] deals from the initial state when the [k]-th
    draw is [k], and that game after as many hints as it has incorrect
    tiles. *)
Definition sampleGame : App.State :=
  from_option Ui.app (Ui.app Ui.initial)
    (Ui.startNewGame (λ k, k) Ui.initial).

Definition solvedGame : App.State :=
  default sampleGame (hints (length (incorrectTiles sampleGame)) sampleGame).

(** The invariant of the loop that fills the distance map, when the queue
    entries before index [closed] have been expanded. *)
Definition distInv (grid : Grid) (size : Z) (isWrapping : bool)
    (serverCoords : Coords) (closed : nat) (st : DistState) : Prop :=
  square size (newDistanceMap st) ∧
  (closed ≤ distHead st ≤ length (distQueue st))%nat ∧
  NoDup (distQueue st).*1 ∧
  (∀ x, x ∈ visitedForDist st ↔ x ∈ (distQueue st).*1) ∧
  (∀ x d, (x, d) ∈ distQueue st →
          inGrid size x ∧ distAt (newDistanceMap st) x = d ∧ 0 ≤ d) ∧
  (∀ x, inGrid size x → ¬ (x ∈ visitedForDist st) →
        distAt (newDistanceMap st) x = -1) ∧
  (∀ x, x ∈ visitedForDist st →
        rtc (powers grid size isWrapping) serverCoords x) ∧
  (∀ i x d y, (i < closed)%nat → distQueue st !! i = Some (x, d) →
              powers grid size isWrapping x y → y ∈ visitedForDist st) ∧
  (∀ y d, (y, d) ∈ distQueue st →
          y = serverCoords ∧ d = 0 ∨
          ∃ x, (x, d - 1) ∈ distQueue st ∧
               powers grid size isWrapping x y) ∧
  (serverCoords, 0) ∈ distQueue st.


(** A session on [solvedGame], with an empty leaderboard. *)
Definition solvedSession : Ui.State :=
  Ui.mkState solvedGame None [] None false [].

(** A bounded 2 by 2 board whose wire is the path
    (0,0) - (0,1) - (1,1) - (1,0), every tile at its solved rotation and
    marked connected; the server is the terminal at [(0, 0)]. *)
Definition pathGrid : Grid :=
  [[mkTile TERMINAL 1 true true; mkTile CORNER 2 true false];
   [mkTile TERMINAL 1 true false; mkTile CORNER 3 true false]].

Definition pathState : App.State :=
  App.mkState 2 false pathGrid [[1; 2]; [1; 3]] (0, 0) [(0, 0); (1, 0)]
    false None 380.

Definition pathSession : Ui.State :=
  Ui.mkState pathState (Some (1, 1)) [] None false [].

(** [pathSession] after the win effect, with a time bonus of 5. *)
Definition pathWon : Ui.State :=
  default pathSession (Ui.winEffect 5 pathSession).

(** The initials "A". *)
Definition sampleName : String.string :=
  String.String (Ascii.Ascii true false false false false false true false)
    String.EmptyString.

(** * Properties *)

(** ** Arrays and coordinates *)

Lemma readAt_Some {A} (a : list A) (i : Z) (x : A) :
  a !!! i = Some x ↔ 0 ≤ i ∧ a !! Z.to_nat i = Some x.
Proof.
  unfold readAt. destruct (Z.ltb_spec i 0); split.
  - discriminate.
  - intros [? _]; lia.
  - intros; split; [lia | done].
  - intros [_ ?]; done.
Qed.

Lemma readAt_of_nat {A} (a : list A) (i : nat) :
  a !!! Z.of_nat i = a !! i.
Proof.
  unfold readAt. destruct (Z.ltb_spec (Z.of_nat i) 0); [lia |].
  by rewrite Nat2Z.id.
Qed.

Lemma readAt_is_Some {A} (a : list A) (i : Z) :
  is_Some (a !!! i) ↔ 0 ≤ i < Z.of_nat (length a).
Proof.
  unfold readAt. destruct (Z.ltb_spec i 0).
  - split; [intros [? ?]; discriminate | lia].
  - rewrite lookup_lt_is_Some. lia.
Qed.

Lemma cell_Some {A} (m : list (list A)) (r c : Z) (x : A) :
  cell m r c = Some x ↔ ∃ row, m !!! r = Some row ∧ row !!! c = Some x.
Proof.
  unfold cell. destruct (m !!! r) as [row|]; simpl.
  - split; [eauto | intros (? & [= <-] & ?); done].
  - split; [discriminate | intros (? & ? & ?); discriminate].
Qed.

Lemma cell_inGrid {A} (size : Z) (m : list (list A)) (r c : Z) :
  square size m → is_Some (cell m r c) ↔ inGrid size (r, c).
Proof.
  intros [Hlen Hrows]. rewrite Forall_forall in Hrows.
  unfold inGrid; simpl. split.
  - intros [x Hx]. apply cell_Some in Hx as (row & Hr & Hc).
    assert (is_Some (m !!! r)) as Hr' by eauto.
    assert (is_Some (row !!! c)) as Hc' by eauto.
    apply readAt_is_Some in Hr', Hc'.
    apply readAt_Some in Hr as [_ Hr].
    apply list_elem_of_lookup_2 in Hr. apply Hrows in Hr. lia.
  - intros [Hr Hc].
    destruct (proj2 (readAt_is_Some m r)) as [row Hrow]; [lia |].
    pose proof Hrow as Hrow'. apply readAt_Some in Hrow' as [_ Hrow'].
    apply list_elem_of_lookup_2 in Hrow'. apply Hrows in Hrow'.
    destruct (proj2 (readAt_is_Some row c)) as [x Hx]; [lia |].
    exists x. apply cell_Some. eauto.
Qed.

Lemma cell_is_Some {A} (size : Z) (m : list (list A)) (x : Coords) :
  square size m → inGrid size x → is_Some (cell m x.1 x.2).
Proof. intros Hsq Hx. destruct x. by apply (cell_inGrid size). Qed.

Lemma cell_markConnected (cs : gset Coords) (grid : Grid) (r c : Z) :
  cell (markConnected cs grid) r c =
  withConnected (bool_decide ((r, c) ∈ cs)) <$> cell grid r c.
Proof.
  unfold cell, readAt, markConnected.
  destruct (Z.ltb_spec r 0); [done |].
  rewrite list_lookup_imap.
  destruct (grid !! Z.to_nat r) as [row|]; simpl; [| done].
  destruct (Z.ltb_spec c 0); [done |].
  rewrite list_lookup_imap. rewrite !Z2Nat.id by lia. done.
Qed.

Lemma length_markConnected (cs : gset Coords) (grid : Grid) :
  length (markConnected cs grid) = length grid.
Proof. unfold markConnected. by rewrite length_imap. Qed.

Lemma tileConnections_withConnected (flag : bool) (tile : Tile) :
  tileConnections (withConnected flag tile) = tileConnections tile.
Proof. done. Qed.

Lemma maskAt_markConnected (cs : gset Coords) (grid : Grid) (rc : Coords) :
  maskAt (markConnected cs grid) rc = maskAt grid rc.
Proof.
  unfold maskAt. rewrite cell_markConnected.
  by destruct (cell grid rc.1 rc.2).
Qed.

Lemma connectedAt_markConnected (cs : gset Coords) (grid : Grid) (rc : Coords) :
  is_Some (cell grid rc.1 rc.2) →
  connectedAt (markConnected cs grid) rc = bool_decide (rc ∈ cs).
Proof.
  intros [t Ht]. unfold connectedAt. rewrite cell_markConnected, Ht.
  simpl. by destruct rc.
Qed.

Lemma markConnected_same (cs : gset Coords) (grid : Grid) :
  sameButConnected grid (markConnected cs grid).
Proof.
  unfold sameButConnected, markConnected.
  apply Forall2_same_length_lookup. split; [by rewrite length_imap |].
  intros i row row' Hrow. rewrite list_lookup_imap, Hrow. intros [= <-].
  apply Forall2_same_length_lookup. split; [by rewrite length_imap |].
  intros j t t' Ht. rewrite list_lookup_imap, Ht. intros [= <-].
  done.
Qed.

Lemma markConnected_idem (cs : gset Coords) (grid : Grid) :
  markConnected cs (markConnected cs grid) = markConnected cs grid.
Proof.
  unfold markConnected. apply list_eq. intros i.
  rewrite !list_lookup_imap. destruct (grid !! i) as [row|]; simpl; [| done].
  f_equal. apply list_eq. intros j. rewrite !list_lookup_imap.
  by destruct (row !! j).
Qed.

(** ** Topology *)

Lemma neighbour_inGrid (size : Z) (isWrapping : bool) (r c : Z) (key : DirKey)
    (y : Coords) :
  inGrid size (r, c) →
  neighbour size isWrapping r c (DIRECTIONS key) = Some y →
  inGrid size y.
Proof.
  unfold inGrid, neighbour, inBounds; simpl. intros [Hr Hc] H.
  destruct isWrapping; simpl in H.
  - injection H as <-. simpl.
    split; apply Z.rem_bound_pos; destruct key; simpl; lia.
  - case_match; [| discriminate]. injection H as <-. simpl. lia.
Qed.

(** ** The BFS of the Evaluator *)

Section Evaluator.

Variables (grid : Grid) (size : Z) (isWrapping : bool).

Lemma maskAt_cell (r c : Z) (tile : Tile) :
  cell grid r c = Some tile → maskAt grid (r, c) = tileConnections tile.
Proof. unfold maskAt; simpl. by intros ->. Qed.

Lemma expand_spec (r c conn : Z) (qv qv' : list Coords * gset Coords)
    (key : DirKey) :
  expand grid size isWrapping r c conn qv key = Some qv' →
  qv' = qv ∨
  ∃ y, hasBit conn key ∧
       neighbour size isWrapping r c (DIRECTIONS key) = Some y ∧
       ¬ (y ∈ qv.2) ∧ is_Some (cell grid y.1 y.2) ∧
       hasBit (maskAt grid y) (from (DIRECTIONS key)) ∧
       qv' = (qv.1 ++ [y], {[y]} ∪ qv.2).
Proof.
  unfold expand, hasBit. intros H.
  destruct (Z.eqb_spec (Z.land conn (mask (DIRECTIONS key))) 0) as [|Hbit];
    [left; congruence |].
  destruct (neighbour size isWrapping r c (DIRECTIONS key)) as [[nr nc]|];
    [| left; congruence].
  case_bool_decide as Hin; [left; congruence |].
  destruct (cell grid nr nc) as [nb|] eqn:Hnb; simpl in H; [| discriminate].
  destruct (Z.eqb_spec (Z.land (tileConnections nb)
              (mask (DIRECTIONS (from (DIRECTIONS key))))) 0) as [|Hback];
    [left; congruence |].
  right. exists (nr, nc). simpl. rewrite Hnb.
  erewrite maskAt_cell by done. injection H as <-. eauto 10.
Qed.

Lemma expand_closed (r c conn : Z) (qv qv' : list Coords * gset Coords)
    (key : DirKey) (y : Coords) :
  expand grid size isWrapping r c conn qv key = Some qv' →
  hasBit conn key →
  neighbour size isWrapping r c (DIRECTIONS key) = Some y →
  hasBit (maskAt grid y) (from (DIRECTIONS key)) →
  y ∈ qv'.2.
Proof.
  unfold expand, hasBit. intros H Hbit Hy Hback. rewrite Hy in H.
  destruct (Z.eqb_spec (Z.land conn (mask (DIRECTIONS key))) 0); [done |].
  destruct y as [nr nc].
  case_bool_decide as Hin; [by injection H as <- |].
  destruct (cell grid nr nc) as [nb|] eqn:Hnb; simpl in H; [| discriminate].
  erewrite maskAt_cell in Hback by done.
  destruct (Z.eqb_spec (Z.land (tileConnections nb)
              (mask (DIRECTIONS (from (DIRECTIONS key))))) 0); [done |].
  injection H as <-. simpl. set_solver.
Qed.

Lemma expandAll_spec (r c conn : Z) (keys : list DirKey)
    (qv qv' : list Coords * gset Coords) :
  expandAll grid size isWrapping r c conn qv keys = Some qv' →
  ∃ new,
    qv'.1 = qv.1 ++ new ∧
    qv'.2 = list_to_set new ∪ qv.2 ∧
    card qv'.2 = (length new + card qv.2)%nat ∧
    (∀ y, y ∈ new →
       ∃ key, hasBit conn key ∧
              neighbour size isWrapping r c (DIRECTIONS key) = Some y ∧
              is_Some (cell grid y.1 y.2) ∧
              hasBit (maskAt grid y) (from (DIRECTIONS key))) ∧
    (∀ key y, key ∈ keys → hasBit conn key →
       neighbour size isWrapping r c (DIRECTIONS key) = Some y →
       hasBit (maskAt grid y) (from (DIRECTIONS key)) → y ∈ qv'.2).
Proof.
  revert qv. induction keys as [|key keys IH]; intros qv H; simpl in H.
  - injection H as <-. exists []. rewrite app_nil_r. simpl.
    split_and!; [done | set_solver | done | set_solver | set_solver].
  - destruct (expand grid size isWrapping r c conn qv key) as [qv1|] eqn:H1;
      simpl in H; [| discriminate].
    destruct (IH _ H) as (new & Hq & Hv & Hsz & Hnew & Hcl).
    assert (qv1.2 ⊆ qv'.2) as Hsub by (rewrite Hv; set_solver).
    assert (∀ k y, k ∈ key :: keys → hasBit conn k →
       neighbour size isWrapping r c (DIRECTIONS k) = Some y →
       hasBit (maskAt grid y) (from (DIRECTIONS k)) → y ∈ qv'.2) as Hcl'.
    { intros k y Hk Hb Hn Hm. apply elem_of_cons in Hk as [->|Hk].
      - apply Hsub. eapply expand_closed; eauto.
      - eapply Hcl; eauto. }
    destruct (expand_spec _ _ _ _ _ _ H1)
      as [->|(y & Hb & Hn & Hfresh & Hcell & Hm & ->)].
    + exists new. split_and!; auto.
    + simpl in *. exists (y :: new). split_and!.
      * by rewrite Hq, <- app_assoc.
      * rewrite Hv. set_solver.
      * rewrite Hsz, size_union, size_singleton by set_solver. simpl. lia.
      * intros z Hz. apply elem_of_cons in Hz as [->|Hz]; eauto 10.
      * done.
Qed.

Lemma expand_total (r c conn : Z) (qv : list Coords * gset Coords)
    (key : DirKey) :
  square size grid → inGrid size (r, c) →
  is_Some (expand grid size isWrapping r c conn qv key).
Proof.
  intros Hsq Hrc. unfold expand.
  case_match; [eauto |].
  destruct (neighbour size isWrapping r c (DIRECTIONS key)) as [[nr nc]|] eqn:Hn;
    [| eauto].
  case_bool_decide; [eauto |].
  apply neighbour_inGrid in Hn; [| done].
  apply (cell_inGrid size grid nr nc Hsq) in Hn as [nb ->]. simpl.
  case_match; eauto.
Qed.

Lemma expandAll_total (r c conn : Z) (keys : list DirKey)
    (qv : list Coords * gset Coords) :
  square size grid → inGrid size (r, c) →
  is_Some (expandAll grid size isWrapping r c conn qv keys).
Proof.
  intros Hsq Hrc. revert qv. induction keys as [|key keys IH]; intros qv; simpl.
  - eauto.
  - destruct (expand_total r c conn qv key Hsq Hrc) as [qv1 ->]. simpl. apply IH.
Qed.

(** An invariant of [bfsStep] holds of the state the loop ends in. *)
Lemma bfsLoop_invariant (I : BfsState → Prop) :
  (∀ st st', I st → queue st ≠ [] →
             bfsStep grid size isWrapping st = Some st' → I st') →
  ∀ fuel st res,
    I st → bfsLoop fuel grid size isWrapping st = Some res →
    ∃ st', I st' ∧ queue st' = [] ∧ connectedSet st' = res.
Proof.
  intros Hstep. induction fuel as [|fuel IH]; intros st res HI H; simpl in H.
  - destruct (queue st) eqn:Hq; [| discriminate].
    injection H as <-. eauto.
  - destruct (queue st) eqn:Hq.
    + injection H as <-. eauto.
    + destruct (bfsStep grid size isWrapping st) as [st1|] eqn:H1;
        simpl in H; [| discriminate].
      eapply IH; [| done]. eapply Hstep; [done | | done]. by rewrite Hq.
Qed.

Lemma bfsStep_inv (serverCoords : Coords) (st st' : BfsState) :
  bfsInv grid size isWrapping serverCoords st →
  bfsStep grid size isWrapping st = Some st' →
  bfsInv grid size isWrapping serverCoords st'.
Proof.
  intros (Hsrv & Hvis & Hcl & Hreach) H. unfold bfsStep in H.
  destruct (queue st) as [|[r c] rest] eqn:Hq.
  { injection H as <-. unfold bfsInv. rewrite Hq. done. }
  apply bind_Some in H as (tile & Htile & H).
  apply bind_Some in H as (qv & Hexp & H).
  injection H as <-.
  destruct (expandAll_spec _ _ _ _ _ _ Hexp) as (new & Hq' & Hv' & _ & Hnew & Hcl').
  simpl in *.
  assert ((r, c) ∈ visited st) as Hhead by (apply Hvis; right; left).
  unfold bfsInv; simpl. split_and!.
  - rewrite Hv'. set_solver.
  - intros x. rewrite Hv', Hq', elem_of_union, elem_of_list_to_set, Hvis.
    rewrite elem_of_union, elem_of_singleton, elem_of_app, elem_of_cons.
    tauto.
  - intros x y Hx Hm. apply elem_of_union in Hx as [Hx|Hx].
    + apply elem_of_singleton in Hx as ->.
      destruct Hm as (key & Hb & Hn & _ & Hback). simpl in Hn.
      erewrite maskAt_cell in Hb by done.
      eapply Hcl'; eauto. unfold dirKeys. destruct key; set_solver.
    + rewrite Hv'. apply elem_of_union; right. eauto.
  - intros x Hx. rewrite Hv' in Hx. apply elem_of_union in Hx as [Hx|Hx]; [| auto].
    apply elem_of_list_to_set in Hx.
    destruct (Hnew _ Hx) as (key & Hb & Hn & Hcell & Hback).
    eapply rtc_r; [apply Hreach, Hhead |].
    exists key. simpl. erewrite maskAt_cell by done. done.
Qed.

Lemma bfsInv_init (serverCoords : Coords) :
  bfsInv grid size isWrapping serverCoords
    (mkBfs [serverCoords] {[serverCoords]} ∅).
Proof.
  unfold bfsInv; simpl. split_and!.
  - set_solver.
  - intros x. rewrite list_elem_of_singleton. set_solver.
  - set_solver.
  - intros x Hx. apply elem_of_singleton in Hx as ->. done.
Qed.

(** What the loop computes: the set of cells linked to the server by a chain
    of mutual-agreement edges. *)
Lemma bfsLoop_result (fuel : nat) (serverCoords : Coords) (res : gset Coords) :
  bfsLoop fuel grid size isWrapping (mkBfs [serverCoords] {[serverCoords]} ∅)
    = Some res →
  serverCoords ∈ res ∧
  (∀ x y, x ∈ res → mutual grid size isWrapping x y → y ∈ res) ∧
  (∀ x, x ∈ res → rtc (mutual grid size isWrapping) serverCoords x).
Proof.
  intros H.
  destruct (bfsLoop_invariant (bfsInv grid size isWrapping serverCoords))
    with (fuel := fuel) (st := mkBfs [serverCoords] {[serverCoords]} ∅)
         (res := res)
    as (st & (Hsrv & Hvis & Hcl & Hreach) & Hq & <-).
  - intros ? ? ? _. by apply bfsStep_inv.
  - apply bfsInv_init.
  - done.
  - assert (∀ x, x ∈ visited st ↔ x ∈ connectedSet st) as Heq.
    { intros x. rewrite Hvis, Hq. set_solver. }
    split_and!.
    + by apply Heq.
    + intros x y Hx Hm. apply Heq. eauto.
    + intros x Hx. apply Hreach. by apply Heq.
Qed.

End Evaluator.

(** ** The cells of a grid *)

Lemma allCoords_elem (size : Z) (rc : Coords) :
  rc ∈ allCoords size ↔ inGrid size rc.
Proof.
  unfold allCoords, inGrid. rewrite list_elem_of_bind. split.
  - intros (r & Hrc & Hr). apply list_elem_of_bind in Hrc as (c & Hrc & Hc).
    apply list_elem_of_singleton in Hrc as ->.
    apply elem_of_seqZ in Hr, Hc. simpl. lia.
  - intros [Hr Hc]. exists rc.1. split; [| apply elem_of_seqZ; lia].
    apply list_elem_of_bind. exists rc.2. split; [| apply elem_of_seqZ; lia].
    destruct rc. apply list_elem_of_singleton. done.
Qed.

Lemma NoDup_allCoords (size : Z) : NoDup (allCoords size).
Proof.
  unfold allCoords. apply NoDup_bind; [| | apply NoDup_seqZ].
  - intros r1 r2 y _ _ H1 H2.
    apply list_elem_of_bind in H1 as (c1 & H1 & _).
    apply list_elem_of_bind in H2 as (c2 & H2 & _).
    apply list_elem_of_singleton in H1, H2. congruence.
  - intros r _. apply NoDup_bind; [| | apply NoDup_seqZ].
    + intros c1 c2 y _ _ H1 H2.
      apply list_elem_of_singleton in H1, H2. congruence.
    + intros c _. apply NoDup_singleton.
Qed.

Lemma length_bind_const {A B} (f : A → list B) (k : nat) (l : list A) :
  (∀ x, length (f x) = k) → length (l ≫= f) = (length l * k)%nat.
Proof.
  intros Hf. induction l as [|x l IH]; [done |].
  rewrite bind_cons, length_app, IH, Hf. simpl. lia.
Qed.

Lemma length_allCoords (size : Z) :
  length (allCoords size) = (Z.to_nat size * Z.to_nat size)%nat.
Proof.
  unfold allCoords.
  rewrite (length_bind_const _ (Z.to_nat size)), length_seqZ; [done |].
  intros r. rewrite (length_bind_const _ 1%nat), length_seqZ; [lia | done].
Qed.

Lemma card_inGrid (size : Z) (X : gset Coords) :
  (∀ x, x ∈ X → inGrid size x) →
  (card X ≤ Z.to_nat size * Z.to_nat size)%nat.
Proof.
  intros HX. rewrite <- length_allCoords.
  rewrite <- (size_list_to_set (C := gset Coords)) by apply NoDup_allCoords.
  apply subseteq_size. intros x Hx.
  apply elem_of_list_to_set, allCoords_elem. auto.
Qed.

(** ** Totality of the Evaluator on well-formed inputs *)

Lemma bfsLoop_total (grid : Grid) (size : Z) (isWrapping : bool) :
  square size grid →
  ∀ fuel st,
    (∀ x, x ∈ queue st → x ∈ visited st) →
    (∀ x, x ∈ visited st → inGrid size x) →
    (length (queue st) + Z.to_nat size * Z.to_nat size
       ≤ fuel + card (visited st))%nat →
    is_Some (bfsLoop fuel grid size isWrapping st).
Proof.
  intros Hsq. induction fuel as [|fuel IH]; intros st Hqv Hin Hfuel.
  - pose proof (card_inGrid size (visited st) Hin).
    destruct st as [[|x q] v cs]; simpl in *; [eauto | lia].
  - destruct st as [[|[r c] q] v cs]; simpl in Hqv, Hin, Hfuel; [simpl; eauto |].
    assert (inGrid size (r, c)) as Hrc by (apply Hin, Hqv; left).
    cbn -[expandAll]. unfold bfsStep; cbn -[expandAll].
    destruct (proj2 (cell_inGrid size grid r c Hsq) Hrc) as [tile ->].
    cbn -[expandAll].
    destruct (expandAll_total grid size isWrapping r c (tileConnections tile)
                dirKeys (q, v) Hsq Hrc) as [qv Hqv'].
    rewrite Hqv'. cbn -[expandAll].
    destruct (expandAll_spec _ _ _ _ _ _ _ _ _ Hqv')
      as (new & Hq' & Hv' & Hsz & Hnew & _). simpl in *.
    apply IH; simpl.
    + intros x. rewrite Hq', Hv', elem_of_app, elem_of_union,
        elem_of_list_to_set.
      intros [Hx|Hx]; [right; apply Hqv; by right | by left].
    + intros x. rewrite Hv', elem_of_union, elem_of_list_to_set.
      intros [Hx|Hx]; [| auto].
      destruct (Hnew _ Hx) as (key & _ & Hn & _).
      eapply neighbour_inGrid; eauto.
    + rewrite Hq', length_app, Hsz. lia.
Qed.

Lemma checkConnectivity_Some (grid grid' : Grid) (serverCoords : Coords)
    (isWrapping : bool) :
  checkConnectivity grid serverCoords isWrapping = Some grid' ↔
  ∃ connectedSet,
    bfsLoop (length grid * length grid) grid (Z.of_nat (length grid))
      isWrapping (mkBfs [serverCoords] {[serverCoords]} ∅)
      = Some connectedSet ∧
    grid' = markConnected connectedSet grid.
Proof.
  unfold checkConnectivity. rewrite bind_Some. split.
  - intros (cs & H & [= <-]). eauto.
  - intros (cs & H & ->). eauto.
Qed.

Lemma checkConnectivity_total (grid : Grid) (serverCoords : Coords)
    (isWrapping : bool) :
  wellFormed grid serverCoords →
  is_Some (checkConnectivity grid serverCoords isWrapping).
Proof.
  intros [Hsq Hsrv]. unfold checkConnectivity.
  destruct (bfsLoop_total grid (Z.of_nat (length grid)) isWrapping Hsq
              (length grid * length grid)
              (mkBfs [serverCoords] {[serverCoords]} ∅)) as [cs ->];
    [| | | simpl; eauto].
  - cbn [queue visited]. intros x Hx.
    apply list_elem_of_singleton in Hx as ->. set_solver.
  - cbn [visited]. intros x Hx. apply elem_of_singleton in Hx as ->. done.
  - cbn [queue visited length]. rewrite size_singleton, Nat2Z.id. lia.
Qed.

(** ** The Evaluator reads masks only *)

Lemma expand_ext (g1 g2 : Grid) (size : Z) (isWrapping : bool) (r c conn : Z)
    (qv : list Coords * gset Coords) (key : DirKey) :
  sameMasks g1 g2 →
  expand g1 size isWrapping r c conn qv key
  = expand g2 size isWrapping r c conn qv key.
Proof.
  intros Hsame. unfold expand.
  case_match; [done |]. case_match; [| done]. case_match.
  case_bool_decide; [done |].
  specialize (Hsame z z0).
  destruct (cell g1 z z0), (cell g2 z z0); simpl in *; try done.
  by injection Hsame as ->.
Qed.

Lemma expandAll_ext (g1 g2 : Grid) (size : Z) (isWrapping : bool)
    (r c conn : Z) (keys : list DirKey) (qv : list Coords * gset Coords) :
  sameMasks g1 g2 →
  expandAll g1 size isWrapping r c conn qv keys
  = expandAll g2 size isWrapping r c conn qv keys.
Proof.
  intros Hsame. revert qv. induction keys as [|key keys IH]; intros qv; [done |].
  simpl. rewrite (expand_ext g1 g2) by done.
  destruct (expand g2 size isWrapping r c conn qv key); simpl; [apply IH | done].
Qed.

Lemma bfsStep_ext (g1 g2 : Grid) (size : Z) (isWrapping : bool)
    (st : BfsState) :
  sameMasks g1 g2 →
  bfsStep g1 size isWrapping st = bfsStep g2 size isWrapping st.
Proof.
  intros Hsame. unfold bfsStep. destruct (queue st) as [|[r c] q]; [done |].
  pose proof (Hsame r c) as Hrc.
  destruct (cell g1 r c), (cell g2 r c); cbn -[expandAll] in *; try done.
  injection Hrc as ->. by rewrite (expandAll_ext g1 g2).
Qed.

Lemma bfsLoop_ext (g1 g2 : Grid) (size : Z) (isWrapping : bool) (fuel : nat)
    (st : BfsState) :
  sameMasks g1 g2 →
  bfsLoop fuel g1 size isWrapping st = bfsLoop fuel g2 size isWrapping st.
Proof.
  intros Hsame. revert st. induction fuel as [|fuel IH]; intros st; [done |].
  simpl. destruct (queue st); [done |].
  rewrite (bfsStep_ext g1 g2) by done.
  destruct (bfsStep g2 size isWrapping st); simpl; [apply IH | done].
Qed.

Lemma sameMasks_markConnected (cs : gset Coords) (grid : Grid) :
  sameMasks (markConnected cs grid) grid.
Proof.
  intros r c. rewrite cell_markConnected. by destruct (cell grid r c).
Qed.

Lemma checkConnectivity_again (grid grid' : Grid) (serverCoords : Coords)
    (isWrapping : bool) :
  checkConnectivity grid serverCoords isWrapping = Some grid' →
  checkConnectivity grid' serverCoords isWrapping = Some grid'.
Proof.
  intros H. apply checkConnectivity_Some in H as (cs & Hcs & ->).
  apply checkConnectivity_Some. exists cs.
  rewrite length_markConnected, markConnected_idem. split; [| done].
  rewrite <- Hcs. apply bfsLoop_ext, sameMasks_markConnected.
Qed.

(** ** Counting connected cells *)

Lemma cell_elem_concat {A} (m : list (list A)) (r c : Z) (x : A) :
  cell m r c = Some x → x ∈ concat m.
Proof.
  intros H. apply cell_Some in H as (row & Hrow & Hx).
  apply readAt_Some in Hrow as [_ Hrow], Hx as [_ Hx].
  apply list_elem_of_lookup_2 in Hrow, Hx.
  apply list_elem_of_In, in_concat. exists row.
  split; by apply list_elem_of_In.
Qed.

Lemma countConnected_pos (grid : Grid) (rc : Coords) :
  connectedAt grid rc = true → 1 ≤ countConnected grid.
Proof.
  unfold connectedAt, countConnected. intros H.
  destruct (cell grid rc.1 rc.2) as [t|] eqn:Ht; [| done]. simpl in H.
  apply cell_elem_concat in Ht.
  assert (In t (List.filter connected (concat grid))) as Hin.
  { apply filter_In. split; [by apply list_elem_of_In | done]. }
  destruct (List.filter connected (concat grid)); [done | simpl; lia].
Qed.

(** ** Claims about the Evaluator *)

(** C7 (Evaluator idempotence): on every well-formed input the Evaluator
    returns a grid, and running it again on that grid, with the same server
    coordinate and wrap flag, returns exactly the same grid. *)
Theorem checkConnectivity_idempotent (grid : Grid) (serverCoords : Coords)
    (isWrapping : bool) :
  wellFormed grid serverCoords →
  ∃ grid',
    checkConnectivity grid serverCoords isWrapping = Some grid' ∧
    checkConnectivity grid' serverCoords isWrapping = Some grid'.
Proof.
  intros Hwf.
  destruct (checkConnectivity_total grid serverCoords isWrapping Hwf)
    as [grid' H].
  exists grid'. split; [done |]. by apply (checkConnectivity_again grid).
Qed.

Lemma checkConnectivity_idempotent_witness :
  ∃ grid',
    checkConnectivity sampleGrid (0, 0) false = Some grid' ∧
    checkConnectivity grid' (0, 0) false = Some grid'.
Proof.
  apply (checkConnectivity_idempotent sampleGrid (0, 0) false).
  split; [split; [reflexivity | repeat constructor] |].
  unfold inGrid; simpl; lia.
Defined.

(** C9 (the server is always connected): on every well-formed input the
    grid the Evaluator returns has the server cell marked connected, so at
    least one cell is connected. *)
Theorem server_always_connected (grid : Grid) (serverCoords : Coords)
    (isWrapping : bool) :
  wellFormed grid serverCoords →
  ∃ grid',
    checkConnectivity grid serverCoords isWrapping = Some grid' ∧
    connectedAt grid' serverCoords = true ∧
    1 ≤ countConnected grid'.
Proof.
  intros Hwf.
  destruct (checkConnectivity_total grid serverCoords isWrapping Hwf)
    as [grid' H].
  exists grid'. split; [done |].
  assert (connectedAt grid' serverCoords = true) as Hsrv.
  { apply checkConnectivity_Some in H as (cs & Hcs & ->).
    apply bfsLoop_result in Hcs as (Hin & _).
    destruct Hwf as [Hsq Hsc]. destruct serverCoords as [r c].
    rewrite connectedAt_markConnected
      by (apply (cell_inGrid _ _ r c Hsq), Hsc).
    by apply bool_decide_eq_true. }
  split; [done |]. by apply (countConnected_pos _ serverCoords).
Qed.

Lemma server_always_connected_witness :
  ∃ grid',
    checkConnectivity sampleGrid (2, 1) true = Some grid' ∧
    connectedAt grid' (2, 1) = true ∧
    1 ≤ countConnected grid'.
Proof.
  apply (server_always_connected sampleGrid (2, 1) true).
  split; [split; [reflexivity | repeat constructor] |].
  unfold inGrid; simpl; lia.
Defined.

(** C10 (frame property of the Evaluator): on every well-formed input the
    grid the Evaluator returns has the shape of the input, and each of its
    tiles has the [type], [rotation] and [isServer] of the input tile at the
    same place; only [connected] may differ. *)
Theorem checkConnectivity_frame (grid : Grid) (serverCoords : Coords)
    (isWrapping : bool) :
  wellFormed grid serverCoords →
  ∃ grid',
    checkConnectivity grid serverCoords isWrapping = Some grid' ∧
    sameButConnected grid grid'.
Proof.
  intros Hwf.
  destruct (checkConnectivity_total grid serverCoords isWrapping Hwf)
    as [grid' H].
  exists grid'. split; [done |].
  apply checkConnectivity_Some in H as (cs & _ & ->).
  apply markConnected_same.
Qed.

Lemma checkConnectivity_frame_witness :
  ∃ grid',
    checkConnectivity sampleGrid (0, 0) true = Some grid' ∧
    sameButConnected sampleGrid grid'.
Proof.
  apply (checkConnectivity_frame sampleGrid (0, 0) true).
  split; [split; [reflexivity | repeat constructor] |].
  unfold inGrid; simpl; lia.
Defined.

(** ** The no-leak re-check *)

Lemma allM_true {A} (check : A → option bool) (l : list A) :
  allM check l = Some true ↔ ∀ x, x ∈ l → check x = Some true.
Proof.
  induction l as [|x l IH]; simpl.
  - split; [intros _ y Hy; by apply elem_of_nil in Hy | done].
  - split.
    + intros H. apply bind_Some in H as (ok & Hok & H).
      destruct ok; [| discriminate].
      intros y Hy. apply elem_of_cons in Hy as [->|Hy]; [done |].
      by apply IH.
    + intros H. rewrite (H x) by left. simpl. apply IH.
      intros y Hy. apply H. by right.
Qed.

Lemma offGrid_inBounds (size nr nc : Z) :
  (nr <? 0) || (nr >=? size) || (nc <? 0) || (nc >=? size)
  = negb (inBounds size nr nc).
Proof.
  unfold inBounds. rewrite !Z.geb_leb.
  destruct (Z.ltb_spec nr 0), (Z.leb_spec size nr), (Z.ltb_spec nc 0),
    (Z.leb_spec size nc), (Z.leb_spec 0 nr), (Z.ltb_spec nr size),
    (Z.leb_spec 0 nc), (Z.ltb_spec nc size); simpl; try reflexivity; lia.
Qed.

Lemma connectedAt_true (grid : Grid) (rc : Coords) :
  connectedAt grid rc = true ↔
  ∃ t, cell grid rc.1 rc.2 = Some t ∧ connected t = true.
Proof.
  unfold connectedAt. destruct (cell grid rc.1 rc.2) as [t|]; simpl.
  - split; [eauto | intros (? & [= <-] & ?); done].
  - split; [discriminate | intros (? & ? & _); discriminate].
Qed.

Lemma leakFree_true (grid : Grid) (size : Z) (isWrapping : bool) (r c conn : Z)
    (key : DirKey) :
  leakFree grid size isWrapping r c conn key = Some true ↔
  (hasBit conn key →
   ∃ y, neighbour size isWrapping r c (DIRECTIONS key) = Some y ∧
        connectedAt grid y = true ∧
        hasBit (maskAt grid y) (from (DIRECTIONS key))).
Proof.
  unfold leakFree, hasBit, neighbour.
  destruct (Z.eqb_spec (Z.land conn (mask (DIRECTIONS key))) 0) as [Hz|Hnz].
  { split; [intros _ ?; done | done]. }
  rewrite offGrid_inBounds.
  destruct isWrapping; simpl.
  - set (nr := Z.rem (r + dr (DIRECTIONS key) + size) size).
    set (nc := Z.rem (c + dc (DIRECTIONS key) + size) size).
    unfold connectedAt, maskAt. simpl.
    destruct (cell grid nr nc) as [nb|] eqn:Hnb; simpl.
    + destruct (connected nb) eqn:Hc; simpl.
      * destruct (Z.eqb_spec (Z.land (tileConnections nb)
                   (mask (DIRECTIONS (from (DIRECTIONS key))))) 0) as [Hb|Hb].
        -- split; [discriminate |]. intros H.
           destruct (H Hnz) as (y & [= <-] & _ & Hy). simpl in Hy.
           rewrite Hnb in Hy. done.
        -- split; [| done]. intros _ _. exists (nr, nc). simpl.
           rewrite Hnb. simpl. done.
      * split; [discriminate |]. intros H.
        destruct (H Hnz) as (y & [= <-] & Hy & _). simpl in Hy.
        rewrite Hnb in Hy. simpl in Hy. congruence.
    + split; [discriminate |]. intros H.
      destruct (H Hnz) as (y & [= <-] & Hy & _). simpl in Hy.
      rewrite Hnb in Hy. done.
  - set (nr := r + dr (DIRECTIONS key)). set (nc := c + dc (DIRECTIONS key)).
    destruct (inBounds size nr nc); simpl.
    + unfold connectedAt, maskAt. simpl.
      destruct (cell grid nr nc) as [nb|] eqn:Hnb; simpl.
      * destruct (connected nb) eqn:Hc; simpl.
        -- destruct (Z.eqb_spec (Z.land (tileConnections nb)
                     (mask (DIRECTIONS (from (DIRECTIONS key))))) 0) as [Hb|Hb].
           ++ split; [discriminate |]. intros H.
              destruct (H Hnz) as (y & [= <-] & _ & Hy). simpl in Hy.
              rewrite Hnb in Hy. done.
           ++ split; [| done]. intros _ _. exists (nr, nc). simpl.
              rewrite Hnb. simpl. done.
        -- split; [discriminate |]. intros H.
           destruct (H Hnz) as (y & [= <-] & Hy & _). simpl in Hy.
           rewrite Hnb in Hy. simpl in Hy. congruence.
      * split; [discriminate |]. intros H.
        destruct (H Hnz) as (y & [= <-] & Hy & _). simpl in Hy.
        rewrite Hnb in Hy. done.
    + split; [discriminate |]. intros H.
      destruct (H Hnz) as (y & Hy & _). discriminate.
Qed.

Lemma elem_of_dirKeys (key : DirKey) : key ∈ dirKeys.
Proof. unfold dirKeys. destruct key; set_solver. Qed.

(** The re-check computes [leakFreeGrid]. *)
Lemma noLeaks_true (grid : Grid) (isWrapping : bool) :
  square (Z.of_nat (length grid)) grid →
  noLeaks grid isWrapping = Some true ↔ leakFreeGrid grid isWrapping.
Proof.
  intros Hsq. unfold noLeaks, leakFreeGrid. rewrite allM_true. split.
  - intros H x key Hx Hbit.
    apply connectedAt_true in Hx as (t & Ht & Hc).
    assert (inGrid (Z.of_nat (length grid)) x) as Hin.
    { destruct x. apply (cell_inGrid _ grid _ _ Hsq). eauto. }
    apply allCoords_elem, H in Hin. rewrite Ht in Hin.
    cbn [mbind option_bind] in Hin. rewrite Hc in Hin. cbn [negb] in Hin.
    pose proof (proj1 (allM_true _ _) Hin key (elem_of_dirKeys key)) as Hk.
    apply leakFree_true in Hk; [done |].
    unfold maskAt in Hbit. by rewrite Ht in Hbit.
  - intros H x Hx. apply allCoords_elem in Hx.
    destruct x as [r c].
    destruct (proj2 (cell_inGrid _ grid r c Hsq) Hx) as [t Ht].
    cbn [fst snd]. rewrite Ht. cbn [mbind option_bind].
    destruct (connected t) eqn:Hc; [| done]. cbn [negb].
    apply allM_true. intros key _. apply leakFree_true. intros Hbit.
    apply (H (r, c) key).
    + apply connectedAt_true. eauto.
    + unfold maskAt. simpl. by rewrite Ht.
Qed.


Lemma square_markConnected (cs : gset Coords) (size : Z) (grid : Grid) :
  square size grid → square size (markConnected cs grid).
Proof.
  intros [Hlen Hrows]. split; [by rewrite length_markConnected |].
  rewrite Forall_forall in *. intros row Hrow.
  apply list_elem_of_lookup in Hrow as [i Hi]. unfold markConnected in Hi.
  rewrite list_lookup_imap in Hi.
  destruct (grid !! i) as [row0|] eqn:Hrow0; [| done].
  injection Hi as <-. rewrite length_imap.
  apply Hrows. by eapply list_elem_of_lookup_2.
Qed.

Lemma mutual_markConnected (cs : gset Coords) (grid : Grid) (size : Z)
    (isWrapping : bool) (x y : Coords) :
  mutual (markConnected cs grid) size isWrapping x y ↔
  mutual grid size isWrapping x y.
Proof.
  unfold mutual. setoid_rewrite maskAt_markConnected.
  setoid_rewrite cell_markConnected. setoid_rewrite fmap_is_Some. done.
Qed.

Lemma connectedAt_markConnected_true (cs : gset Coords) (grid : Grid)
    (rc : Coords) :
  connectedAt (markConnected cs grid) rc = true ↔
  rc ∈ cs ∧ is_Some (cell grid rc.1 rc.2).
Proof.
  unfold connectedAt. rewrite cell_markConnected.
  destruct (cell grid rc.1 rc.2) as [t|]; simpl.
  - rewrite bool_decide_eq_true. destruct rc. split; [eauto | tauto].
  - split; [done | intros [_ [? ?]]; done].
Qed.

Lemma checkConnectivity_closed (grid grid' : Grid) (serverCoords : Coords)
    (isWrapping : bool) :
  checkConnectivity grid serverCoords isWrapping = Some grid' →
  closedUnderMutual grid' isWrapping.
Proof.
  intros H. apply checkConnectivity_Some in H as (cs & Hcs & ->).
  apply bfsLoop_result in Hcs as (_ & Hcl & _).
  intros x y Hx Hm. rewrite length_markConnected in Hm.
  apply mutual_markConnected in Hm.
  apply connectedAt_markConnected_true in Hx as [Hx _].
  apply connectedAt_markConnected_true. split; [by eapply Hcl |].
  by destruct Hm as (_ & _ & _ & ? & _).
Qed.

(** C3, as amended: on every well-formed input the grid the Evaluator
    returns never has a connected cell that exposes a bit toward an existing
    neighbour which exposes the opposite bit and is not connected.  The
    no-leak re-check itself passes on that grid exactly when every bit
    exposed by a connected cell points to an existing neighbour that exposes
    the opposite bit: a bit pointing off-grid in bounded mode, or toward a
    cell that does not reciprocate, makes it fail. *)
Theorem evaluator_output_recheck (grid : Grid) (serverCoords : Coords)
    (isWrapping : bool) :
  wellFormed grid serverCoords →
  ∃ grid',
    checkConnectivity grid serverCoords isWrapping = Some grid' ∧
    closedUnderMutual grid' isWrapping ∧
    (noLeaks grid' isWrapping = Some true ↔ stubsMatched grid' isWrapping).
Proof.
  intros Hwf.
  destruct (checkConnectivity_total grid serverCoords isWrapping Hwf)
    as [grid' H].
  pose proof (checkConnectivity_closed _ _ _ _ H) as Hcl.
  exists grid'. split; [done |]. split; [done |].
  assert (square (Z.of_nat (length grid')) grid') as Hsq.
  { apply checkConnectivity_Some in H as (cs & _ & ->).
    rewrite length_markConnected. apply square_markConnected, Hwf. }
  rewrite noLeaks_true by done. split.
  - intros Hleak x key Hx Hbit.
    destruct (Hleak x key Hx Hbit) as (y & Hy & _ & Hback). eauto.
  - intros Hstubs x key Hx Hbit.
    destruct (Hstubs x key Hx Hbit) as (y & Hy & Hback).
    exists y. split; [done |]. split; [| done].
    apply (Hcl x y Hx). exists key. split; [done |]. split; [done |].
    split; [| done].
    apply (cell_inGrid _ grid' _ _ Hsq).
    apply connectedAt_true in Hx as (t & Ht & _).
    destruct y. eapply neighbour_inGrid; [| done].
    destruct x. apply (cell_inGrid _ grid' _ _ Hsq). eauto.
Qed.

Lemma evaluator_output_recheck_witness :
  ∃ grid',
    checkConnectivity sampleGrid (0, 0) false = Some grid' ∧
    closedUnderMutual grid' false ∧
    (noLeaks grid' false = Some true ↔ stubsMatched grid' false).
Proof.
  apply (evaluator_output_recheck sampleGrid (0, 0) false).
  split; [split; [reflexivity | repeat constructor] |].
  unfold inGrid; simpl; lia.
Defined.

(** C3, as stated, fails: on the board [leakyGrid] the server's stub points
    east to a tile that does not point back, and the re-check rejects the
    grid the Evaluator returns. *)
Lemma evaluator_output_can_leak :
  wellFormed leakyGrid (0, 0) ∧
  ∃ grid',
    checkConnectivity leakyGrid (0, 0) false = Some grid' ∧
    noLeaks grid' false = Some false.
Proof.
  split.
  - split; [split; [reflexivity | repeat constructor] |].
    unfold inGrid; simpl; lia.
  - eexists. split; [vm_compute; reflexivity | vm_compute; reflexivity].
Qed.

(** ** Rotation requests *)

(** C8 (rotation requests that are no-ops): on a square grid of side
    [gridSize], a rotation request at a coordinate outside the grid, or at a
    tile flagged as the server, returns normally and leaves the whole state
    (every tile's rotation and connected flag, and the score) as it was. *)
Theorem rotateTile_noop (s : App.State) (r c : Z) :
  square (App.gridSize s) (App.grid s) →
  ¬ inGrid (App.gridSize s) (r, c) ∨
    from_option isServer false (cell (App.grid s) r c) = true →
  App.rotateTile s r c = Some s.
Proof.
  intros Hsq Hcase. unfold App.rotateTile.
  destruct (cell (App.grid s) r c) as [t|] eqn:Ht; [| done].
  destruct Hcase as [Hout|Hsrv].
  - exfalso. apply Hout. apply (cell_inGrid _ _ r c Hsq). eauto.
  - simpl in Hsrv. rewrite Hsrv. by rewrite orb_true_r.
Qed.

Lemma rotateTile_noop_witness :
  App.rotateTile sampleState 1 (-1) = Some sampleState ∧
  App.rotateTile sampleState 3 0 = Some sampleState ∧
  App.rotateTile sampleState 0 0 = Some sampleState.
Proof.
  assert (square (App.gridSize sampleState) (App.grid sampleState)) as Hsq
    by (split; [reflexivity | repeat constructor]).
  split_and!; apply (rotateTile_noop sampleState); try exact Hsq.
  - left. unfold inGrid; simpl; lia.
  - left. unfold inGrid; simpl; lia.
  - right. reflexivity.
Defined.

(** ** Topology, continued *)

Lemma from_from (key : DirKey) :
  from (DIRECTIONS (from (DIRECTIONS key))) = key.
Proof. by destruct key. Qed.

Lemma rem_wrap (size a : Z) :
  0 < size → 0 ≤ a + size → Z.rem (a + size) size = a `mod` size.
Proof.
  intros Hs Ha. rewrite Z.rem_mod_nonneg by lia.
  rewrite <- (Z.mul_1_l size) at 1. apply Z_mod_plus_full.
Qed.

(** A step that stays inside the grid is a neighbour in both modes. *)
Lemma neighbour_inside (size : Z) (isWrapping : bool) (r c : Z) (key : DirKey) :
  0 < size →
  inGrid size (r + dr (DIRECTIONS key), c + dc (DIRECTIONS key)) →
  neighbour size isWrapping r c (DIRECTIONS key)
  = Some (r + dr (DIRECTIONS key), c + dc (DIRECTIONS key)).
Proof.
  unfold inGrid, neighbour, inBounds; simpl. intros Hs [Hr Hc].
  destruct isWrapping; simpl.
  - rewrite !rem_wrap, !Z.mod_small by lia. done.
  - case_match eqn:Hb; [done |]. lia.
Qed.

Lemma wrap_back (size a d d' : Z) :
  0 ≤ a < size → -1 ≤ d ≤ 1 → d' = - d →
  Z.rem (Z.rem (a + d + size) size + d' + size) size = a.
Proof.
  intros Ha Hd ->. assert (0 < size) as Hs by lia.
  rewrite (rem_wrap size (a + d)) by lia.
  pose proof (Z.mod_pos_bound (a + d) size Hs).
  rewrite rem_wrap by lia.
  rewrite Zplus_mod_idemp_l. replace (a + d + - d) with a by lia.
  apply Z.mod_small. lia.
Qed.

(** The neighbour relation is symmetric. *)
Lemma neighbour_sym (size : Z) (isWrapping : bool) (x y : Coords)
    (key : DirKey) :
  inGrid size x →
  neighbour size isWrapping x.1 x.2 (DIRECTIONS key) = Some y →
  neighbour size isWrapping y.1 y.2 (DIRECTIONS (from (DIRECTIONS key)))
  = Some x.
Proof.
  destruct x as [r c]. unfold inGrid, neighbour, inBounds; simpl.
  intros [Hr Hc] H. destruct isWrapping; simpl in *.
  - injection H as <-.
    destruct key; simpl; rewrite !wrap_back by lia; done.
  - case_match eqn:Hb; [| discriminate]. injection H as <-. simpl.
    case_match eqn:Hb'; [f_equal; f_equal; destruct key; simpl; lia |].
    destruct key; simpl in *; lia.
Qed.

(** A set of cells that is closed under neighbours and holds one cell of
    the grid holds them all: the grid is connected in both modes. *)
Lemma grid_connected (size : Z) (isWrapping : bool) (P : Coords → Prop)
    (start : Coords) :
  inGrid size start → P start →
  (∀ x key y, inGrid size x → P x →
     neighbour size isWrapping x.1 x.2 (DIRECTIONS key) = Some y → P y) →
  ∀ x, inGrid size x → P x.
Proof.
  destruct start as [r0 c0]. intros Hstart H0 Hcl.
  assert (0 < size) as Hs by (unfold inGrid in Hstart; simpl in *; lia).
  assert (∀ n : nat,
    (r0 + Z.of_nat n < size → P (r0 + Z.of_nat n, c0)) ∧
    (0 ≤ r0 - Z.of_nat n → P (r0 - Z.of_nat n, c0))) as Hcol.
  { unfold inGrid in *; simpl in *. induction n as [|n [IHd IHu]].
    - rewrite Z.add_0_r, Z.sub_0_r. done.
    - split; intros Hb.
      + apply (Hcl (r0 + Z.of_nat n, c0) DirS); [simpl; lia | apply IHd; lia |].
        simpl. rewrite (neighbour_inside size isWrapping _ _ DirS Hs)
          by (unfold inGrid; simpl; lia).
        simpl. f_equal. f_equal; lia.
      + apply (Hcl (r0 - Z.of_nat n, c0) DirN); [simpl; lia | apply IHu; lia |].
        simpl. rewrite (neighbour_inside size isWrapping _ _ DirN Hs)
          by (unfold inGrid; simpl; lia).
        simpl. f_equal. f_equal; lia. }
  assert (∀ r, 0 ≤ r < size → P (r, c0)) as Hcol'.
  { intros r Hr. destruct (Z.le_gt_cases r0 r).
    - replace r with (r0 + Z.of_nat (Z.to_nat (r - r0))) by lia.
      apply Hcol. lia.
    - replace r with (r0 - Z.of_nat (Z.to_nat (r0 - r))) by lia.
      apply Hcol. lia. }
  intros [r c] [Hr Hc]; simpl in *.
  assert (∀ n : nat,
    (c0 + Z.of_nat n < size → P (r, c0 + Z.of_nat n)) ∧
    (0 ≤ c0 - Z.of_nat n → P (r, c0 - Z.of_nat n))) as Hrow.
  { unfold inGrid in *; simpl in *. induction n as [|n [IHr IHl]].
    - rewrite Z.add_0_r, Z.sub_0_r. split; intros _; by apply Hcol'.
    - split; intros Hb.
      + apply (Hcl (r, c0 + Z.of_nat n) DirE); [simpl; lia | apply IHr; lia |].
        simpl. rewrite (neighbour_inside size isWrapping _ _ DirE Hs)
          by (unfold inGrid; simpl; lia).
        simpl. f_equal. f_equal; lia.
      + apply (Hcl (r, c0 - Z.of_nat n) DirW); [simpl; lia | apply IHl; lia |].
        simpl. rewrite (neighbour_inside size isWrapping _ _ DirW Hs)
          by (unfold inGrid; simpl; lia).
        simpl. f_equal. f_equal; lia. }
  destruct (Z.le_gt_cases c0 c).
  - replace c with (c0 + Z.of_nat (Z.to_nat (c - c0))) by lia.
    apply Hrow. lia.
  - replace c with (c0 - Z.of_nat (Z.to_nat (c0 - c))) by lia.
    apply Hrow. lia.
Qed.

(** ** Masks and matrices *)

Lemma hasBit_lor (m bits : Z) (key : DirKey) :
  hasBit (Z.lor m bits) key ↔ hasBit m key ∨ hasBit bits key.
Proof.
  unfold hasBit. rewrite Z.land_lor_distr_l, Z.lor_eq_0_iff.
  destruct (Z.eq_dec (Z.land m (mask (DIRECTIONS key))) 0),
           (Z.eq_dec (Z.land bits (mask (DIRECTIONS key))) 0); tauto.
Qed.

Lemma hasBit_mask (k1 k2 : DirKey) :
  hasBit (mask (DIRECTIONS k1)) k2 ↔ k1 = k2.
Proof. unfold hasBit. destruct k1, k2; simpl; split; done. Qed.

Lemma hasBit_zero (key : DirKey) : ¬ hasBit 0 key.
Proof. unfold hasBit. intros H. apply H. by destruct key. Qed.

Lemma lor_mask_range (m : Z) (key : DirKey) :
  0 ≤ m < 16 → 0 ≤ Z.lor m (mask (DIRECTIONS key)) < 16.
Proof.
  intros Hm.
  assert (m = 0 ∨ m = 1 ∨ m = 2 ∨ m = 3 ∨ m = 4 ∨ m = 5 ∨ m = 6 ∨ m = 7 ∨
          m = 8 ∨ m = 9 ∨ m = 10 ∨ m = 11 ∨ m = 12 ∨ m = 13 ∨ m = 14 ∨
          m = 15) as Hcases by lia.
  destruct_or!; subst m; destruct key; vm_compute; split; done.
Qed.

Lemma cell_alter {A} (f : A → A) (m : list (list A)) (r c r' c' : Z) :
  0 ≤ r' → 0 ≤ c' →
  cell (alter (alter f (Z.to_nat c')) (Z.to_nat r') m) r c
  = if decide ((r, c) = (r', c')) then f <$> cell m r c else cell m r c.
Proof.
  intros Hr' Hc'. unfold cell, readAt.
  destruct (Z.ltb_spec r 0).
  { case_decide as Heq; [injection Heq; lia | done]. }
  rewrite list_lookup_alter.
  destruct (decide (Z.to_nat r' = Z.to_nat r)) as [Her|Her].
  - assert (r' = r) as -> by lia.
    destruct (m !! Z.to_nat r) as [row|]; simpl; [| by case_decide].
    destruct (Z.ltb_spec c 0).
    { case_decide as Heq; [injection Heq; lia | done]. }
    rewrite list_lookup_alter.
    destruct (decide (Z.to_nat c' = Z.to_nat c)) as [Hec|Hec].
    + assert (c' = c) as -> by lia. by rewrite decide_True.
    + rewrite decide_False; [done |]. intros [= ->]. done.
  - rewrite decide_False; [done |]. intros [= -> _]. done.
Qed.

Lemma square_alter {A} (f : A → A) (size : Z) (m : list (list A)) (i j : nat) :
  square size m → square size (alter (alter f j) i m).
Proof.
  intros [Hlen Hrows]. split; [by rewrite length_alter |].
  rewrite Forall_forall in *. intros row Hrow.
  apply list_elem_of_lookup in Hrow as [k Hk].
  rewrite list_lookup_alter in Hk. case_decide; subst.
  - destruct (m !! k) as [row0|] eqn:Hrow0; [| done].
    injection Hk as <-. rewrite length_alter. apply Hrows.
    by eapply list_elem_of_lookup_2.
  - apply Hrows. by eapply list_elem_of_lookup_2.
Qed.

Lemma square_orAt (size : Z) (conn : list (list Z)) (r c bits : Z) :
  square size conn → square size (orAt conn r c bits).
Proof. intros H. unfold orAt. case_match; [done | by apply square_alter]. Qed.

Lemma square_markAt (size : Z) (vis : list (list bool)) (r c : Z) :
  square size vis → square size (markAt vis r c).
Proof. intros H. unfold markAt. case_match; [done | by apply square_alter]. Qed.

Lemma connAt_orAt_ne (conn : list (list Z)) (x y : Coords) (bits : Z) :
  y ≠ x → connAt (orAt conn x.1 x.2 bits) y = connAt conn y.
Proof.
  intros Hne. unfold connAt, connectionAt, orAt. case_match eqn:Hneg; [done |].
  rewrite cell_alter by lia. destruct x, y. by rewrite decide_False.
Qed.

Lemma connAt_orAt_eq (conn : list (list Z)) (x : Coords) (bits : Z) :
  is_Some (cell conn x.1 x.2) →
  connAt (orAt conn x.1 x.2 bits) x = Z.lor (connAt conn x) bits.
Proof.
  intros [m Hm]. unfold connAt, connectionAt, orAt.
  assert (is_Some (conn !!! x.1)) as Hr.
  { apply cell_Some in Hm as (row & -> & _). eauto. }
  assert (∃ row : list Z, is_Some (row !!! x.2)) as [row Hc].
  { apply cell_Some in Hm as (row & _ & Hrow). eauto. }
  apply readAt_is_Some in Hr, Hc.
  case_match eqn:Hneg; [lia |].
  rewrite cell_alter by lia. destruct x. rewrite decide_True by done.
  simpl in *. by rewrite Hm.
Qed.

Lemma seenAt_markAt (vis : list (list bool)) (x y : Coords) :
  is_Some (cell vis x.1 x.2) →
  seenAt (markAt vis x.1 x.2) y = if decide (y = x) then true else seenAt vis y.
Proof.
  intros [b Hb]. unfold seenAt, visitedAt, markAt.
  assert (is_Some (vis !!! x.1)) as Hr.
  { apply cell_Some in Hb as (row & -> & _). eauto. }
  assert (∃ row : list bool, is_Some (row !!! x.2)) as [row Hc].
  { apply cell_Some in Hb as (row & _ & Hrow). eauto. }
  apply readAt_is_Some in Hr, Hc.
  case_match eqn:Hneg; [lia |].
  rewrite cell_alter by lia. destruct x as [r c], y as [r' c']. simpl in *.
  destruct (decide ((r', c') = (r, c))) as [Heq|Hne].
  - injection Heq as -> ->. by rewrite Hb.
  - done.
Qed.

Lemma square_matrix {A} (size : Z) (x : A) :
  0 ≤ size → square size (matrix size x).
Proof.
  intros Hs. unfold matrix. split; [rewrite length_replicate; lia |].
  apply Forall_forall. intros row Hrow.
  apply elem_of_replicate in Hrow as [-> _]. rewrite length_replicate. lia.
Qed.

Lemma cell_matrix {A} (size : Z) (x : A) (r c : Z) :
  inGrid size (r, c) → cell (matrix size x) r c = Some x.
Proof.
  intros [Hr Hc]; simpl in *. apply cell_Some. exists (replicate (Z.to_nat size) x).
  split; apply readAt_Some; (split; [lia |]); apply lookup_replicate_2; lia.
Qed.

(** ** Recording an edge keeps the mask invariant *)

Section Link.

Variables (size : Z) (isWrapping : bool).

Lemma hasBit_link (conn : list (list Z)) (x y z : Coords) (key k : DirKey) :
  square size conn → inGrid size x → inGrid size y →
  hasBit (connAt (link conn x y key) z) k ↔
  hasBit (connAt conn z) k ∨ (z = x ∧ k = key) ∨
  (z = y ∧ k = from (DIRECTIONS key)).
Proof.
  intros Hsq Hx Hy. unfold link.
  pose proof (square_orAt size conn x.1 x.2 (mask (DIRECTIONS key)) Hsq) as Hsq'.
  assert (is_Some (cell conn x.1 x.2)) as Hcx
    by (destruct x; by apply (cell_inGrid size)).
  assert (is_Some (cell (orAt conn x.1 x.2 (mask (DIRECTIONS key))) y.1 y.2))
    as Hcy by (destruct y; by apply (cell_inGrid size)).
  destruct (decide (z = y)) as [->|Hzy].
  - rewrite connAt_orAt_eq by done. rewrite hasBit_lor, hasBit_mask.
    destruct (decide (y = x)) as [->|Hyx].
    + rewrite connAt_orAt_eq by done. rewrite hasBit_lor, hasBit_mask.
      naive_solver.
    + rewrite connAt_orAt_ne by done. naive_solver.
  - rewrite connAt_orAt_ne by done.
    destruct (decide (z = x)) as [->|Hzx].
    + rewrite connAt_orAt_eq by done. rewrite hasBit_lor, hasBit_mask.
      naive_solver.
    + rewrite connAt_orAt_ne by done. naive_solver.
Qed.

Lemma range_link (conn : list (list Z)) (x y : Coords) (key : DirKey) :
  square size conn → maskRange size conn → inGrid size x → inGrid size y →
  maskRange size (link conn x y key).
Proof.
  intros Hsq Hrange Hx Hy z Hz. unfold link.
  pose proof (square_orAt size conn x.1 x.2 (mask (DIRECTIONS key)) Hsq) as Hsq'.
  assert (is_Some (cell conn x.1 x.2)) as Hcx
    by (destruct x; by apply (cell_inGrid size)).
  assert (is_Some (cell (orAt conn x.1 x.2 (mask (DIRECTIONS key))) y.1 y.2))
    as Hcy by (destruct y; by apply (cell_inGrid size)).
  assert (∀ w, inGrid size w →
    0 ≤ connAt (orAt conn x.1 x.2 (mask (DIRECTIONS key))) w < 16) as Hmid.
  { intros w Hw. destruct (decide (w = x)) as [->|Hwx].
    - rewrite connAt_orAt_eq by done. by apply lor_mask_range, Hrange.
    - rewrite connAt_orAt_ne by done. by apply Hrange. }
  destruct (decide (z = y)) as [->|Hzy].
  - rewrite connAt_orAt_eq by done. by apply lor_mask_range, Hmid.
  - rewrite connAt_orAt_ne by done. by apply Hmid.
Qed.

Lemma connInv_link (conn : list (list Z)) (x y : Coords) (key : DirKey) :
  connInv size isWrapping conn → inGrid size x →
  neighbour size isWrapping x.1 x.2 (DIRECTIONS key) = Some y →
  connInv size isWrapping (link conn x y key).
Proof.
  intros (Hsq & Hrec & Hrange) Hx Hn.
  assert (inGrid size y) as Hy.
  { destruct x. eapply neighbour_inGrid; eauto. }
  split_and!.
  - unfold link. by do 2 apply square_orAt.
  - intros z k Hz Hbit. apply hasBit_link in Hbit; [| done..].
    destruct Hbit as [Hbit|[[-> ->]|[-> ->]]].
    + destruct (Hrec z k Hz Hbit) as (w & Hw & Hback).
      exists w. split; [done |]. apply hasBit_link; auto.
    + exists y. split; [done |]. apply hasBit_link; auto.
    + exists x. split; [by apply neighbour_sym |].
      apply hasBit_link; [done.. |]. right; left. by rewrite from_from.
  - by apply range_link.
Qed.

Lemma edge_link (conn : list (list Z)) (x y a b : Coords) (key : DirKey) :
  square size conn → inGrid size x → inGrid size y →
  edge size isWrapping conn a b →
  edge size isWrapping (link conn x y key) a b.
Proof.
  intros Hsq Hx Hy (k & Hbit & Hn). exists k. split; [| done].
  apply hasBit_link; auto.
Qed.

Lemma rtc_edge_link (conn : list (list Z)) (x y a b : Coords) (key : DirKey) :
  square size conn → inGrid size x → inGrid size y →
  rtc (edge size isWrapping conn) a b →
  rtc (edge size isWrapping (link conn x y key)) a b.
Proof.
  intros Hsq Hx Hy H. induction H as [|a b c Hab _ IH]; [done |].
  eapply rtc_l; [| done]. by apply edge_link.
Qed.

(** Under reciprocity edges go both ways. *)
Lemma edge_sym (conn : list (list Z)) (a b : Coords) :
  reciprocal size isWrapping conn → inGrid size a →
  edge size isWrapping conn a b → edge size isWrapping conn b a.
Proof.
  intros Hrec Ha (k & Hbit & Hn).
  destruct (Hrec a k Ha Hbit) as (b' & Hn' & Hback).
  assert (b' = b) as -> by congruence.
  exists (from (DIRECTIONS k)). split; [done |]. by apply neighbour_sym.
Qed.

Lemma edge_inGrid (conn : list (list Z)) (a b : Coords) :
  inGrid size a → edge size isWrapping conn a b → inGrid size b.
Proof.
  intros Ha (k & _ & Hn). destruct a. eapply neighbour_inGrid; eauto.
Qed.

Lemma rtc_edge_inGrid (conn : list (list Z)) (a b : Coords) :
  inGrid size a → rtc (edge size isWrapping conn) a b → inGrid size b.
Proof.
  intros Ha H. induction H as [|a b c Hab _ IH]; [done |].
  apply IH. by eapply edge_inGrid.
Qed.

Lemma rtc_edge_sym (conn : list (list Z)) (a b : Coords) :
  reciprocal size isWrapping conn → inGrid size a →
  rtc (edge size isWrapping conn) a b → rtc (edge size isWrapping conn) b a.
Proof.
  intros Hrec Ha H. induction H as [|a b c Hab _ IH]; [done |].
  eapply rtc_r; [apply IH; by eapply edge_inGrid |]. by apply edge_sym.
Qed.

End Link.

(** ** The spanning walk *)

Section Walk.

Variables (rnd : nat → nat) (size : Z) (isWrapping : bool).
Hypothesis size_pos : 0 < size.

Lemma randomInt_range (draws : nat) (n : Z) :
  0 < n → 0 ≤ randomInt rnd draws n < n.
Proof. intros Hn. unfold randomInt. by apply Z.mod_pos_bound. Qed.

Lemma randomInt_lookup {A} (l : list A) (draws : nat) :
  l ≠ [] →
  ∃ x, l !!! randomInt rnd draws (Z.of_nat (length l)) = Some x ∧ x ∈ l.
Proof.
  intros Hl.
  assert (0 < Z.of_nat (length l)) as Hlen by (destruct l; [done | simpl; lia]).
  pose proof (randomInt_range draws _ Hlen) as Hrange.
  destruct (proj2 (readAt_is_Some l _) Hrange) as [x Hx].
  exists x. split; [done |].
  apply readAt_Some in Hx as [_ Hx]. by eapply list_elem_of_lookup_2.
Qed.

Lemma unvisitedNeighbors_elem (vis : list (list bool)) (r c : Z)
    (nb : Neighbor) :
  nb ∈ unvisitedNeighbors size isWrapping vis r c ↔
  ∃ key,
    neighbour size isWrapping r c (DIRECTIONS key) = Some (nbR nb, nbC nb) ∧
    seenAt vis (nbR nb, nbC nb) = false ∧
    nbMask nb = mask (DIRECTIONS key) ∧
    nbFromMask nb = mask (DIRECTIONS (from (DIRECTIONS key))).
Proof.
  unfold unvisitedNeighbors. rewrite list_elem_of_omap. unfold seenAt. split.
  - intros (key & _ & H). exists key.
    destruct (neighbour size isWrapping r c (DIRECTIONS key)) as [[nr nc]|];
      [| discriminate].
    destruct (visitedAt vis nr nc) eqn:Hv; [discriminate |].
    injection H as <-. done.
  - intros (key & Hn & Hv & Hm & Hf). exists key.
    split; [apply elem_of_dirKeys |]. rewrite Hn. simpl in Hv. rewrite Hv.
    destruct nb; simpl in *. by subst.
Qed.

Lemma unvisitedNeighbors_nil (vis : list (list bool)) (r c : Z) (key : DirKey)
    (y : Coords) :
  unvisitedNeighbors size isWrapping vis r c = [] →
  neighbour size isWrapping r c (DIRECTIONS key) = Some y →
  seenAt vis y = true.
Proof.
  intros Hnil Hn. destruct (seenAt vis y) eqn:Hv; [done |]. exfalso.
  assert (mkNeighbor y.1 y.2 (mask (DIRECTIONS key))
            (mask (DIRECTIONS (from (DIRECTIONS key))))
          ∈ unvisitedNeighbors size isWrapping vis r c) as Hin.
  { apply unvisitedNeighbors_elem. exists key. simpl. by destruct y. }
  rewrite Hnil in Hin. by apply elem_of_nil in Hin.
Qed.

(** The two outcomes of an iteration: pop, or record an edge to an
    unvisited neighbour and push it. *)
Lemma walkStep_cases (st : WalkState) (x : Coords) (rest : list Coords) :
  walkStack st = x :: rest →
  (unvisitedNeighbors size isWrapping (walkVisited st) x.1 x.2 = [] ∧
   walkStep rnd size isWrapping st
   = Some (mkWalk (walkConnections st) (walkVisited st) rest (walkDraws st)))
  ∨
  (∃ key y,
     neighbour size isWrapping x.1 x.2 (DIRECTIONS key) = Some y ∧
     seenAt (walkVisited st) y = false ∧
     walkStep rnd size isWrapping st
     = Some (mkWalk (link (walkConnections st) x y key)
                    (markAt (walkVisited st) y.1 y.2)
                    (y :: x :: rest) (S (walkDraws st)))).
Proof.
  intros Hstack. unfold walkStep. rewrite Hstack. destruct x as [r c]. simpl.
  case_bool_decide as Hnil; [by left |]. right.
  destruct (randomInt_lookup _ (walkDraws st) Hnil) as (nb & -> & Hnb).
  apply unvisitedNeighbors_elem in Hnb as (key & Hn & Hv & Hm & Hf).
  exists key, (nbR nb, nbC nb). split; [done |]. split; [done |].
  simpl. unfold link. simpl. by rewrite Hm, Hf.
Qed.

Lemma unvisited_markAt (vis : list (list bool)) (y : Coords) :
  square size vis → inGrid size y → seenAt vis y = false →
  (length (unvisited size (markAt vis y.1 y.2))
   < length (unvisited size vis))%nat.
Proof.
  intros Hsq Hy Hv. unfold unvisited.
  assert (is_Some (cell vis y.1 y.2)) as Hc
    by (destruct y; by apply (cell_inGrid size)).
  rewrite (list_filter_iff _ (λ x, x ≠ y ∧ seenAt vis x = false)).
  - rewrite <- list_filter_filter.
    apply (length_filter_lt _ _ y); [| by intros H].
    apply list_elem_of_filter. split; [done | by apply allCoords_elem].
  - intros x. rewrite seenAt_markAt by done.
    case_decide; split; try done; tauto.
Qed.

Lemma seenAt_markAt_mono (vis : list (list bool)) (y z : Coords) :
  square size vis → inGrid size y →
  seenAt vis z = true → seenAt (markAt vis y.1 y.2) z = true.
Proof.
  intros Hsq Hy Hz. rewrite seenAt_markAt
    by (destruct y; by apply (cell_inGrid size)).
  by case_decide.
Qed.

Lemma walkStep_inv (start : Coords) (st : WalkState) :
  walkInv size isWrapping start st → walkStack st ≠ [] →
  ∃ st',
    walkStep rnd size isWrapping st = Some st' ∧
    walkInv size isWrapping start st' ∧
    (walkMeasure size st' < walkMeasure size st)%nat.
Proof.
  intros (Hconn & Hsq & Hstack & Hlinked & Hclosed & Hstart & Hseen) Hne.
  destruct (walkStack st) as [|x rest] eqn:Hst; [done |].
  assert (inGrid size x ∧ seenAt (walkVisited st) x = true) as [Hx Hxs]
    by (apply Hstack; left).
  destruct (walkStep_cases st x rest Hst)
    as [[Hnil ->]|(key & y & Hn & Hv & ->)]; eexists; (split; [done |]).
  - split; [| unfold walkMeasure; rewrite Hst; simpl; lia].
    unfold walkInv; simpl. split_and!; try done.
    + intros z Hz. apply Hstack. by right.
    + intros z Hz Hzs. destruct (Hclosed z Hz Hzs) as [Hin|Hcl]; [| by right].
      apply elem_of_cons in Hin as [->|Hin]; [| by left].
      right. intros k w Hw. by eapply unvisitedNeighbors_nil.
  - assert (inGrid size y) as Hy
      by (destruct x; eapply neighbour_inGrid; eauto).
    destruct Hconn as (Hsqc & Hrec & Hrange).
    split.
    + unfold walkInv; simpl. split_and!.
      * by apply connInv_link.
      * by apply square_markAt.
      * intros z Hz. apply elem_of_cons in Hz as [->|Hz].
        -- split; [done |]. rewrite seenAt_markAt
             by (destruct y; by apply (cell_inGrid size)).
           by rewrite decide_True.
        -- destruct (Hstack z Hz) as [Hzin Hzs].
           split; [done | by apply seenAt_markAt_mono].
      * intros z Hz Hzs. rewrite seenAt_markAt in Hzs
          by (destruct y; by apply (cell_inGrid size)).
        case_decide as Hzy.
        -- subst z. apply rtc_r with x.
           ++ apply rtc_edge_link; [done.. |]. by apply Hlinked.
           ++ exists key. split; [| done].
              apply (hasBit_link size); [done.. |]. right; left. done.
        -- apply rtc_edge_link; [done.. |]. by apply Hlinked.
      * intros z Hz Hzs. rewrite seenAt_markAt in Hzs
          by (destruct y; by apply (cell_inGrid size)).
        case_decide as Hzy; [left; subst; left |].
        destruct (Hclosed z Hz Hzs) as [Hin|Hcl]; [left; by right |].
        right. intros k w Hw. apply seenAt_markAt_mono; eauto.
      * done.
      * by apply seenAt_markAt_mono.
    + unfold walkMeasure; simpl. rewrite Hst. simpl.
      pose proof (unvisited_markAt (walkVisited st) y Hsq Hy Hv). lia.
Qed.

Lemma spanningWalk_inv (start : Coords) (fuel : nat) (st : WalkState) :
  walkInv size isWrapping start st →
  (walkMeasure size st ≤ fuel)%nat →
  ∃ st',
    spanningWalk rnd fuel size isWrapping st = Some st' ∧
    walkInv size isWrapping start st' ∧ walkStack st' = [].
Proof.
  revert st. induction fuel as [|fuel IH]; intros st Hinv Hfuel.
  - exists st. unfold walkMeasure in Hfuel.
    destruct (walkStack st) eqn:Hst; simpl in *; [| lia].
    by rewrite Hst.
  - destruct (walkStack st) as [|x rest] eqn:Hst.
    + exists st. simpl. by rewrite Hst.
    + destruct (walkStep_inv start st Hinv) as (st1 & Hstep & Hinv1 & Hlt);
        [by rewrite Hst |].
      destruct (IH st1 Hinv1) as (st' & Hwalk & Hinv' & Hend); [lia |].
      exists st'. simpl. rewrite Hst, Hstep. done.
Qed.

Lemma walkInv_init (start : Coords) (draws : nat) :
  inGrid size start →
  walkInv size isWrapping start
    (mkWalk (matrix size 0) (markAt (matrix size false) start.1 start.2)
            [start] draws).
Proof.
  intros Hstart.
  assert (square size (matrix size false)) as Hsq by (apply square_matrix; lia).
  assert (is_Some (cell (matrix size false) start.1 start.2)) as Hc
    by (destruct start; by apply (cell_inGrid size)).
  assert (∀ z, inGrid size z →
    seenAt (markAt (matrix size false) start.1 start.2) z = true → z = start)
    as Honly.
  { intros [r c] Hz. rewrite seenAt_markAt by done.
    case_decide; [done |]. unfold seenAt, visitedAt; simpl.
    by rewrite cell_matrix. }
  unfold walkInv; simpl. split_and!.
  - split_and!.
    + apply square_matrix. lia.
    + intros [r c] key Hx Hbit. unfold connAt, connectionAt in Hbit.
      simpl in Hbit. rewrite cell_matrix in Hbit by done.
      by apply hasBit_zero in Hbit.
    + intros [r c] Hx. unfold connAt, connectionAt. simpl.
      rewrite cell_matrix by done. simpl. lia.
  - by apply square_markAt.
  - intros z Hz. apply list_elem_of_singleton in Hz as ->.
    split; [done |]. rewrite seenAt_markAt by done. by rewrite decide_True.
  - intros z Hz Hzs. by rewrite (Honly z Hz Hzs).
  - intros z Hz Hzs. left. rewrite (Honly z Hz Hzs). by left.
  - done.
  - rewrite seenAt_markAt by done. by rewrite decide_True.
Qed.

(** Step 1 returns: the walk ends within its budget, and it leaves a
    reciprocal mask matrix in which every cell is linked to the start. *)
Lemma spanningTree_spec :
  ∃ st start,
    spanningTree rnd size isWrapping = Some st ∧
    connInv size isWrapping (walkConnections st) ∧
    inGrid size start ∧
    ∀ x, inGrid size x →
         rtc (edge size isWrapping (walkConnections st)) start x.
Proof.
  unfold spanningTree.
  set (start := (randomInt rnd 0 size, randomInt rnd 1 size)).
  assert (inGrid size start) as Hstart
    by (split; simpl; by apply randomInt_range).
  pose proof (walkInv_init start 2 Hstart) as Hinit.
  destruct (spanningWalk_inv start (2 * Z.to_nat size * Z.to_nat size) _ Hinit)
    as (st & Hwalk & Hinv & Hend).
  { unfold walkMeasure; cbn [walkVisited walkStack length].
    assert (square size (matrix size false)) as Hsq
      by (apply square_matrix; lia).
    assert (seenAt (matrix size false) start = false) as Hv.
    { unfold seenAt, visitedAt. destruct start. by rewrite cell_matrix. }
    pose proof (unvisited_markAt (matrix size false) start Hsq Hstart Hv) as Hlt.
    assert (length (unvisited size (matrix size false))
            ≤ Z.to_nat size * Z.to_nat size)%nat as Hall.
    { unfold unvisited. rewrite <- length_allCoords. apply length_filter. }
    lia. }
  exists st, start. split; [done |].
  destruct Hinv as (Hconn & Hsq & Hstack & Hlinked & Hclosed & _ & Hseen).
  split; [done |]. split; [done |].
  intros x Hx. apply Hlinked; [done |].
  apply (grid_connected size isWrapping
           (λ z, seenAt (walkVisited st) z = true) start); try done.
  intros z key y Hz Hzs Hn.
  destruct (Hclosed z Hz Hzs) as [Hin|Hcl]; [| by eapply Hcl].
  rewrite Hend in Hin. by apply elem_of_nil in Hin.
Qed.

End Walk.

(** ** Densification *)

Section Densify.

Variables (rnd : nat → nat) (size : Z) (isWrapping : bool).
Hypothesis size_pos : 0 < size.

Lemma densifyRound_spec (conn : list (list Z)) (draws : nat) :
  connInv size isWrapping conn →
  ∃ cd,
    densifyRound rnd size isWrapping (conn, draws) = Some cd ∧
    connInv size isWrapping cd.1 ∧
    ∀ a b, rtc (edge size isWrapping conn) a b →
           rtc (edge size isWrapping cd.1) a b.
Proof.
  intros Hinv. unfold densifyRound. cbn [fst snd].
  set (r := randomInt rnd draws size).
  set (c := randomInt rnd (S draws) size).
  assert (inGrid size (r, c)) as Hrc
    by (split; simpl; by apply randomInt_range).
  case_bool_decide as Hnil; [eexists; split; [done |]; by split |].
  destruct (randomInt_lookup rnd _ (S (S draws)) Hnil) as (key & -> & _).
  cbn [mbind option_bind].
  destruct (neighbour size isWrapping r c (DIRECTIONS key)) as [[nr nc]|] eqn:Hn;
    [| eexists; split; [done |]; by split].
  eexists; split; [done |]. cbn [fst].
  assert (inGrid size (nr, nc)) as Hy by (eapply neighbour_inGrid; eauto).
  change (orAt _ nr nc _) with (link conn (r, c) (nr, nc) key).
  split; [by apply connInv_link |].
  intros a b. apply rtc_edge_link; [apply Hinv | done..].
Qed.

Lemma densify_spec (rounds : nat) (conn : list (list Z)) (draws : nat) :
  connInv size isWrapping conn →
  ∃ cd,
    densify rnd rounds size isWrapping (conn, draws) = Some cd ∧
    connInv size isWrapping cd.1 ∧
    ∀ a b, rtc (edge size isWrapping conn) a b →
           rtc (edge size isWrapping cd.1) a b.
Proof.
  revert conn draws. induction rounds as [|rounds IH]; intros conn draws Hinv.
  - exists (conn, draws). by split.
  - destruct (densifyRound_spec conn draws Hinv) as ([conn1 d1] & H1 & Hinv1 & Hmono1).
    destruct (IH conn1 d1 Hinv1) as (cd & H & Hinv' & Hmono).
    exists cd. simpl. rewrite H1. simpl. split; [done |]. split; [done |].
    intros a b Hab. by apply Hmono, Hmono1.
Qed.

(** Steps 1 and 1.5 return a reciprocal mask matrix in which every cell is
    linked to every other. *)
Lemma generateConnections_spec :
  ∃ conn draws start,
    generateConnections rnd size isWrapping = Some (conn, draws) ∧
    connInv size isWrapping conn ∧
    inGrid size start ∧
    ∀ x, inGrid size x → rtc (edge size isWrapping conn) start x.
Proof.
  unfold generateConnections.
  destruct (spanningTree_spec rnd size isWrapping size_pos)
    as (st & start & -> & Hinv & Hstart & Hlinked).
  cbn [mbind option_bind].
  destruct (densify_spec (Z.to_nat (size * size * 2 / 5))
              (walkConnections st) (walkDraws st) Hinv)
    as ([conn draws] & -> & Hinv' & Hmono).
  exists conn, draws, start. split; [done |]. split; [done |].
  split; [done |]. intros x Hx. by apply Hmono, Hlinked.
Qed.

End Densify.

(** C6 (reciprocity of generated masks): for every size at least 1, both
    wrap modes and every outcome of the random draws, steps 1 and 1.5 of
    [generateGrid] return a mask matrix in which, for every cell [x] and
    direction [key], the mask of [x] has the bit of [key] iff the
    topological neighbour of [x] in that direction exists and its mask has
    the bit of the opposite direction. *)
Theorem generated_masks_reciprocal (rnd : nat → nat) (size : Z)
    (isWrapping : bool) :
  0 < size →
  ∃ connections draws,
    generateConnections rnd size isWrapping = Some (connections, draws) ∧
    ∀ x key,
      inGrid size x →
      (hasBit (connAt connections x) key ↔
       ∃ y, neighbour size isWrapping x.1 x.2 (DIRECTIONS key) = Some y ∧
            hasBit (connAt connections y) (from (DIRECTIONS key))).
Proof.
  intros Hs.
  destruct (generateConnections_spec rnd size isWrapping Hs)
    as (conn & draws & start & H & (Hsq & Hrec & Hrange) & _).
  exists conn, draws. split; [done |]. intros x key Hx. split.
  - by apply Hrec.
  - intros (y & Hn & Hback).
    assert (inGrid size y) as Hy
      by (destruct x; eapply neighbour_inGrid; eauto).
    destruct (Hrec y _ Hy Hback) as (x' & Hn' & Hbit).
    rewrite (neighbour_sym size isWrapping x y key Hx Hn) in Hn'.
    injection Hn' as <-. by rewrite from_from in Hbit.
Qed.

Lemma generated_masks_reciprocal_witness :
  ∃ connections draws,
    generateConnections (λ k, k) 5 true = Some (connections, draws) ∧
    ∀ x key,
      inGrid 5 x →
      (hasBit (connAt connections x) key ↔
       ∃ y, neighbour 5 true x.1 x.2 (DIRECTIONS key) = Some y ∧
            hasBit (connAt connections y) (from (DIRECTIONS key))).
Proof. apply (generated_masks_reciprocal (λ k, k) 5 true). lia. Defined.

(** ** Typing and scramble *)

(** Every non-empty mask is found again in the rotation table of its kind,
    at its solved rotation. *)
Lemma solvedTile_mask (m : Z) :
  1 ≤ m ≤ 15 →
  default 0 (TILE_CONNECTIONS (solvedTile m).1 !!! (solvedTile m).2) = m.
Proof.
  intros Hm.
  assert (m = 1 ∨ m = 2 ∨ m = 3 ∨ m = 4 ∨ m = 5 ∨ m = 6 ∨ m = 7 ∨
          m = 8 ∨ m = 9 ∨ m = 10 ∨ m = 11 ∨ m = 12 ∨ m = 13 ∨ m = 14 ∨
          m = 15) as Hcases by lia.
  destruct_or!; subst m; reflexivity.
Qed.

Lemma cell_fmap {A B} (f : A → B) (m : list (list A)) (r c : Z) :
  cell (map (map f) m) r c = f <$> cell m r c.
Proof.
  unfold cell, readAt. destruct (Z.ltb_spec r 0); [done |].
  change (map (map f) m) with (map f <$> m). rewrite list_lookup_fmap.
  destruct (m !! Z.to_nat r) as [row|]; simpl; [| done].
  destruct (Z.ltb_spec c 0); [done |].
  change (map f row) with (f <$> row). by rewrite list_lookup_fmap.
Qed.

Lemma square_fmap {A B} (f : A → B) (size : Z) (m : list (list A)) :
  square size m → square size (map (map f) m).
Proof.
  intros [Hlen Hrows]. split; [by rewrite length_map |].
  rewrite Forall_forall in Hrows. apply Forall_forall. intros row Hrow.
  apply list_elem_of_In, in_map_iff in Hrow as (row0 & <- & Hrow0).
  rewrite length_map. by apply Hrows, list_elem_of_In.
Qed.

Section Scramble.

Variables (rnd : nat → nat) (serverCoords : Coords).

Lemma scrambleRow_lookup (r c : Z) (row : list (TileType * Z)) (draws : nat)
    (j : nat) :
  match (scrambleRow rnd serverCoords r c row draws).1 !! j, row !! j with
  | Some tile, Some t =>
      scrambled (bool_decide ((r, c + Z.of_nat j) = serverCoords)) t tile
  | None, None => True
  | _, _ => False
  end.
Proof.
  revert c draws j. induction row as [|t row IH]; intros c draws j; [done |].
  destruct j as [|j]; simpl.
  - unfold scrambled; simpl. destruct serverCoords as [sr sc]; simpl.
    rewrite Z.add_0_r.
    destruct (Z.eqb_spec r sr), (Z.eqb_spec c sc); simpl;
      (rewrite bool_decide_eq_true_2 by congruence)
      || (rewrite bool_decide_eq_false_2 by congruence); done.
  - specialize (IH (c + 1)
      (if (r =? serverCoords.1) && (c =? serverCoords.2) then draws
       else S draws) j).
    replace (c + 1 + Z.of_nat j) with (c + Z.of_nat (S j)) in IH by lia.
    done.
Qed.

Lemma scrambleRows_lookup (r : Z) (rows : list (list (TileType * Z)))
    (draws : nat) (i j : nat) :
  match (scrambleRows rnd serverCoords r rows draws).1 !! i, rows !! i with
  | Some row', Some row =>
      match row' !! j, row !! j with
      | Some tile, Some t =>
          scrambled (bool_decide ((r + Z.of_nat i, Z.of_nat j) = serverCoords))
            t tile
      | None, None => True
      | _, _ => False
      end
  | None, None => True
  | _, _ => False
  end.
Proof.
  revert r draws i. induction rows as [|row rows IH]; intros r draws i; [done |].
  destruct i as [|i]; simpl.
  - rewrite Z.add_0_r.
    pose proof (scrambleRow_lookup r 0 row draws j) as H.
    by rewrite Z.add_0_l in H.
  - specialize (IH (r + 1) (scrambleRow rnd serverCoords r 0 row draws).2 i).
    replace (r + 1 + Z.of_nat i) with (r + Z.of_nat (S i)) in IH by lia.
    done.
Qed.

Lemma cell_scramble (rows : list (list (TileType * Z))) (draws : nat)
    (r c : Z) (t : TileType * Z) :
  cell rows r c = Some t →
  ∃ tile,
    cell (scrambleRows rnd serverCoords 0 rows draws).1 r c = Some tile ∧
    scrambled (bool_decide ((r, c) = serverCoords)) t tile.
Proof.
  intros H. apply cell_Some in H as (row & Hrow & Ht).
  apply readAt_Some in Hrow as [Hr Hrow], Ht as [Hc Ht].
  pose proof (scrambleRows_lookup 0 rows draws (Z.to_nat r) (Z.to_nat c)) as H.
  rewrite Hrow in H.
  destruct ((scrambleRows rnd serverCoords 0 rows draws).1 !! Z.to_nat r)
    as [row'|] eqn:Hrow'; [| done].
  rewrite Ht in H. destruct (row' !! Z.to_nat c) as [tile|] eqn:Htile; [| done].
  rewrite !Z2Nat.id, Z.add_0_l in H by lia.
  exists tile. split; [| done]. apply cell_Some. exists row'.
  split; apply readAt_Some; done.
Qed.

Lemma square_scramble (size : Z) (rows : list (list (TileType * Z)))
    (draws : nat) :
  square size rows →
  square size (scrambleRows rnd serverCoords 0 rows draws).1.
Proof.
  intros [Hlen Hrows]. rewrite Forall_forall in Hrows.
  set (g := (scrambleRows rnd serverCoords 0 rows draws).1).
  assert (∀ i, is_Some (g !! i) ↔ is_Some (rows !! i)) as Hdom.
  { intros i. pose proof (scrambleRows_lookup 0 rows draws i 0) as H.
    fold g in H. destruct (g !! i), (rows !! i); try done; split; eauto. }
  assert (length g = length rows) as Hlen'.
  { destruct (Nat.lt_total (length g) (length rows)) as [Hlt|[Heq|Hgt]];
      [| done |].
    - apply lookup_lt_is_Some, Hdom, lookup_lt_is_Some in Hlt. lia.
    - apply lookup_lt_is_Some, Hdom, lookup_lt_is_Some in Hgt. lia. }
  split; [lia |]. apply Forall_forall. intros row' Hrow'.
  apply list_elem_of_lookup in Hrow' as [i Hi].
  destruct (proj1 (Hdom i)) as [row Hrow]; [eauto |].
  assert (∀ j, is_Some (row' !! j) ↔ is_Some (row !! j)) as Hdom'.
  { intros j. pose proof (scrambleRows_lookup 0 rows draws i j) as H.
    fold g in H. rewrite Hi, Hrow in H.
    destruct (row' !! j), (row !! j); try done; split; eauto. }
  apply list_elem_of_lookup_2, Hrows in Hrow. rewrite <- Hrow. f_equal.
  destruct (Nat.lt_total (length row') (length row)) as [Hlt|[Heq|Hgt]];
    [| done |].
  - apply lookup_lt_is_Some, Hdom', lookup_lt_is_Some in Hlt. lia.
  - apply lookup_lt_is_Some, Hdom', lookup_lt_is_Some in Hgt. lia.
Qed.

End Scramble.

(** ** The generated grid *)

Lemma terminalsOf_elem (connections : list (list Z)) (t : Coords) :
  t ∈ terminalsOf connections → is_Some (cell connections t.1 t.2).
Proof.
  unfold terminalsOf. intros H.
  apply list_elem_of_join in H as (l & Ht & Hl).
  apply list_elem_of_lookup in Hl as [i Hi].
  rewrite list_lookup_imap in Hi.
  destruct (connections !! i) as [row|] eqn:Hrow; [| done].
  injection Hi as <-.
  apply list_elem_of_omap in Ht as (o & Ho & Hid).
  apply list_elem_of_lookup in Ho as [j Hj]. rewrite list_lookup_imap in Hj.
  destruct (row !! j) as [m|] eqn:Hm; [| done]. injection Hj as <-.
  simpl in Hid. case_match; [| done]. injection Hid as <-. simpl.
  exists m. apply cell_Some. exists row. by rewrite !readAt_of_nat.
Qed.

Lemma allCoords_nonempty (size : Z) : 0 < size → allCoords size ≠ [].
Proof.
  intros Hs Hnil. assert ((0, 0) ∈ allCoords size) as Hin
    by (apply allCoords_elem; unfold inGrid; simpl; lia).
  rewrite Hnil in Hin. by apply elem_of_nil in Hin.
Qed.

(** Steps 2 to 4 return, and what they return is the scramble of the typing
    of the mask matrix. *)
Lemma finishGrid_spec (rnd : nat → nat) (size : Z) (conn : list (list Z))
    (draws : nat) :
  0 < size → square size conn →
  ∃ grid serverCoords,
    finishGrid rnd size conn draws
    = Some (grid, map (map snd) (map (map solvedTile) conn), serverCoords,
            terminalsOf conn) ∧
    inGrid size serverCoords ∧
    square size grid ∧
    ∀ x, inGrid size x →
      ∃ tile, cell grid x.1 x.2 = Some tile ∧
              scrambled (bool_decide (x = serverCoords))
                        (solvedTile (connAt conn x)) tile.
Proof.
  intros Hs Hsq. unfold finishGrid.
  destruct (randomInt_lookup rnd (allCoords size) draws
              (allCoords_nonempty size Hs)) as (sc & -> & Hsc).
  cbn [mbind option_bind]. eexists. exists sc.
  split; [done |]. split; [by apply allCoords_elem |].
  split; [by apply square_scramble, square_fmap |].
  intros [r c] Hx. simpl.
  destruct (proj2 (cell_inGrid size conn r c Hsq) Hx) as [m Hm].
  destruct (cell_scramble rnd sc (map (map solvedTile) conn) (S draws) r c
              (solvedTile m)) as (tile & Htile & Hscr).
  { by rewrite cell_fmap, Hm. }
  exists tile. split; [done |].
  unfold connAt, connectionAt. simpl. by rewrite Hm.
Qed.

(** [generateGrid] returns, and what it returns is the scramble of the
    typing of a reciprocal mask matrix that links all cells. *)
Lemma generateGrid_spec (rnd : nat → nat) (size : Z) (isWrapping : bool) :
  0 < size →
  ∃ conn draws start grid serverCoords,
    generateConnections rnd size isWrapping = Some (conn, draws) ∧
    generateGrid rnd size isWrapping
    = Some (grid, map (map snd) (map (map solvedTile) conn), serverCoords,
            terminalsOf conn) ∧
    connInv size isWrapping conn ∧
    inGrid size start ∧
    (∀ x, inGrid size x → rtc (edge size isWrapping conn) start x) ∧
    inGrid size serverCoords ∧
    square size grid ∧
    ∀ x, inGrid size x →
      ∃ tile, cell grid x.1 x.2 = Some tile ∧
              scrambled (bool_decide (x = serverCoords))
                        (solvedTile (connAt conn x)) tile.
Proof.
  intros Hs.
  destruct (generateConnections_spec rnd size isWrapping Hs)
    as (conn & draws & start & Hgen & Hinv & Hstart & Hlinked).
  destruct (finishGrid_spec rnd size conn draws Hs)
    as (grid & sc & Hfin & Hsc & Hsq & Hgrid); [apply Hinv |].
  unfold generateGrid. rewrite (proj2 (Z.leb_gt size 0)) by lia.
  rewrite Hgen. cbn [mbind option_bind fst snd]. rewrite Hfin.
  exists conn, draws, start, grid, sc. done.
Qed.

(** ** The solved configuration *)

Lemma cell_withSolution (grid : Grid) (solution : list (list Z)) (r c : Z) :
  cell (withSolution grid solution) r c =
  (λ t, mkTile (type t) (default (rotation t) (cell solution r c))
               (connected t) (isServer t)) <$> cell grid r c.
Proof.
  unfold cell at 1 3, readAt, withSolution.
  destruct (Z.ltb_spec r 0); [done |].
  rewrite list_lookup_imap.
  destruct (grid !! Z.to_nat r) as [row|]; simpl; [| done].
  destruct (Z.ltb_spec c 0); [done |].
  rewrite list_lookup_imap. rewrite !Z2Nat.id by lia. done.
Qed.

Lemma square_withSolution (size : Z) (grid : Grid) (solution : list (list Z)) :
  square size grid → square size (withSolution grid solution).
Proof.
  intros [Hlen Hrows]. unfold withSolution.
  split; [by rewrite length_imap |].
  rewrite Forall_forall in Hrows. apply Forall_forall. intros row Hrow.
  apply list_elem_of_lookup in Hrow as [i Hi].
  rewrite list_lookup_imap in Hi.
  destruct (grid !! i) as [row0|] eqn:Hrow0; [| done].
  injection Hi as <-. rewrite length_imap.
  apply Hrows. by eapply list_elem_of_lookup_2.
Qed.

Lemma withSolutionOffServer_eq (grid : Grid) (solution : list (list Z)) :
  (∀ r c t, cell grid r c = Some t → isServer t = true →
            cell solution r c = Some (rotation t)) →
  withSolutionOffServer grid solution = withSolution grid solution.
Proof.
  intros Hsrv. unfold withSolutionOffServer, withSolution.
  apply list_eq. intros i. rewrite !list_lookup_imap.
  destruct (grid !! i) as [row|] eqn:Hrow; [| done]. simpl. f_equal.
  apply list_eq. intros j. rewrite !list_lookup_imap.
  destruct (row !! j) as [t|] eqn:Ht; [| done]. simpl. f_equal.
  destruct (isServer t) eqn:Hs; [| done].
  rewrite (Hsrv (Z.of_nat i) (Z.of_nat j) t); [by destruct t; simpl in *; subst | | done].
  apply cell_Some. exists row. by rewrite !readAt_of_nat.
Qed.

Section Solved.

Variables (size : Z) (isWrapping : bool) (conn : list (list Z))
  (start serverCoords : Coords) (grid : Grid).
Hypothesis size_two : 2 ≤ size.
Hypothesis Hinv : connInv size isWrapping conn.
Hypothesis Hstart : inGrid size start.
Hypothesis Hlinked :
  ∀ x, inGrid size x → rtc (edge size isWrapping conn) start x.
Hypothesis Hserver : inGrid size serverCoords.
Hypothesis Hsquare : square size grid.
Hypothesis Hgrid :
  ∀ x, inGrid size x →
    ∃ tile, cell grid x.1 x.2 = Some tile ∧
            scrambled (bool_decide (x = serverCoords))
                      (solvedTile (connAt conn x)) tile.

Local Abbreviation solution := (map (map snd) (map (map solvedTile) conn)).
Local Abbreviation solved := (withSolution grid solution).

Lemma all_linked (x y : Coords) :
  inGrid size x → inGrid size y → rtc (edge size isWrapping conn) x y.
Proof.
  intros Hx Hy. destruct Hinv as (_ & Hrec & _).
  transitivity start; [| by apply Hlinked].
  apply rtc_edge_sym; auto.
Qed.

Lemma conn_nonzero (x : Coords) : inGrid size x → 1 ≤ connAt conn x ≤ 15.
Proof.
  intros Hx. destruct Hinv as (_ & _ & Hrange).
  pose proof (Hrange x Hx) as Hr.
  assert (connAt conn x ≠ 0); [| lia].
  set (y := ((if x.1 =? 0 then 1 else 0), x.2) : Coords).
  assert (inGrid size y) as Hy.
  { destruct Hx as [Hx1 Hx2]. split; simpl; [| done]. case_match; lia. }
  assert (x ≠ y) as Hne.
  { intros Heq. apply (f_equal fst) in Heq. simpl in Heq.
    destruct (Z.eqb_spec x.1 0); lia. }
  destruct (rtc_inv _ _ (all_linked x y Hx Hy)) as [?|(z & (key & Hbit & _) & _)];
    [done |].
  intros Hz. rewrite Hz in Hbit. by apply hasBit_zero in Hbit.
Qed.

Lemma solution_cell (x : Coords) :
  inGrid size x →
  cell solution x.1 x.2 = Some (solvedTile (connAt conn x)).2.
Proof.
  intros Hx. rewrite !cell_fmap.
  destruct Hinv as (Hsq & _ & _).
  destruct x as [r c].
  destruct (proj2 (cell_inGrid size conn r c Hsq) Hx) as [m Hm].
  unfold connAt, connectionAt. simpl. by rewrite Hm.
Qed.

Lemma solved_cell (x : Coords) :
  inGrid size x →
  ∃ tile, cell solved x.1 x.2 = Some tile ∧
          tileConnections tile = connAt conn x.
Proof.
  intros Hx. destruct (Hgrid x Hx) as (tile & Htile & Hty & _).
  rewrite cell_withSolution, Htile, solution_cell by done.
  eexists. split; [done |]. unfold tileConnections. simpl. rewrite Hty.
  by apply solvedTile_mask, conn_nonzero.
Qed.

Lemma solved_maskAt (x : Coords) :
  inGrid size x → maskAt solved x = connAt conn x.
Proof.
  intros Hx. destruct (solved_cell x Hx) as (tile & Htile & Hm).
  unfold maskAt. by rewrite Htile.
Qed.

Lemma solved_square : square size solved.
Proof. by apply square_withSolution. Qed.

Lemma solved_length : Z.of_nat (length solved) = size.
Proof. apply solved_square. Qed.

Lemma solved_server_fixed :
  withSolutionOffServer grid solution = solved.
Proof.
  apply withSolutionOffServer_eq. intros r c t Ht Hs.
  assert (inGrid size (r, c)) as Hx by (apply (cell_inGrid _ grid); eauto).
  destruct (Hgrid (r, c) Hx) as (tile & Htile & _ & _ & Hsrv & Hrot).
  simpl in Htile. rewrite Ht in Htile. injection Htile as <-.
  pose proof (solution_cell (r, c) Hx) as Hsol. simpl in Hsol.
  rewrite Hsol. f_equal. symmetry. apply Hrot.
  congruence.
Qed.

Lemma edge_mutual (x y : Coords) :
  inGrid size x → edge size isWrapping conn x y →
  mutual solved size isWrapping x y.
Proof.
  intros Hx (key & Hbit & Hn). destruct Hinv as (_ & Hrec & _).
  assert (inGrid size y) as Hy
    by (destruct x; eapply neighbour_inGrid; eauto).
  exists key. rewrite !solved_maskAt by done.
  split; [done |]. split; [done |].
  split; [apply (cell_is_Some size); [apply solved_square | done] |].
  destruct (Hrec x key Hx Hbit) as (y' & Hn' & Hback). congruence.
Qed.

(** The Evaluator marks every cell of the solved configuration. *)
Lemma solved_evaluates :
  ∃ grid',
    checkConnectivity solved serverCoords isWrapping = Some grid' ∧
    square size grid' ∧
    (∀ x, maskAt grid' x = maskAt solved x) ∧
    ∀ x, inGrid size x → connectedAt grid' x = true.
Proof.
  assert (wellFormed solved serverCoords) as Hwf.
  { split; rewrite solved_length; [apply solved_square | done]. }
  destruct (checkConnectivity_total solved serverCoords isWrapping Hwf)
    as [grid' H].
  exists grid'. split; [done |].
  apply checkConnectivity_Some in H as (cs & Hcs & ->).
  rewrite solved_length in Hcs.
  apply bfsLoop_result in Hcs as (Hsrv & Hcl & _).
  split; [apply square_markConnected, solved_square |].
  split; [intros x; apply maskAt_markConnected |].
  intros x Hx. apply connectedAt_markConnected_true.
  split; [| apply (cell_is_Some size); [apply solved_square | done]].
  pose proof (all_linked serverCoords x Hserver Hx) as Hpath.
  revert x Hpath Hx.
  apply (rtc_ind_r (λ z, inGrid size z → z ∈ cs)); [done |].
  intros y z Hy Hyz IH _.
  assert (inGrid size y) as Hyin by (by eapply rtc_edge_inGrid).
  apply (Hcl y z); [by apply IH | by apply edge_mutual].
Qed.

End Solved.

Lemma allConnected_intro (size : Z) (grid : Grid) :
  square size grid →
  (∀ x, inGrid size x → connectedAt grid x = true) →
  allConnected grid.
Proof.
  intros Hsq Hall. apply Forall_forall. intros row Hrow.
  apply Forall_forall. intros t Ht.
  apply list_elem_of_lookup in Hrow as [i Hi], Ht as [j Hj].
  assert (cell grid (Z.of_nat i) (Z.of_nat j) = Some t) as Hcell.
  { apply cell_Some. exists row. by rewrite !readAt_of_nat. }
  assert (inGrid size (Z.of_nat i, Z.of_nat j)) as Hin
    by (apply (cell_inGrid size grid); eauto).
  apply Hall in Hin. unfold connectedAt in Hin. simpl in Hin.
  by rewrite Hcell in Hin.
Qed.

Lemma allConnected_forallb (grid : Grid) :
  allConnected grid → forallb connected (concat grid) = true.
Proof.
  intros Hall. apply forallb_forall. intros t Ht.
  apply in_concat in Ht as (row & Hrow & Ht).
  unfold allConnected in Hall. rewrite Forall_forall in Hall.
  apply list_elem_of_In, Hall in Hrow. rewrite Forall_forall in Hrow.
  by apply Hrow, list_elem_of_In.
Qed.

(** The solved configuration of a generated grid, evaluated: reached by
    every size from 2 on. *)
Lemma generated_solution (rnd : nat → nat) (size : Z) (isWrapping : bool) :
  2 ≤ size →
  ∃ grid solution serverCoords terminals grid',
    generateGrid rnd size isWrapping
      = Some (grid, solution, serverCoords, terminals) ∧
    withSolutionOffServer grid solution = withSolution grid solution ∧
    checkConnectivity (withSolution grid solution) serverCoords isWrapping
      = Some grid' ∧
    square size grid' ∧
    allConnected grid' ∧
    isWinConditionMet grid' terminals isWrapping = Some true.
Proof.
  intros Hs.
  destruct (generateGrid_spec rnd size isWrapping)
    as (conn & draws & start & grid & sc & _ & Hgen & Hinv & Hstart & Hlinked
        & Hsc & Hsq & Hgrid); [lia |].
  destruct (solved_evaluates size isWrapping conn start sc grid Hs Hinv Hstart
              Hlinked Hsc Hsq Hgrid)
    as (grid' & Heval & Hsq' & Hmask & Hconn).
  exists grid, (map (map snd) (map (map solvedTile) conn)), sc,
    (terminalsOf conn), grid'.
  split; [done |].
  split; [by eapply solved_server_fixed |].
  split; [done |]. split; [done |].
  pose proof (allConnected_intro size grid' Hsq' Hconn) as Hall.
  split; [done |].
  unfold isWinConditionMet.
  assert (allRequiredTilesConnected grid' (terminalsOf conn) = true) as ->.
  { unfold allRequiredTilesConnected. case_bool_decide.
    - by apply allConnected_forallb.
    - apply forallb_forall. intros t Ht.
      apply list_elem_of_In, terminalsOf_elem in Ht.
      apply (Hconn t). destruct t. apply (cell_inGrid size conn); [apply Hinv | done]. }
  cbn [negb].
  assert (Z.of_nat (length grid') = size) as Hlen by apply Hsq'.
  apply noLeaks_true; [by rewrite Hlen |].
  intros x key Hx Hbit. rewrite Hlen.
  assert (inGrid size x) as Hxin.
  { apply connectedAt_true in Hx as (t & Ht & _).
    destruct x. apply (cell_inGrid size grid'); eauto. }
  destruct Hinv as (Hsqc & Hrec & Hrange).
  rewrite Hmask in Hbit.
  rewrite (solved_maskAt size isWrapping conn start sc grid) in Hbit
    by (try done; by split_and!).
  destruct (Hrec x key Hxin Hbit) as (y & Hn & Hback).
  assert (inGrid size y) as Hyin
    by (destruct x; eapply neighbour_inGrid; eauto).
  exists y. split; [done |]. split; [by apply Hconn |].
  rewrite Hmask.
  rewrite (solved_maskAt size isWrapping conn start sc grid)
    by (try done; by split_and!).
  done.
Qed.

(** C1 (reachability completeness): for every supported size, both wrap
    modes and every outcome of the random draws, [generateGrid] returns a
    grid and a Solution such that the Evaluator, run from the server
    coordinate on the grid with every rotation set to its Solution value,
    returns a [size] by [size] grid all of whose cells are marked
    connected. *)
Theorem solved_configuration_fully_connected (rnd : nat → nat) (size : Z)
    (isWrapping : bool) :
  supportedSize size →
  ∃ grid solution serverCoords terminals grid',
    generateGrid rnd size isWrapping
      = Some (grid, solution, serverCoords, terminals) ∧
    checkConnectivity (withSolution grid solution) serverCoords isWrapping
      = Some grid' ∧
    square size grid' ∧
    allConnected grid'.
Proof.
  intros Hsize.
  destruct (generated_solution rnd size isWrapping)
    as (grid & sol & sc & terms & grid' & Hgen & _ & Heval & Hsq & Hall & _).
  { unfold supportedSize in Hsize. lia. }
  exists grid, sol, sc, terms, grid'. done.
Qed.

Lemma solved_configuration_fully_connected_witness :
  ∃ grid solution serverCoords terminals grid',
    generateGrid (λ k, k) 7 true
      = Some (grid, solution, serverCoords, terminals) ∧
    checkConnectivity (withSolution grid solution) serverCoords true
      = Some grid' ∧
    square 7 grid' ∧
    allConnected grid'.
Proof.
  apply (solved_configuration_fully_connected (λ k, k) 7 true).
  right; left; reflexivity.
Defined.

(** C2 (win correctness at the Solution): for every supported size, both
    wrap modes and every outcome of the random draws, in the generated grid
    the server tile already has its Solution rotation, and once every other
    tile is set to its Solution rotation and the Evaluator is run, the Win
    Verifier reports solved: [isWinConditionMet] returns [true]. *)
Theorem solution_wins (rnd : nat → nat) (size : Z) (isWrapping : bool) :
  supportedSize size →
  ∃ grid solution serverCoords terminals grid',
    generateGrid rnd size isWrapping
      = Some (grid, solution, serverCoords, terminals) ∧
    withSolutionOffServer grid solution = withSolution grid solution ∧
    checkConnectivity (withSolutionOffServer grid solution) serverCoords
      isWrapping = Some grid' ∧
    isWinConditionMet grid' terminals isWrapping = Some true.
Proof.
  intros Hsize.
  destruct (generated_solution rnd size isWrapping)
    as (grid & sol & sc & terms & grid' & Hgen & Hfix & Heval & _ & _ & Hwin).
  { unfold supportedSize in Hsize. lia. }
  exists grid, sol, sc, terms, grid'. rewrite Hfix. done.
Qed.

Lemma solution_wins_witness :
  ∃ grid solution serverCoords terminals grid',
    generateGrid (λ k, (3 * k + 1)%nat) 5 false
      = Some (grid, solution, serverCoords, terminals) ∧
    withSolutionOffServer grid solution = withSolution grid solution ∧
    checkConnectivity (withSolutionOffServer grid solution) serverCoords
      false = Some grid' ∧
    isWinConditionMet grid' terminals false = Some true.
Proof.
  apply (solution_wins (λ k, (3 * k + 1)%nat) 5 false).
  left; reflexivity.
Defined.

(** ** The spanning walk builds a tree *)

Lemma sumOver_ext (f g : Coords → Z) (l : list Coords) :
  (∀ x, x ∈ l → f x = g x) → sumOver f l = sumOver g l.
Proof.
  induction l as [|a l IH]; intros H; [done |]. simpl.
  rewrite (H a) by left. rewrite IH; [done |]. intros x Hx. apply H. by right.
Qed.

Lemma sumOver_update (f g : Coords → Z) (l : list Coords) (x : Coords) :
  NoDup l → x ∈ l → (∀ y, y ≠ x → g y = f y) →
  sumOver g l = sumOver f l + (g x - f x).
Proof.
  intros Hnd Hx Hsame. induction Hnd as [|a l Ha Hnd IH]; simpl.
  - by apply elem_of_nil in Hx.
  - apply elem_of_cons in Hx as [->|Hx].
    + rewrite (sumOver_ext g f l); [lia |].
      intros y Hy. apply Hsame. intros ->. done.
    + rewrite IH by done. rewrite (Hsame a); [lia |]. intros ->. done.
Qed.

Lemma filter_all (P : Coords → Prop) `{!∀ x, Decision (P x)}
    (l : list Coords) :
  (∀ x, x ∈ l → P x) → filter P l = l.
Proof.
  induction l as [|a l IH]; intros Hall; [done |].
  rewrite filter_cons_True by (apply Hall; left).
  rewrite IH; [done |]. intros x Hx. apply Hall. by right.
Qed.

Lemma filter_none (P : Coords → Prop) `{!∀ x, Decision (P x)}
    (l : list Coords) :
  (∀ x, x ∈ l → ¬ P x) → filter P l = [].
Proof.
  induction l as [|a l IH]; intros Hnone; [done |].
  rewrite filter_cons_False by (apply Hnone; left).
  apply IH. intros x Hx. apply Hnone. by right.
Qed.

Lemma filter_remove_absent (P : Coords → Prop) `{!∀ x, Decision (P x)}
    (l : list Coords) (y : Coords) :
  y ∉ l → filter (λ x, x ≠ y ∧ P x) l = filter P l.
Proof.
  induction l as [|a l IH]; intros Hy; [done |].
  apply not_elem_of_cons in Hy as [Hne Hy].
  rewrite !filter_cons, IH by done.
  destruct (decide (P a)).
  - by rewrite decide_True.
  - rewrite decide_False; [done | tauto].
Qed.

Lemma length_filter_remove (P : Coords → Prop) `{!∀ x, Decision (P x)}
    (l : list Coords) (y : Coords) :
  NoDup l → y ∈ l → P y →
  S (length (filter (λ x, x ≠ y ∧ P x) l)) = length (filter P l).
Proof.
  intros Hnd Hy HP. induction Hnd as [|a l Ha Hnd IH].
  - by apply elem_of_nil in Hy.
  - rewrite !filter_cons. apply elem_of_cons in Hy as [->|Hy].
    + rewrite (decide_False (P := a ≠ a ∧ P a)) by tauto.
      rewrite (decide_True (P := P a)) by done.
      by rewrite filter_remove_absent.
    + assert (a ≠ y) as Hay by (intros ->; done).
      destruct (decide (P a)).
      * rewrite (decide_True (P := a ≠ y ∧ P a)) by done. simpl.
        by rewrite IH.
      * rewrite (decide_False (P := a ≠ y ∧ P a)) by tauto. by apply IH.
Qed.

Lemma numConnections_lor (m : Z) (key : DirKey) :
  0 ≤ m < 16 → ¬ hasBit m key →
  numConnections (Z.lor m (mask (DIRECTIONS key))) = numConnections m + 1.
Proof.
  intros Hm.
  assert (m = 0 ∨ m = 1 ∨ m = 2 ∨ m = 3 ∨ m = 4 ∨ m = 5 ∨ m = 6 ∨ m = 7 ∨
          m = 8 ∨ m = 9 ∨ m = 10 ∨ m = 11 ∨ m = 12 ∨ m = 13 ∨ m = 14 ∨
          m = 15) as Hcases by lia.
  unfold hasBit.
  destruct_or!; subst m; destruct key; simpl; intros Hbit; try done;
    exfalso; apply Hbit; done.
Qed.

Lemma stubs_solvedTile (m : Z) :
  1 ≤ m ≤ 15 → stubs (solvedTile m).1 = numConnections m.
Proof.
  intros Hm.
  assert (m = 1 ∨ m = 2 ∨ m = 3 ∨ m = 4 ∨ m = 5 ∨ m = 6 ∨ m = 7 ∨
          m = 8 ∨ m = 9 ∨ m = 10 ∨ m = 11 ∨ m = 12 ∨ m = 13 ∨ m = 14 ∨
          m = 15) as Hcases by lia.
  destruct_or!; subst m; reflexivity.
Qed.

Section Tree.

Variables (rnd : nat → nat) (size : Z) (isWrapping : bool).
Hypothesis size_pos : 0 < size.

Lemma unvisited_markAt_exact (vis : list (list bool)) (y : Coords) :
  square size vis → inGrid size y → seenAt vis y = false →
  S (length (unvisited size (markAt vis y.1 y.2)))
  = length (unvisited size vis).
Proof.
  intros Hsq Hy Hv. unfold unvisited.
  rewrite (list_filter_iff _ (λ x, x ≠ y ∧ seenAt vis x = false)).
  - apply length_filter_remove;
      [apply NoDup_allCoords | by apply allCoords_elem | done].
  - intros x. rewrite seenAt_markAt by (by apply (cell_is_Some size)).
    case_decide; split; try done; tauto.
Qed.

Lemma totalBits_orAt (conn : list (list Z)) (x : Coords) (bits : Z) :
  square size conn → inGrid size x →
  totalBits size (orAt conn x.1 x.2 bits)
  = totalBits size conn
    + (numConnections (Z.lor (connAt conn x) bits)
       - numConnections (connAt conn x)).
Proof.
  intros Hsq Hx. unfold totalBits.
  rewrite (sumOver_update (λ z, numConnections (connAt conn z)) _ _ x).
  - by rewrite connAt_orAt_eq by (by apply (cell_is_Some size)).
  - apply NoDup_allCoords.
  - by apply allCoords_elem.
  - intros z Hz. by rewrite connAt_orAt_ne.
Qed.

Lemma totalBits_link (conn : list (list Z)) (x y : Coords) (key : DirKey) :
  connInv size isWrapping conn → inGrid size x → inGrid size y →
  ¬ hasBit (connAt conn x) key → connAt conn y = 0 → x ≠ y →
  totalBits size (link conn x y key) = totalBits size conn + 2.
Proof.
  intros (Hsq & _ & Hrange) Hx Hy Hbit Hzero Hne. unfold link.
  rewrite totalBits_orAt by (try apply square_orAt; done).
  rewrite totalBits_orAt by done.
  rewrite connAt_orAt_ne by done. rewrite Hzero.
  rewrite numConnections_lor by (by try apply Hrange).
  replace (Z.lor 0 (mask (DIRECTIONS (from (DIRECTIONS key)))))
    with (mask (DIRECTIONS (from (DIRECTIONS key)))) by done.
  destruct key; simpl; lia.
Qed.

Lemma walkStep_tree (start : Coords) (st st' : WalkState) :
  walkInv size isWrapping start st → treeInv size st →
  walkStack st ≠ [] →
  walkStep rnd size isWrapping st = Some st' →
  treeInv size st'.
Proof.
  intros (Hconn & Hsq & Hstack & _) (Hzero & Hsum) Hne Hstep.
  destruct (walkStack st) as [|x rest] eqn:Hst; [done |].
  assert (inGrid size x ∧ seenAt (walkVisited st) x = true) as [Hx Hxs]
    by (apply Hstack; left).
  destruct (walkStep_cases rnd size isWrapping st x rest Hst)
    as [[_ H]|(key & y & Hn & Hv & H)];
    rewrite H in Hstep; injection Hstep as <-.
  - done.
  - assert (inGrid size y) as Hy
      by (destruct x; eapply neighbour_inGrid; eauto).
    assert (x ≠ y) as Hxy by (intros ->; congruence).
    assert (¬ hasBit (connAt (walkConnections st) x) key) as Hfree.
    { intros Hbit. destruct Hconn as (_ & Hrec & _).
      destruct (Hrec x key Hx Hbit) as (y' & Hn' & Hback).
      assert (y' = y) as -> by congruence.
      rewrite (Hzero y Hy Hv) in Hback. by apply hasBit_zero in Hback. }
    split; simpl.
    + intros z Hz Hzs. rewrite seenAt_markAt in Hzs
        by (by apply (cell_is_Some size)).
      case_decide as Hzy; [done |].
      assert (z ≠ x) as Hzx by (intros ->; congruence).
      assert (¬ ∃ k, hasBit (connAt (link (walkConnections st) x y key) z) k)
        as Hnone.
      { intros [k Hk]. apply (hasBit_link size) in Hk; [| apply Hconn | done..].
        destruct Hk as [Hk|[[? _]|[? _]]]; try done.
        rewrite (Hzero z Hz Hzs) in Hk. by apply hasBit_zero in Hk. }
      destruct Hconn as (Hsqc & _ & Hrange).
      pose proof (range_link size (walkConnections st) x y key Hsqc Hrange
                    Hx Hy z Hz) as Hr.
      destruct (Z.eq_dec (connAt (link (walkConnections st) x y key) z) 0)
        as [|Hnz]; [done |].
      exfalso. apply Hnone.
      set (m := connAt (link (walkConnections st) x y key) z) in *.
      assert (m = 1 ∨ m = 2 ∨ m = 3 ∨ m = 4 ∨ m = 5 ∨ m = 6 ∨ m = 7 ∨
              m = 8 ∨ m = 9 ∨ m = 10 ∨ m = 11 ∨ m = 12 ∨ m = 13 ∨ m = 14 ∨
              m = 15) as Hcases by lia.
      unfold hasBit.
      destruct_or!; rewrite Hcases;
        first [by exists DirN | by exists DirE | by exists DirS | by exists DirW].
    + rewrite (totalBits_link _ x y key) by (try done; by apply Hzero).
      pose proof (unvisited_markAt_exact (walkVisited st) y Hsq Hy Hv). lia.
Qed.

Lemma spanningWalk_tree (start : Coords) (fuel : nat) (st st' : WalkState) :
  walkInv size isWrapping start st → treeInv size st →
  spanningWalk rnd fuel size isWrapping st = Some st' →
  treeInv size st'.
Proof.
  revert st. induction fuel as [|fuel IH]; intros st Hinv Htree H; simpl in H.
  - destruct (walkStack st); [by injection H as <- | discriminate].
  - destruct (walkStack st) as [|x rest] eqn:Hst; [by injection H as <- |].
    destruct (walkStep_inv rnd size isWrapping start st Hinv)
      as (st1 & Hstep & Hinv1 & _); [by rewrite Hst |].
    rewrite Hstep in H. simpl in H.
    apply (IH st1); [done | | done].
    apply (walkStep_tree start st st1); [done | done | by rewrite Hst | done].
Qed.

Lemma walk_end_all_seen (start : Coords) (st : WalkState) :
  walkInv size isWrapping start st → walkStack st = [] →
  ∀ x, inGrid size x → seenAt (walkVisited st) x = true.
Proof.
  intros (_ & _ & _ & _ & Hclosed & Hstart & Hseen) Hend.
  apply (grid_connected size isWrapping
           (λ z, seenAt (walkVisited st) z = true) start); try done.
  intros z key y Hz Hzs Hn.
  destruct (Hclosed z Hz Hzs) as [Hin|Hcl]; [| by eapply Hcl].
  rewrite Hend in Hin. by apply elem_of_nil in Hin.
Qed.

(** The masks step 1 returns hold [2 * (size * size - 1)] bits: one edge
    for every cell but the start. *)
Lemma spanningTree_totalBits (st : WalkState) :
  spanningTree rnd size isWrapping = Some st →
  square size (walkConnections st) ∧
  (∀ x, inGrid size x → 0 ≤ connAt (walkConnections st) x < 16) ∧
  totalBits size (walkConnections st) = 2 * size * size - 2.
Proof.
  unfold spanningTree.
  set (start := (randomInt rnd 0 size, randomInt rnd 1 size)).
  set (init := mkWalk (matrix size 0)
                 (markAt (matrix size false) start.1 start.2) [start] 2).
  intros Hwalk.
  assert (inGrid size start) as Hstart
    by (split; simpl; by apply randomInt_range).
  pose proof (walkInv_init size isWrapping size_pos start 2 Hstart) as Hinit.
  assert (square size (matrix size false)) as Hsq
    by (apply square_matrix; lia).
  assert (∀ x, inGrid size x → connAt (matrix size 0) x = 0) as Hzero.
  { intros [r c] Hx. unfold connAt, connectionAt. simpl.
    by rewrite cell_matrix. }
  assert (treeInv size init) as Htree.
  { split; cbn [walkConnections walkVisited init].
    - intros x Hx _. by apply Hzero.
    - assert (seenAt (matrix size false) start = false) as Hv.
      { unfold seenAt, visitedAt. destruct start. by rewrite cell_matrix. }
      pose proof (unvisited_markAt_exact (matrix size false) start Hsq Hstart
                    Hv) as Hexact.
      assert (unvisited size (matrix size false) = allCoords size) as Hall.
      { unfold unvisited. apply filter_all.
        intros [r c] Hx. apply allCoords_elem in Hx.
        unfold seenAt, visitedAt. simpl. by rewrite cell_matrix. }
      rewrite Hall, length_allCoords in Hexact.
      assert (totalBits size (matrix size 0) = 0) as ->.
      { unfold totalBits.
        rewrite (sumOver_ext _ (λ _, 0)).
        - generalize (allCoords size). induction l; simpl; lia.
        - intros x Hx. apply allCoords_elem in Hx. by rewrite Hzero. }
      apply (f_equal Z.of_nat) in Hexact.
      rewrite Nat2Z.inj_succ, Nat2Z.inj_mul, !Z2Nat.id in Hexact by lia.
      lia. }
  destruct (spanningWalk_inv rnd size isWrapping start
              (2 * Z.to_nat size * Z.to_nat size) init Hinit)
    as (st1 & Hwalk1 & Hinv & Hend).
  { unfold walkMeasure, init; cbn [walkVisited walkStack length].
    assert (seenAt (matrix size false) start = false) as Hv.
    { unfold seenAt, visitedAt. destruct start. by rewrite cell_matrix. }
    pose proof (unvisited_markAt size (matrix size false) start Hsq Hstart Hv)
      as Hlt.
    assert (length (unvisited size (matrix size false))
            ≤ Z.to_nat size * Z.to_nat size)%nat as Hall.
    { unfold unvisited. rewrite <- length_allCoords. apply length_filter. }
    lia. }
  change (spanningWalk rnd (2 * Z.to_nat size * Z.to_nat size) size isWrapping
            init = Some st) in Hwalk.
  rewrite Hwalk1 in Hwalk. injection Hwalk as ->.
  pose proof (spanningWalk_tree start _ init st Hinit Htree Hwalk1)
    as (_ & Hsum).
  pose proof (walk_end_all_seen start st Hinv Hend) as Hseen.
  destruct Hinv as ((Hsqc & _ & Hrange) & _).
  split; [done |]. split; [done |].
  assert (unvisited size (walkVisited st) = []) as Hnil.
  { unfold unvisited. apply filter_none.
    intros x Hx. apply allCoords_elem in Hx. rewrite (Hseen x Hx). done. }
  rewrite Hnil in Hsum. simpl in Hsum. lia.
Qed.

End Tree.

(** The second block's generator returns a tree: its grid carries exactly
    two stubs for each of its [size * size - 1] edges. *)
Lemma Legacy_generateGrid_stubs (rnd : nat → nat) (size : Z)
    (isWrapping : bool) (grid : Grid) (solution : list (list Z))
    (serverCoords : Coords) (terminals : list Coords) :
  2 ≤ size →
  Legacy.generateGrid rnd size isWrapping
    = Some (grid, solution, serverCoords, terminals) →
  totalStubs size grid = 2 * size * size - 2.
Proof.
  intros Hs Hgen.
  assert (0 < size) as Hpos by lia.
  change (Legacy.generateGrid rnd size isWrapping)
    with (if size <=? 0 then None
          else walked ← spanningTree rnd size isWrapping;
               finishGrid rnd size (walkConnections walked) (walkDraws walked))
    in Hgen.
  rewrite (proj2 (Z.leb_gt size 0)) in Hgen by lia.
  apply bind_Some in Hgen as (st & Hst & Hfin).
  destruct (spanningTree_spec rnd size isWrapping Hpos)
    as (st' & start & Hst' & Hinv & Hstart & Hlinked).
  rewrite Hst in Hst'. injection Hst' as <-.
  destruct (spanningTree_totalBits rnd size isWrapping Hpos st Hst)
    as (Hsq & _ & Hbits).
  destruct (finishGrid_spec rnd size (walkConnections st) (walkDraws st)
              Hpos Hsq) as (grid' & sc' & Hfin' & _ & _ & Htiles).
  rewrite Hfin in Hfin'. injection Hfin' as <- _ _ _.
  rewrite <- Hbits. unfold totalStubs, totalBits. apply sumOver_ext.
  intros x Hx. apply allCoords_elem in Hx.
  destruct (Htiles x Hx) as (tile & -> & Hty & _). simpl. rewrite Hty.
  apply stubs_solvedTile.
  by apply (conn_nonzero size isWrapping _ start).
Qed.

(** ** The hint *)

Lemma square_setRotation (size : Z) (grid : Grid) (r c rot : Z) :
  square size grid → square size (setRotation grid r c rot).
Proof.
  intros H. unfold setRotation. case_match; [done | by apply square_alter].
Qed.

Section Hint.

Variable s : App.State.
Hypothesis Hwf : wfState s.

Local Abbreviation size := (App.gridSize s).
Local Abbreviation grid := (App.grid s).
Local Abbreviation solution := (App.solution s).
Local Abbreviation serverCoords := (App.serverCoords s).
Local Abbreviation isWrapping := (App.isWrapping s).

Lemma gridAfterHint_total (x : Coords) :
  inGrid size x → is_Some (gridAfterHint s x).
Proof.
  intros Hx. destruct Hwf as (Hg & Hs & Hsrv). unfold gridAfterHint.
  destruct (cell_is_Some _ _ x Hs Hx) as [rot ->]. cbn [mbind option_bind].
  apply checkConnectivity_total.
  pose proof (square_setRotation _ _ x.1 x.2 rot Hg) as Hsq.
  assert (Z.of_nat (length (setRotation (App.grid s) x.1 x.2 rot))
          = App.gridSize s) as Hlen by apply Hsq.
  split; by rewrite Hlen.
Qed.

Lemma collectIncorrect_spec (coords : list Coords) :
  (∀ x, x ∈ coords → inGrid size x) →
  ∃ l, collectIncorrect grid solution coords = Some l ∧
       ∀ x, x ∈ l ↔ x ∈ coords ∧ incorrectAt grid solution x.
Proof.
  destruct Hwf as (Hg & Hs & _).
  induction coords as [|[r c] coords IH]; intros Hin.
  - exists []. split; [done |]. intros x. split; [| by intros [? _]].
    intros Hx. by apply elem_of_nil in Hx.
  - destruct IH as (l & Hl & Hspec); [intros x Hx; apply Hin; by right |].
    assert (inGrid size (r, c)) as Hrc by (apply Hin; left).
    destruct (cell_is_Some _ _ (r, c) Hg Hrc) as [t Ht].
    destruct (cell_is_Some _ _ (r, c) Hs Hrc) as [rot Hrot].
    pose proof Hrot as Hrot'.
    apply cell_Some in Hrot' as (row & Hrow & Hrowc). simpl in *.
    rewrite Ht. cbn [mbind option_bind].
    destruct (isServer t) eqn:Hsrv.
    + exists l. split; [done |]. intros x. rewrite Hspec, elem_of_cons.
      split; [tauto |]. intros [[->|Hx] Hinc]; [| done].
      destruct Hinc as (t' & _ & Ht' & Hns & _). simpl in Ht'. congruence.
    + rewrite Hrow, Hl. cbn [mbind option_bind]. rewrite Hrowc.
      case_bool_decide as Heq.
      * exists l. split; [done |]. intros x. rewrite Hspec, elem_of_cons.
        split; [tauto |]. intros [[->|Hx] Hinc]; [| done].
        destruct Hinc as (t' & rot' & Ht' & _ & Hrot' & Hne). simpl in *.
        congruence.
      * exists ((r, c) :: l). split; [done |]. intros x.
        rewrite !elem_of_cons, Hspec. split; [| tauto].
        intros [->|Hx]; [| tauto]. split; [by left |].
        exists t, rot. simpl. split_and!; try done. congruence.
Qed.

Lemma tryHints_spec (previous : Z) (l : list Coords) (best : BestHint) :
  (∀ x, x ∈ l → inGrid size x) →
  ∃ best',
    tryHints grid solution serverCoords isWrapping previous l best
      = Some best' ∧
    best.2 ≤ best'.2 ∧
    (∀ y, y ∈ l → countAfterHint s y - previous ≤ best'.2) ∧
    (best' = best ∨
     ∃ x, x ∈ l ∧ best' = (Some x, countAfterHint s x - previous)).
Proof.
  revert best. induction l as [|[r c] l IH]; intros best Hin.
  - exists best. split; [done |]. split; [lia |]. split; [| by left].
    intros y Hy. by apply elem_of_nil in Hy.
  - assert (inGrid size (r, c)) as Hrc by (apply Hin; left).
    destruct (gridAfterHint_total (r, c) Hrc) as [g Hg].
    assert (countAfterHint s (r, c) = countConnected g) as Hcount
      by (unfold countAfterHint; by rewrite Hg).
    unfold gridAfterHint in Hg. simpl in Hg.
    apply bind_Some in Hg as (rot & Hrot & Hg).
    simpl. rewrite Hrot. cbn [mbind option_bind]. rewrite Hg.
    cbn [mbind option_bind].
    match goal with |- context [tryHints _ _ _ _ _ l ?b] =>
      destruct (IH b) as (best' & Hbest' & Hle & Hmax & Hfrom) end.
    { intros x Hx. apply Hin. by right. }
    exists best'. split; [done |]. rewrite <- Hcount in *.
    destruct (Z.gtb_spec (countAfterHint s (r, c) - previous) best.2)
      as [Hgt|Hngt]; simpl in *.
    + split; [lia |]. split.
      * intros y Hy. apply elem_of_cons in Hy as [->|Hy]; [lia | auto].
      * right. destruct Hfrom as [->|(x & Hx & ->)].
        -- exists (r, c). split; [by left | done].
        -- exists x. split; [by right | done].
    + split; [lia |]. split.
      * intros y Hy. apply elem_of_cons in Hy as [->|Hy]; [lia | auto].
      * destruct Hfrom as [->|(x & Hx & ->)]; [by left |].
        right. exists x. split; [by right | done].
Qed.

Lemma isAdjacent_total (r c : Z) (keys : list DirKey) :
  inGrid size (r, c) →
  is_Some (isAdjacent grid size isWrapping r c keys).
Proof.
  intros Hrc. destruct Hwf as (Hg & _).
  induction keys as [|key keys IH]; simpl; [eauto |].
  destruct (neighbour size isWrapping r c (DIRECTIONS key)) as [[nr nc]|] eqn:Hn;
    [| done].
  apply neighbour_inGrid in Hn; [| done].
  destruct (cell_is_Some _ _ (nr, nc) Hg Hn) as [t Ht]. simpl in Ht.
  rewrite Ht. cbn [mbind option_bind].
  destruct (connected t); eauto.
Qed.

Lemma findAdjacent_spec (l : list Coords) :
  (∀ x, x ∈ l → inGrid size x) →
  findAdjacent grid size isWrapping l = Some None ∨
  ∃ x, x ∈ l ∧ findAdjacent grid size isWrapping l = Some (Some x).
Proof.
  induction l as [|[r c] l IH]; intros Hin; [by left |].
  cbn [findAdjacent].
  destruct (isAdjacent_total r c dirKeys) as [b ->]; [apply Hin; left |].
  cbn [mbind option_bind]. destruct b.
  - right. exists (r, c). split; [by left | done].
  - destruct IH as [->|(x & Hx & ->)]; [intros x Hx; apply Hin; by right | |].
    + by left.
    + right. exists x. split; [by right | done].
Qed.

Lemma chooseHint_spec (l : list Coords) :
  l ≠ [] → (∀ x, x ∈ l → inGrid size x) →
  ∃ x,
    chooseHint grid solution serverCoords isWrapping size l = Some (Some x) ∧
    x ∈ l ∧
    ∀ y, y ∈ l → countConnected grid < countAfterHint s y →
         countAfterHint s y ≤ countAfterHint s x.
Proof.
  intros Hne Hin. unfold chooseHint.
  destruct (tryHints_spec (countConnected grid) l (None, -1) Hin)
    as (best & -> & Hle & Hmax & Hfrom).
  cbn [mbind option_bind].
  destruct (Z.leb_spec best.2 0) as [Hneg|Hpos].
  - rewrite orb_true_r.
    assert (∀ y, y ∈ l → countConnected grid < countAfterHint s y → False)
      as Hnone.
    { intros y Hy Hgain. specialize (Hmax y Hy). lia. }
    destruct (findAdjacent_spec l Hin) as [->|(x & Hx & ->)];
      cbn [mbind option_bind].
    + destruct l as [|x l]; [done |]. exists x. simpl.
      split; [done |]. split; [by left |]. intros y Hy Hgain.
      by destruct (Hnone y Hy Hgain).
    + exists x. split; [done |]. split; [done |]. intros y Hy Hgain.
      by destruct (Hnone y Hy Hgain).
  - destruct Hfrom as [->|(x & Hx & ->)]; [simpl in Hpos; lia |].
    cbn [fst snd] in *. rewrite bool_decide_eq_false_2 by done. cbn [orb].
    exists x. split; [done |]. split; [done |].
    intros y Hy _. specialize (Hmax y Hy). lia.
Qed.

End Hint.

(** C4, as amended: in a well-formed session that is not won and has an
    incorrect tile, the hint returns, reports the coordinate of an incorrect
    tile, and leaves the grid the Evaluator computes once that tile is set to
    its Solution rotation.  If correcting some incorrect tile would raise the
    number of connected cells, the hint raises it by the greatest such
    amount; otherwise nothing is promised about the count. *)
Theorem hint_corrects_an_incorrect_tile (s : App.State) :
  wfState s → App.isWon s = false →
  (∃ x, incorrectAt (App.grid s) (App.solution s) x) →
  ∃ x s',
    App.handleHintClick s = Some s' ∧
    App.hintedTile s' = Some x ∧
    incorrectAt (App.grid s) (App.solution s) x ∧
    gridAfterHint s x = Some (App.grid s') ∧
    ∀ y, incorrectAt (App.grid s) (App.solution s) y →
         countConnected (App.grid s) < countAfterHint s y →
         countAfterHint s y ≤ countConnected (App.grid s').
Proof.
  intros Hwf Hwon [x0 Hx0]. unfold App.handleHintClick. rewrite Hwon.
  destruct (collectIncorrect_spec s Hwf (allCoords (App.gridSize s)))
    as (l & -> & Hl); [intros x; apply allCoords_elem |].
  cbn [mbind option_bind].
  assert (∀ x, incorrectAt (App.grid s) (App.solution s) x → x ∈ l) as Hinc.
  { intros x Hx. apply Hl. split; [| done]. apply allCoords_elem.
    destruct Hx as (t & _ & Ht & _). destruct x.
    apply (cell_inGrid _ (App.grid s)); [apply Hwf | eauto]. }
  assert (l ≠ []) as Hne.
  { intros ->. apply Hinc in Hx0. by apply elem_of_nil in Hx0. }
  rewrite bool_decide_eq_false_2 by done.
  destruct (chooseHint_spec s Hwf l Hne) as (x & -> & Hx & Hmax).
  { intros y Hy. by apply allCoords_elem, Hl. }
  cbn [mbind option_bind]. destruct x as [r c].
  destruct (gridAfterHint_total s Hwf (r, c)) as [g Hg];
    [by apply allCoords_elem, Hl |].
  pose proof Hg as Hg'. unfold gridAfterHint in Hg'. simpl in Hg'.
  apply bind_Some in Hg' as (rot & Hrot & Hcc).
  rewrite Hrot. cbn [mbind option_bind]. rewrite Hcc. cbn [mbind option_bind].
  exists (r, c). eexists. split; [done |]. simpl.
  split; [done |]. split; [by apply Hl |]. split; [done |].
  intros y Hy Hgain. specialize (Hmax y (Hinc y Hy) Hgain).
  unfold countAfterHint in Hmax at 2. by rewrite Hg in Hmax.
Qed.

Lemma hint_corrects_an_incorrect_tile_witness :
  ∃ x s',
    App.handleHintClick hintDropState = Some s' ∧
    App.hintedTile s' = Some x ∧
    incorrectAt (App.grid hintDropState) (App.solution hintDropState) x ∧
    gridAfterHint hintDropState x = Some (App.grid s') ∧
    ∀ y, incorrectAt (App.grid hintDropState) (App.solution hintDropState) y →
         countConnected (App.grid hintDropState) < countAfterHint hintDropState y →
         countAfterHint hintDropState y ≤ countConnected (App.grid s').
Proof.
  apply (hint_corrects_an_incorrect_tile hintDropState).
  - split_and!; [split; [reflexivity | repeat constructor]
                | split; [reflexivity | repeat constructor]
                | unfold inGrid; simpl; lia].
  - reflexivity.
  - exists (0, 1), (mkTile STRAIGHT 0 true false), 1. split_and!; done.
Defined.

(** C4, as stated, fails: in the session [hintDropState], which is not won
    and has three incorrect tiles, the hint corrects the tile at [(0, 1)],
    and the number of connected cells drops from 6 to 5.  The grid of the
    session is the Evaluator's own output, and its Solution, tile kinds,
    server and terminals are those [generateGrid] returns for the draws
    [hintDropDraws]. *)
Lemma hint_can_disconnect :
  wfState hintDropState ∧
  App.isWon hintDropState = false ∧
  isWinConditionMet hintDropGrid [(0, 0); (4, 0)] false = Some false ∧
  checkConnectivity hintDropGrid (1, 0) false = Some hintDropGrid ∧
  (∃ grid,
     generateGrid hintDropDraws 5 false
       = Some (grid, hintDropSolution, (1, 0), [(0, 0); (4, 0)]) ∧
     map (map type) grid = map (map type) hintDropGrid ∧
     map (map isServer) grid = map (map isServer) hintDropGrid) ∧
  incorrectAt hintDropGrid hintDropSolution (0, 1) ∧
  ∃ s',
    App.handleHintClick hintDropState = Some s' ∧
    App.hintedTile s' = Some (0, 1) ∧
    countConnected (App.grid hintDropState) = 6 ∧
    countConnected (App.grid s') = 5.
Proof.
  split_and!.
  - split_and!; [split; [reflexivity | repeat constructor]
                | split; [reflexivity | repeat constructor]
                | unfold inGrid; simpl; lia].
  - reflexivity.
  - vm_compute. reflexivity.
  - vm_compute. reflexivity.
  - eexists. split_and!; vm_compute; reflexivity.
  - exists (mkTile STRAIGHT 0 true false), 1. split_and!; done.
  - eexists. split_and!; vm_compute; reflexivity.
Qed.

(** ** The two blocks of the source *)

Lemma Legacy_checkConnectivity_eq (grid : Grid) (serverCoords : Coords)
    (isWrapping : bool) :
  Legacy.checkConnectivity grid serverCoords isWrapping
  = checkConnectivity grid serverCoords isWrapping.
Proof. reflexivity. Qed.

Lemma Legacy_chooseHint_eq (grid : Grid) (solution : list (list Z))
    (serverCoords : Coords) (isWrapping : bool) (gridSize : Z)
    (incorrectTiles : list Coords) :
  Legacy.chooseHint grid solution serverCoords isWrapping gridSize
    incorrectTiles
  = chooseHint grid solution serverCoords isWrapping gridSize incorrectTiles.
Proof. reflexivity. Qed.

Lemma Legacy_collectIncorrect_eq (grid : Grid) (solution : list (list Z))
    (coords : list Coords) :
  Legacy.collectIncorrect grid solution coords
  = collectIncorrect grid solution coords.
Proof. reflexivity. Qed.

Lemma Legacy_handleHintClick_eq (s : App.State) :
  Legacy.handleHintClick s
  = if App.isWon s then Some s
    else (λ s', App.setScore s' (λ _, App.score s)) <$> App.handleHintClick s.
Proof.
  unfold Legacy.handleHintClick, App.handleHintClick.
  destruct (App.isWon s); [done |].
  rewrite Legacy_collectIncorrect_eq.
  change (App.grid (App.setScore s _)) with (App.grid s).
  destruct (collectIncorrect (App.grid s) (App.solution s)
              (allCoords (App.gridSize s))) as [l|]; [| done].
  cbn [mbind option_bind]. case_bool_decide.
  { by destruct s. }
  rewrite Legacy_chooseHint_eq.
  destruct (chooseHint (App.grid s) (App.solution s) (App.serverCoords s)
              (App.isWrapping s) (App.gridSize s) l) as [[[r c]|]|];
    cbn [mbind option_bind fmap option_fmap option_map]; [| by destruct s | done].
  destruct (cell (App.solution s) r c) as [rot|];
    cbn [mbind option_bind fmap option_fmap option_map]; [| done].
  rewrite Legacy_checkConnectivity_eq.
  destruct (checkConnectivity (setRotation (App.grid s) r c rot)
              (App.serverCoords s) (App.isWrapping s)) as [g|];
    cbn [mbind option_bind fmap option_fmap option_map]; [| done].
  by destruct s.
Qed.

Lemma Legacy_generateGrid_eq (rnd : nat → nat) (size : Z) (isWrapping : bool) :
  Legacy.generateGrid rnd size isWrapping
  = if size <=? 0 then None
    else
      walked ← spanningTree rnd size isWrapping;
      cd ← densify rnd 0 size isWrapping
              (walkConnections walked, walkDraws walked);
      finishGrid rnd size cd.1 cd.2.
Proof. reflexivity. Qed.

(** C5, as amended: the two [checkConnectivity] compute the same function
    on every input; the two hint handlers return the same state on every
    input, but for the score, which only the first keeps (it deducts 250
    unless the game is won); the second [generateGrid] is the first with no
    round of densification, and is not the same function. *)
Theorem blocks_agree_but_for_densification :
  (∀ grid serverCoords isWrapping,
     Legacy.checkConnectivity grid serverCoords isWrapping
     = checkConnectivity grid serverCoords isWrapping) ∧
  (∀ s,
     Legacy.handleHintClick s
     = if App.isWon s then Some s
       else (λ s', App.setScore s' (λ _, App.score s))
              <$> App.handleHintClick s) ∧
  (∀ rnd size isWrapping,
     Legacy.generateGrid rnd size isWrapping
     = if size <=? 0 then None
       else
         walked ← spanningTree rnd size isWrapping;
         cd ← densify rnd 0 size isWrapping
                 (walkConnections walked, walkDraws walked);
         finishGrid rnd size cd.1 cd.2).
Proof.
  split_and!.
  - apply Legacy_checkConnectivity_eq.
  - apply Legacy_handleHintClick_eq.
  - apply Legacy_generateGrid_eq.
Qed.

(** C5, as stated, fails.  Take a bounded 5 by 5 grid and the draws
    [extraEdgeDraws]: all 0, but the 29th, which is 1.  Both blocks walk the
    same serpentine path from [(0, 0)].  In the first block the 29th draw is
    the direction picked by the first round of densification, south from
    [(0, 0)]: the start cell becomes a corner, and [(4, 0)] is the only
    terminal.  The second block has no such round, and returns the two ends
    of the path as terminals.  Nor is the difference one of alignment of the
    draws: the grid the first block returns here carries 50 stubs, and the
    second block, whatever the draws, returns a tree, with 48. *)
Lemma generateGrid_blocks_differ :
  (snd <$> generateGrid extraEdgeDraws 5 false = Some [(4, 0)]) ∧
  (snd <$> Legacy.generateGrid extraEdgeDraws 5 false
   = Some [(0, 0); (4, 0)]) ∧
  generateGrid extraEdgeDraws 5 false
  ≠ Legacy.generateGrid extraEdgeDraws 5 false ∧
  ∀ rnd, Legacy.generateGrid rnd 5 false ≠ generateGrid extraEdgeDraws 5 false.
Proof.
  assert (snd <$> generateGrid extraEdgeDraws 5 false = Some [(4, 0)])
    as H1 by (vm_compute; reflexivity).
  assert (snd <$> Legacy.generateGrid extraEdgeDraws 5 false
          = Some [(0, 0); (4, 0)]) as H2 by (vm_compute; reflexivity).
  split_and!; [done | done | |].
  - intros Heq.
    pose proof (eq_trans (eq_sym H1) (eq_trans (f_equal (fmap snd) Heq) H2))
      as Hterminals.
    discriminate Hterminals.
  - intros rnd Heq.
    assert (from_option (λ out, totalStubs 5 out.1.1.1) 0
              (generateGrid extraEdgeDraws 5 false) = 50) as Hstubs
      by (vm_compute; reflexivity).
    destruct (generateGrid extraEdgeDraws 5 false)
      as [[[[grid solution] serverCoords] terminals]|]; [| discriminate].
    apply Legacy_generateGrid_stubs in Heq; [| lia].
    simpl in Hstubs. lia.
Qed.

Lemma rtc_mutual_marked (grid : Grid) (size : Z) (isWrapping : bool)
    (serverCoords : Coords) (cs : gset Coords) (x : Coords) :
  serverCoords ∈ cs →
  is_Some (cell grid serverCoords.1 serverCoords.2) →
  (∀ x y, x ∈ cs → mutual grid size isWrapping x y → y ∈ cs) →
  rtc (mutual grid size isWrapping) serverCoords x →
  x ∈ cs ∧ is_Some (cell grid x.1 x.2).
Proof.
  intros Hs Hcell Hclosed Hrtc. revert x Hrtc.
  apply (rtc_ind_r (λ z, z ∈ cs ∧ is_Some (cell grid z.1 z.2))); [done |].
  intros y z _ Hyz [Hy _]. split; [by apply (Hclosed y) |].
  by destruct Hyz as (key & _ & _ & Hz & _).
Qed.

Lemma sameButConnected_cell (g1 g2 : Grid) (r c : Z) :
  sameButConnected g1 g2 →
  option_Forall2 sameTile (cell g1 r c) (cell g2 r c).
Proof.
  intros Hsame. unfold cell, readAt.
  destruct (r <? 0); [constructor |].
  destruct (proj1 (Forall2_lookup _ _ _) Hsame (Z.to_nat r))
    as [row1 row2 Hrows|]; [| constructor]. simpl.
  destruct (c <? 0); [constructor |].
  apply (proj1 (Forall2_lookup _ _ _) Hrows).
Qed.

Lemma sameButConnected_masks (g1 g2 : Grid) :
  sameButConnected g1 g2 → sameMasks g1 g2.
Proof.
  intros Hsame r c.
  destruct (sameButConnected_cell g1 g2 r c Hsame) as [t1 t2 H|]; [| done].
  simpl. f_equal. destruct H as (Ht & Hr & _).
  unfold tileConnections. by rewrite Ht, Hr.
Qed.

Lemma sameButConnected_markConnected (cs : gset Coords) (g1 g2 : Grid) :
  sameButConnected g1 g2 → markConnected cs g1 = markConnected cs g2.
Proof.
  intros Hsame. unfold markConnected.
  apply list_eq. intros i. rewrite !list_lookup_imap.
  destruct (proj1 (Forall2_lookup _ _ _) Hsame i) as [row1 row2 Hrows|];
    [| done].
  simpl. f_equal.
  apply list_eq. intros j. rewrite !list_lookup_imap.
  destruct (proj1 (Forall2_lookup _ _ _) Hrows j)
    as [t1 t2 (Ht & Hrot & Hsrv)|]; [| done].
  simpl. by rewrite Ht, Hrot, Hsrv.
Qed.

Lemma checkConnectivity_flags (g1 g2 : Grid) (serverCoords : Coords)
    (isWrapping : bool) :
  sameButConnected g1 g2 →
  checkConnectivity g1 serverCoords isWrapping
  = checkConnectivity g2 serverCoords isWrapping.
Proof.
  intros Hsame. unfold checkConnectivity.
  rewrite <- (Forall2_length _ _ _ Hsame).
  rewrite (bfsLoop_ext g1 g2) by by apply sameButConnected_masks.
  destruct (bfsLoop _ g2 _ _ _) as [cs|]; [| done]. simpl.
  by rewrite (sameButConnected_markConnected cs g1 g2).
Qed.

Lemma checkConnectivity_inGrid (grid grid' : Grid) (serverCoords : Coords)
    (isWrapping : bool) :
  checkConnectivity grid serverCoords isWrapping = Some grid' →
  is_Some (cell grid serverCoords.1 serverCoords.2).
Proof.
  intros H. apply checkConnectivity_Some in H as (cs & H & _).
  destruct (length grid * length grid)%nat; [done |].
  simpl in H. apply bind_Some in H as (st' & H & _).
  unfold bfsStep in H. simpl in H. destruct serverCoords as [r c].
  apply bind_Some in H as (t & H & _). simpl. by rewrite H.
Qed.

(** X1 (the Evaluator marks exactly the reachable cells): on every
    well-formed input the Evaluator returns a grid in which a cell is marked
    connected if and only if a chain of mutual-agreement edges of the input
    grid leads from the server cell to it. *)
Theorem evaluator_marks_exactly_reachable (grid : Grid) (serverCoords : Coords)
    (isWrapping : bool) :
  wellFormed grid serverCoords →
  ∃ grid',
    checkConnectivity grid serverCoords isWrapping = Some grid' ∧
    ∀ x, connectedAt grid' x = true ↔
         rtc (mutual grid (Z.of_nat (length grid)) isWrapping) serverCoords x.
Proof.
  intros Hwf.
  destruct (checkConnectivity_total grid serverCoords isWrapping Hwf)
    as [grid' H].
  exists grid'. split; [done |].
  apply checkConnectivity_Some in H as (cs & Hloop & ->).
  apply bfsLoop_result in Hloop as (Hs & Hclosed & Hsound).
  intros x. rewrite connectedAt_markConnected_true. split.
  - intros [Hx _]. by apply Hsound.
  - apply rtc_mutual_marked; [done | | done].
    destruct Hwf as [Hsq Hin]. by apply (cell_is_Some _ _ _ Hsq).
Qed.

Lemma evaluator_marks_exactly_reachable_witness :
  ∃ grid',
    checkConnectivity sampleGrid (0, 0) false = Some grid' ∧
    ∀ x, connectedAt grid' x = true ↔
         rtc (mutual sampleGrid (Z.of_nat (length sampleGrid)) false) (0, 0) x.
Proof.
  apply (evaluator_marks_exactly_reachable sampleGrid (0, 0) false).
  split; [split; [reflexivity | repeat constructor] |].
  unfold inGrid; simpl; lia.
Defined.

(** X2 (the Evaluator ignores the flags it is given): two grids that differ
    at most in their [connected] flags get the same result from the
    Evaluator, whether a grid or a failure. *)
Theorem evaluator_ignores_flags (g1 g2 : Grid) (serverCoords : Coords)
    (isWrapping : bool) :
  sameButConnected g1 g2 →
  checkConnectivity g1 serverCoords isWrapping
  = checkConnectivity g2 serverCoords isWrapping.
Proof. apply checkConnectivity_flags. Qed.

(** X3 (when the Evaluator returns): on a square grid the Evaluator returns
    a grid exactly when the server coordinate is a cell of the grid; a server
    coordinate outside the grid makes it fail on its first read. *)
Theorem evaluator_defined_iff_server_in_grid (grid : Grid)
    (serverCoords : Coords) (isWrapping : bool) :
  square (Z.of_nat (length grid)) grid →
  is_Some (checkConnectivity grid serverCoords isWrapping) ↔
  inGrid (Z.of_nat (length grid)) serverCoords.
Proof.
  intros Hsq. split.
  - intros [grid' H]. apply checkConnectivity_inGrid in H.
    apply (cell_inGrid _ _ _ _ Hsq) in H. by destruct serverCoords.
  - intros Hin. by apply checkConnectivity_total.
Qed.

Lemma evaluator_ignores_flags_witness :
  checkConnectivity sampleGrid (0, 0) false
  = checkConnectivity (map (map (withConnected true)) sampleGrid) (0, 0) false.
Proof.
  apply (evaluator_ignores_flags sampleGrid
           (map (map (withConnected true)) sampleGrid) (0, 0) false).
  repeat constructor.
Defined.

Lemma evaluator_defined_iff_server_in_grid_witness :
  is_Some (checkConnectivity sampleGrid (1, 3) true) ↔
  inGrid (Z.of_nat (length sampleGrid)) (1, 3).
Proof.
  apply (evaluator_defined_iff_server_in_grid sampleGrid (1, 3) true).
  split; [reflexivity | repeat constructor].
Defined.

(** X4 (steps of the topology can be retraced): from a cell of the grid,
    wrap mode has a neighbour in every direction; in either mode a neighbour
    is again a cell of the grid, and the step in the opposite direction leads
    back from it. *)
Theorem topology_step_back (size : Z) (isWrapping : bool) (x : Coords)
    (key : DirKey) :
  inGrid size x →
  is_Some (neighbour size true x.1 x.2 (DIRECTIONS key)) ∧
  ∀ y, neighbour size isWrapping x.1 x.2 (DIRECTIONS key) = Some y →
       inGrid size y ∧
       neighbour size isWrapping y.1 y.2 (DIRECTIONS (from (DIRECTIONS key)))
       = Some x.
Proof.
  intros Hx. split; [done |]. intros y Hy. split.
  - destruct x as [r c]. by apply (neighbour_inGrid size isWrapping r c key).
  - by apply neighbour_sym.
Qed.

Lemma topology_step_back_witness :
  is_Some (neighbour 5 true (0, 4).1 (0, 4).2 (DIRECTIONS DirE)) ∧
  ∀ y, neighbour 5 true (0, 4).1 (0, 4).2 (DIRECTIONS DirE) = Some y →
       inGrid 5 y ∧
       neighbour 5 true y.1 y.2 (DIRECTIONS (from (DIRECTIONS DirE)))
       = Some (0, 4).
Proof.
  apply (topology_step_back 5 true (0, 4) DirE).
  unfold inGrid; simpl; lia.
Defined.

Lemma indexOfFrom_range (i x : Z) (l : list Z) :
  indexOfFrom i x l = -1 ∨ i ≤ indexOfFrom i x l < i + Z.of_nat (length l).
Proof.
  revert i. induction l as [| y l IH]; intros i; simpl; [by left |].
  destruct (y =? x); [right; lia |].
  destruct (IH (i + 1)) as [-> | H]; [by left | right; lia].
Qed.

Lemma solvedTile_rotation (m : Z) : 0 ≤ (solvedTile m).2 < 4.
Proof.
  unfold solvedTile, indexOf. simpl.
  destruct (indexOfFrom_range 0 m (TILE_CONNECTIONS (typeOfConnection m)))
    as [-> | H]; [done |].
  assert (length (TILE_CONNECTIONS (typeOfConnection m)) = 4%nat) as Hlen
    by by destruct (typeOfConnection m).
  rewrite Hlen in H.
  destruct (_ =? -1) eqn:E; lia.
Qed.

Lemma scrambleRow_rotations (rnd : nat → nat) (serverCoords : Coords)
    (r c : Z) (row : list (TileType * Z)) (draws : nat) :
  Forall (λ t, 0 ≤ t.2 < 4) row →
  Forall (λ tile, 0 ≤ rotation tile < 4)
    (scrambleRow rnd serverCoords r c row draws).1.
Proof.
  intros Hrow. revert c draws.
  induction Hrow as [| t row Ht _ IH]; intros c draws; simpl; [done |].
  constructor; [| apply IH]. simpl.
  destruct (_ && _); [done |]. by apply randomInt_range.
Qed.

Lemma scrambleRows_rotations (rnd : nat → nat) (serverCoords : Coords)
    (r : Z) (rows : list (list (TileType * Z))) (draws : nat) :
  Forall (Forall (λ t, 0 ≤ t.2 < 4)) rows →
  Forall (Forall (λ tile, 0 ≤ rotation tile < 4))
    (scrambleRows rnd serverCoords r rows draws).1.
Proof.
  intros Hrows. revert r draws.
  induction Hrows as [| row rows Hrow _ IH]; intros r draws; simpl; [done |].
  constructor; [by apply scrambleRow_rotations | apply IH].
Qed.

Lemma Forall_cell {A} (P : A → Prop) (m : list (list A)) (r c : Z) (x : A) :
  Forall (Forall P) m → cell m r c = Some x → P x.
Proof.
  intros Hm Hx. apply cell_Some in Hx as (row & Hrow & Hx).
  apply readAt_Some in Hrow as [_ Hrow]. apply readAt_Some in Hx as [_ Hx].
  rewrite Forall_forall in Hm.
  apply list_elem_of_lookup_2, Hm in Hrow. rewrite Forall_forall in Hrow.
  by apply list_elem_of_lookup_2, Hrow in Hx.
Qed.

Lemma solvedGrid_rotations (conn : list (list Z)) :
  Forall (Forall (λ t : TileType * Z, 0 ≤ t.2 < 4))
         (map (map solvedTile) conn).
Proof.
  apply Forall_forall. intros row Hrow.
  apply list_elem_of_fmap in Hrow as (row0 & -> & _).
  apply Forall_forall. intros t Ht.
  apply list_elem_of_fmap in Ht as (m & -> & _). apply solvedTile_rotation.
Qed.

Lemma finishGrid_rotations (rnd : nat → nat) (size : Z) (conn : list (list Z))
    (draws : nat) (grid : Grid) (solution : list (list Z))
    (serverCoords : Coords) (terminals : list Coords) :
  finishGrid rnd size conn draws
    = Some (grid, solution, serverCoords, terminals) →
  Forall (Forall (λ tile, 0 ≤ rotation tile < 4)) grid ∧
  Forall (Forall (λ rot, 0 ≤ rot < 4)) solution.
Proof.
  unfold finishGrid. intros H. apply bind_Some in H as (sc & _ & H).
  injection H as <- <- <- <-. split.
  - apply scrambleRows_rotations, solvedGrid_rotations.
  - apply Forall_forall. intros row Hrow.
    apply list_elem_of_fmap in Hrow as (row0 & -> & Hrow0).
    apply list_elem_of_fmap in Hrow0 as (row1 & -> & _).
    apply Forall_forall. intros rot Hrot.
    apply list_elem_of_fmap in Hrot as (t & -> & Ht).
    apply list_elem_of_fmap in Ht as (m & -> & _). apply solvedTile_rotation.
Qed.

Lemma generateGrid_finish (rnd : nat → nat) (size : Z) (isWrapping : bool)
    (out : Grid * list (list Z) * Coords * list Coords) :
  generateGrid rnd size isWrapping = Some out →
  ∃ conn draws,
    generateConnections rnd size isWrapping = Some (conn, draws) ∧
    finishGrid rnd size conn draws = Some out.
Proof.
  unfold generateGrid. destruct (size <=? 0); [done |].
  intros H. apply bind_Some in H as ([conn draws] & Hcd & H). eauto.
Qed.

Lemma generateGrid_puzzle (rnd : nat → nat) (size : Z) (isWrapping : bool) :
  0 < size →
  ∃ conn grid serverCoords,
    generateGrid rnd size isWrapping
    = Some (grid, map (map snd) (map (map solvedTile) conn), serverCoords,
            terminalsOf conn) ∧
    (∃ draws, generateConnections rnd size isWrapping = Some (conn, draws)) ∧
    puzzle size isWrapping conn ∧
    inGrid size serverCoords ∧
    square size grid ∧
    Forall (Forall (λ tile, 0 ≤ rotation tile < 4)) grid ∧
    ∀ x, inGrid size x →
      ∃ tile, cell grid x.1 x.2 = Some tile ∧
              scrambled (bool_decide (x = serverCoords))
                        (solvedTile (connAt conn x)) tile.
Proof.
  intros Hs.
  destruct (generateGrid_spec rnd size isWrapping Hs)
    as (conn & draws & start & grid & sc & Hconn & Hgen & Hinv & Hstart
        & Hlinked & Hsc & Hsq & Hgrid).
  exists conn, grid, sc. split_and!; try done.
  - by exists draws.
  - split; [done |]. by exists start.
  - apply generateGrid_finish in Hgen as (conn' & draws' & _ & Hfin).
    by apply finishGrid_rotations in Hfin as [? _].
Qed.

Lemma square_solution (size : Z) (conn : list (list Z)) :
  square size conn → square size (map (map snd) (map (map solvedTile) conn)).
Proof. intros. by do 2 apply square_fmap. Qed.

Lemma cell_solution (conn : list (list Z)) (r c : Z) :
  cell (map (map snd) (map (map solvedTile) conn)) r c
  = (λ m, (solvedTile m).2) <$> cell conn r c.
Proof. rewrite !cell_fmap. by destruct (cell conn r c). Qed.

(** X5 (shape of a generated puzzle): for every positive size, both wrap
    modes and every outcome of the draws, [generateGrid] returns a [size] by
    [size] grid and Solution and a server coordinate inside the grid; no tile
    is marked connected, the tile at the server coordinate is the only one
    flagged as server, every rotation of the grid and of the Solution is in
    0..3, the server tile is at its Solution rotation, and every listed
    terminal is a cell of the grid. *)
Theorem generateGrid_shape (rnd : nat → nat) (size : Z) (isWrapping : bool) :
  0 < size →
  ∃ grid solution serverCoords terminals,
    generateGrid rnd size isWrapping
      = Some (grid, solution, serverCoords, terminals) ∧
    square size grid ∧ square size solution ∧ inGrid size serverCoords ∧
    (∀ x tile, cell grid x.1 x.2 = Some tile →
       connected tile = false ∧
       isServer tile = bool_decide (x = serverCoords) ∧
       0 ≤ rotation tile < 4) ∧
    (∀ x rot, cell solution x.1 x.2 = Some rot → 0 ≤ rot < 4) ∧
    (∃ tile, cell grid serverCoords.1 serverCoords.2 = Some tile ∧
             cell solution serverCoords.1 serverCoords.2
             = Some (rotation tile)) ∧
    (∀ t, t ∈ terminals → inGrid size t).
Proof.
  intros Hs.
  destruct (generateGrid_puzzle rnd size isWrapping Hs)
    as (conn & grid & sc & Hgen & _ & [Hinv _] & Hsc & Hsq & Hrot & Hgrid).
  pose proof Hinv as (Hsqc & _ & _).
  eexists grid, _, sc, _. split; [exact Hgen |]. split_and!; try done.
  - by apply square_solution.
  - intros x tile Hx.
    assert (inGrid size x) as Hin.
    { destruct x. apply (cell_inGrid size grid); eauto. }
    destruct (Hgrid x Hin) as (tile' & Htile' & _ & Hc & Hsrv & _).
    assert (tile' = tile) as -> by congruence.
    split_and!; try done; by apply (Forall_cell _ _ _ _ _ Hrot Hx).
  - intros x rot Hx. rewrite cell_solution in Hx.
    destruct (cell conn x.1 x.2); [| done]. injection Hx as <-.
    apply solvedTile_rotation.
  - destruct (Hgrid sc Hsc) as (tile & Htile & _ & _ & _ & Hfix).
    exists tile. split; [done |]. rewrite cell_solution.
    destruct (cell_is_Some size conn sc Hsqc Hsc) as [m Hm].
    rewrite Hm. simpl. f_equal.
    rewrite Hfix by by apply bool_decide_eq_true_2.
    unfold connAt, connectionAt. by rewrite Hm.
  - intros t Ht. apply terminalsOf_elem in Ht.
    destruct t. by apply (cell_inGrid size conn).
Qed.

Lemma generateGrid_shape_witness :
  ∃ grid solution serverCoords terminals,
    generateGrid (λ k, (2 * k)%nat) 5 true
      = Some (grid, solution, serverCoords, terminals) ∧
    square 5 grid ∧ square 5 solution ∧ inGrid 5 serverCoords ∧
    (∀ x tile, cell grid x.1 x.2 = Some tile →
       connected tile = false ∧
       isServer tile = bool_decide (x = serverCoords) ∧
       0 ≤ rotation tile < 4) ∧
    (∀ x rot, cell solution x.1 x.2 = Some rot → 0 ≤ rot < 4) ∧
    (∃ tile, cell grid serverCoords.1 serverCoords.2 = Some tile ∧
             cell solution serverCoords.1 serverCoords.2
             = Some (rotation tile)) ∧
    (∀ t, t ∈ terminals → inGrid 5 t).
Proof. apply (generateGrid_shape (λ k, (2 * k)%nat) 5 true). lia. Defined.

Lemma terminalsOf_iff (connections : list (list Z)) (t : Coords) :
  t ∈ terminalsOf connections ↔
  ∃ m, cell connections t.1 t.2 = Some m ∧ numConnections m = 1.
Proof.
  unfold terminalsOf. split.
  - intros H. apply list_elem_of_join in H as (l & Ht & Hl).
    apply list_elem_of_lookup in Hl as [i Hi].
    rewrite list_lookup_imap in Hi.
    destruct (connections !! i) as [row|] eqn:Hrow; [| done].
    injection Hi as <-.
    apply list_elem_of_omap in Ht as (o & Ho & Hid).
    apply list_elem_of_lookup in Ho as [j Hj]. rewrite list_lookup_imap in Hj.
    destruct (row !! j) as [m|] eqn:Hm; [| done]. injection Hj as <-.
    simpl in Hid. destruct (numConnections m =? 1) eqn:E; [| done].
    injection Hid as <-. simpl.
    exists m. split; [| lia]. apply cell_Some. exists row.
    by rewrite !readAt_of_nat.
  - intros (m & Hm & Hone). destruct t as [r c]. simpl in Hm.
    apply cell_Some in Hm as (row & Hrow & Hm).
    apply readAt_Some in Hrow as [Hr Hrow]. apply readAt_Some in Hm as [Hc Hm].
    apply list_elem_of_join.
    exists (omap id (imap (λ c conn,
      if numConnections conn =? 1 then Some (Z.of_nat (Z.to_nat r), Z.of_nat c)
      else None) row)).
    split.
    + apply list_elem_of_omap. exists (Some (r, c)). split; [| done].
      apply list_elem_of_lookup. exists (Z.to_nat c).
      rewrite list_lookup_imap, Hm. simpl.
      rewrite Hone. simpl. by rewrite !Z2Nat.id.
    + apply list_elem_of_lookup. exists (Z.to_nat r).
      by rewrite list_lookup_imap, Hrow.
Qed.

Lemma solvedTile_terminal (m : Z) :
  1 ≤ m ≤ 15 → (solvedTile m).1 = TERMINAL ↔ numConnections m = 1.
Proof.
  intros Hm.
  assert (m = 1 ∨ m = 2 ∨ m = 3 ∨ m = 4 ∨ m = 5 ∨ m = 6 ∨ m = 7 ∨
          m = 8 ∨ m = 9 ∨ m = 10 ∨ m = 11 ∨ m = 12 ∨ m = 13 ∨ m = 14 ∨
          m = 15) as Hcases by lia.
  destruct_or!; subst m; done.
Qed.

Lemma puzzle_nonzero (size : Z) (isWrapping : bool) (conn : list (list Z))
    (x : Coords) :
  2 ≤ size → puzzle size isWrapping conn → inGrid size x →
  1 ≤ connAt conn x ≤ 15.
Proof.
  intros Hs (Hinv & start & Hstart & Hlinked).
  by apply (conn_nonzero size isWrapping conn start).
Qed.

Lemma connAt_cell (size : Z) (conn : list (list Z)) (x : Coords) :
  square size conn → inGrid size x → cell conn x.1 x.2 = Some (connAt conn x).
Proof.
  intros Hsq Hx. destruct (cell_is_Some size conn x Hsq Hx) as [m Hm].
  unfold connAt, connectionAt. by rewrite Hm.
Qed.

(** X6 (the terminal list is exact): for every size from 2 on, the
    terminals that [generateGrid] lists are exactly the cells that hold a
    tile of kind [TERMINAL]. *)
Theorem generated_terminals_exact (rnd : nat → nat) (size : Z)
    (isWrapping : bool) :
  2 ≤ size →
  ∃ grid solution serverCoords terminals,
    generateGrid rnd size isWrapping
      = Some (grid, solution, serverCoords, terminals) ∧
    ∀ x, x ∈ terminals ↔
         ∃ tile, cell grid x.1 x.2 = Some tile ∧ type tile = TERMINAL.
Proof.
  intros Hs.
  destruct (generateGrid_puzzle rnd size isWrapping)
    as (conn & grid & sc & Hgen & _ & Hpz & Hsc & Hsq & Hrot & Hgrid); [lia |].
  pose proof Hpz as [(Hsqc & _ & _) _].
  eexists grid, _, sc, _. split; [exact Hgen |].
  intros x. rewrite terminalsOf_iff. split.
  - intros (m & Hm & Hone).
    assert (inGrid size x) as Hx.
    { destruct x. apply (cell_inGrid size conn); eauto. }
    destruct (Hgrid x Hx) as (tile & Htile & Hty & _).
    exists tile. split; [done |]. rewrite Hty.
    rewrite (connAt_cell size) in Hm by done. injection Hm as <-.
    apply solvedTile_terminal; [by apply (puzzle_nonzero size isWrapping) |].
    done.
  - intros (tile & Htile & Hty).
    assert (inGrid size x) as Hx.
    { destruct x. apply (cell_inGrid size grid); eauto. }
    destruct (Hgrid x Hx) as (tile' & Htile' & Hty' & _).
    assert (tile' = tile) as -> by congruence.
    exists (connAt conn x). split; [by apply (connAt_cell size) |].
    apply solvedTile_terminal; [by apply (puzzle_nonzero size isWrapping) |].
    congruence.
Qed.

Lemma generated_terminals_exact_witness :
  ∃ grid solution serverCoords terminals,
    generateGrid (λ k, (k * k)%nat) 7 false
      = Some (grid, solution, serverCoords, terminals) ∧
    ∀ x, x ∈ terminals ↔
         ∃ tile, cell grid x.1 x.2 = Some tile ∧ type tile = TERMINAL.
Proof. apply (generated_terminals_exact (λ k, (k * k)%nat) 7 false). lia. Defined.

(** X7 (the Solution recovers the generated masks): for every size from 2
    on, every generated mask is a non-empty 4-bit value, and the tile of the
    returned grid, put at its Solution rotation, exposes exactly that
    mask. *)
Theorem solution_recovers_masks (rnd : nat → nat) (size : Z)
    (isWrapping : bool) :
  2 ≤ size →
  ∃ connections draws grid solution serverCoords terminals,
    generateConnections rnd size isWrapping = Some (connections, draws) ∧
    generateGrid rnd size isWrapping
      = Some (grid, solution, serverCoords, terminals) ∧
    ∀ x, inGrid size x →
         1 ≤ connAt connections x ≤ 15 ∧
         maskAt (withSolution grid solution) x = connAt connections x.
Proof.
  intros Hs.
  destruct (generateGrid_spec rnd size isWrapping)
    as (conn & draws & start & grid & sc & Hconn & Hgen & Hinv & Hstart
        & Hlinked & Hsc & Hsq & Hgrid); [lia |].
  eexists conn, draws, grid, _, sc, _.
  split; [done |]. split; [exact Hgen |]. intros x Hx. split.
  - by apply (conn_nonzero size isWrapping conn start).
  - by apply (solved_maskAt size isWrapping conn start sc grid).
Qed.

Lemma solution_recovers_masks_witness :
  ∃ connections draws grid solution serverCoords terminals,
    generateConnections (λ k, (k + 3)%nat) 5 true = Some (connections, draws) ∧
    generateGrid (λ k, (k + 3)%nat) 5 true
      = Some (grid, solution, serverCoords, terminals) ∧
    ∀ x, inGrid 5 x →
         1 ≤ connAt connections x ≤ 15 ∧
         maskAt (withSolution grid solution) x = connAt connections x.
Proof. apply (solution_recovers_masks (λ k, (k + 3)%nat) 5 true). lia. Defined.

(** X9 (a single-cell board is never won): at size 1, whatever the draws
    and the wrap mode, [generateGrid] returns one server tile of kind
    [TERMINAL] and no terminal; the Evaluator marks it connected, and the win
    check answers false, since its one stub has nothing to meet. *)
Theorem single_cell_board_never_wins (rnd : nat → nat) (isWrapping : bool) :
  generateGrid rnd 1 isWrapping
  = Some ([[mkTile TERMINAL 0 false true]], [[0]], (0, 0), []) ∧
  checkConnectivity [[mkTile TERMINAL 0 false true]] (0, 0) isWrapping
  = Some [[mkTile TERMINAL 0 true true]] ∧
  isWinConditionMet [[mkTile TERMINAL 0 true true]] [] isWrapping
  = Some false.
Proof.
  split; [| by destruct isWrapping].
  assert (∀ k, randomInt rnd k 1 = 0) as Hdraw
    by (intros k; apply Z.mod_1_r).
  assert (spanningTree rnd 1 isWrapping = Some (mkWalk [[0]] [[true]] [] 2))
    as Hwalk.
  { unfold spanningTree. rewrite !Hdraw. by destruct isWrapping. }
  unfold generateGrid, generateConnections. rewrite Hwalk.
  change (Z.to_nat (1 * 1 * 2 / 5)) with 0%nat.
  cbn [densify mbind option_bind fst snd]. unfold finishGrid. cbv zeta.
  change (Z.of_nat (length (allCoords 1))) with 1. rewrite Hdraw.
  reflexivity.
Qed.

(** *** Grids cell by cell *)


Lemma cell_flagless (grid : Grid) (r c : Z) :
  cell (flagless grid) r c = withConnected false <$> cell grid r c.
Proof. apply cell_fmap. Qed.


Lemma cell_setRotation (grid : Grid) (r c rot r' c' : Z) :
  cell (setRotation grid r c rot) r' c'
  = if decide ((r', c') = (r, c))
    then (λ t, mkTile (type t) rot (connected t) (isServer t))
           <$> cell grid r' c'
    else cell grid r' c'.
Proof.
  unfold setRotation.
  destruct (Z.ltb_spec r 0); simpl.
  { case_decide as E; [| done]. injection E as -> ->.
    unfold cell, readAt. by rewrite (proj2 (Z.ltb_lt r 0)). }
  destruct (Z.ltb_spec c 0); simpl.
  { case_decide as E; [| done]. injection E as -> ->.
    unfold cell, readAt. destruct (r <? 0); [done |].
    destruct (grid !! Z.to_nat r); [| done]. simpl.
    by rewrite (proj2 (Z.ltb_lt c 0)). }
  by apply cell_alter.
Qed.

Lemma flagless_setRotation (grid : Grid) (r c rot : Z) :
  flagless (setRotation grid r c rot) = setRotation (flagless grid) r c rot.
Proof.
  unfold setRotation, flagless. destruct ((r <? 0) || (c <? 0)); [done |].
  apply list_eq. intros i.
  change (map ?f ?l) with (f <$> l).
  rewrite list_lookup_fmap.
  destruct (decide (i = Z.to_nat r)) as [-> | Hne].
  - rewrite !list_lookup_alter_eq, list_lookup_fmap.
    destruct (grid !! Z.to_nat r) as [row|]; [| done]. simpl. f_equal.
    apply list_eq. intros j.
    change (map ?f ?l) with (f <$> l). rewrite list_lookup_fmap.
    destruct (decide (j = Z.to_nat c)) as [-> | Hne].
    + rewrite !list_lookup_alter_eq, list_lookup_fmap.
      by destruct (row !! Z.to_nat c).
    + rewrite !list_lookup_alter_ne, list_lookup_fmap by done. done.
  - rewrite !list_lookup_alter_ne, list_lookup_fmap by done. done.
Qed.

Lemma flagless_markConnected (cs : gset Coords) (grid : Grid) :
  flagless (markConnected cs grid) = flagless grid.
Proof.
  unfold flagless, markConnected.
  apply list_eq. intros i.
  change (map ?f ?l) with (f <$> l).
  rewrite !list_lookup_fmap, list_lookup_imap.
  destruct (grid !! i) as [row|]; [| done]. simpl. f_equal.
  apply list_eq. intros j.
  change (map ?f ?l) with (f <$> l).
  rewrite !list_lookup_fmap, list_lookup_imap.
  by destruct (row !! j).
Qed.


Lemma checkConnectivity_flagless_out (grid grid' : Grid)
    (serverCoords : Coords) (isWrapping : bool) :
  checkConnectivity grid serverCoords isWrapping = Some grid' →
  flagless grid' = flagless grid.
Proof.
  intros H. apply checkConnectivity_Some in H as (cs & _ & ->).
  apply flagless_markConnected.
Qed.

Lemma checkConnectivity_square (size : Z) (grid grid' : Grid)
    (serverCoords : Coords) (isWrapping : bool) :
  square size grid →
  checkConnectivity grid serverCoords isWrapping = Some grid' →
  square size grid'.
Proof.
  intros Hsq H. apply checkConnectivity_Some in H as (cs & _ & ->).
  by apply square_markConnected.
Qed.

Lemma flagless_cell_eq (g g' : Grid) (r c : Z) (t : Tile) :
  flagless g' = flagless g → cell g r c = Some t →
  ∃ t', cell g' r c = Some t' ∧ sameTile t t'.
Proof.
  intros Heq Ht.
  pose proof (cell_flagless g' r c) as H'. rewrite Heq, cell_flagless, Ht in H'.
  destruct (cell g' r c) as [t'|]; [| done]. exists t'. split; [done |].
  simpl in H'. injection H' as ? ? ?. done.
Qed.



(** *** One rotation, one hint *)

Lemma wfState_wellFormed (s : App.State) (g : Grid) :
  wfState s → square (App.gridSize s) g → wellFormed g (App.serverCoords s).
Proof.
  intros (_ & _ & Hsc) Hsq.
  assert (Z.of_nat (length g) = App.gridSize s) as Hlen by apply Hsq.
  split; by rewrite Hlen.
Qed.

Lemma rotateTile_step (s : App.State) (r c : Z) (tile : Tile) :
  wfState s → App.isWon s = false →
  cell (App.grid s) r c = Some tile → isServer tile = false →
  ∃ g',
    checkConnectivity
      (setRotation (App.grid s) r c (Z.rem (rotation tile + 1) 4))
      (App.serverCoords s) (App.isWrapping s) = Some g' ∧
    App.rotateTile s r c
    = Some (App.setGrid (App.setScore s (λ prev, prev - 10)) g') ∧
    square (App.gridSize s) g' ∧
    flagless g'
    = setRotation (flagless (App.grid s)) r c (Z.rem (rotation tile + 1) 4).
Proof.
  intros Hwf Hwon Htile Hsrv.
  pose proof Hwf as (Hsq & _ & _).
  pose proof (square_setRotation _ _ r c (Z.rem (rotation tile + 1) 4) Hsq)
    as Hsq'.
  destruct (checkConnectivity_total _ _ (App.isWrapping s)
              (wfState_wellFormed s _ Hwf Hsq')) as [g' Hg'].
  exists g'. split; [done |]. split.
  - unfold App.rotateTile. rewrite Htile, Hwon, Hsrv. cbn [orb].
    by rewrite Hg'.
  - split; [by apply (checkConnectivity_square _ _ _ _ _ Hsq' Hg') |].
    rewrite (checkConnectivity_flagless_out _ _ _ _ Hg').
    apply flagless_setRotation.
Qed.



(** X10 (a rotation turns one tile): in a well-formed game that is not won,
    rotating a tile that is not the server costs 10 points, turns that tile a
    quarter turn ([(rotation + 1) % 4]) and no other, changes nothing else of
    the state but the [connected] flags, and leaves those as the Evaluator
    sets them. *)
Theorem rotateTile_turns_one_tile (s : App.State) (r c : Z) (tile : Tile) :
  wfState s → App.isWon s = false →
  cell (App.grid s) r c = Some tile → isServer tile = false →
  ∃ s',
    App.rotateTile s r c = Some s' ∧
    s' = App.setGrid (App.setScore s (λ prev, prev - 10)) (App.grid s') ∧
    flagless (App.grid s')
    = setRotation (flagless (App.grid s)) r c (Z.rem (rotation tile + 1) 4) ∧
    checkConnectivity (App.grid s') (App.serverCoords s) (App.isWrapping s)
    = Some (App.grid s').
Proof.
  intros Hwf Hwon Htile Hsrv.
  destruct (rotateTile_step s r c tile Hwf Hwon Htile Hsrv)
    as (g' & Hcc & Hrot & _ & Hflag).
  eexists. split; [exact Hrot |]. split; [done |]. split; [done |].
  by apply (checkConnectivity_again _ _ _ _ Hcc).
Qed.

Lemma rotateTile_turns_one_tile_witness :
  ∃ s',
    App.rotateTile sampleState 0 1 = Some s' ∧
    s' = App.setGrid (App.setScore sampleState (λ prev, prev - 10))
           (App.grid s') ∧
    flagless (App.grid s')
    = setRotation (flagless (App.grid sampleState)) 0 1
        (Z.rem (rotation (tile CORNER 2) + 1) 4) ∧
    checkConnectivity (App.grid s') (App.serverCoords sampleState)
      (App.isWrapping sampleState)
    = Some (App.grid s').
Proof.
  apply (rotateTile_turns_one_tile sampleState 0 1 (tile CORNER 2));
    try reflexivity.
  split_and!; try (split; [reflexivity | repeat constructor]).
  unfold inGrid; simpl; lia.
Defined.



(** *** The list of incorrect tiles *)

Lemma isIncorrect_true (grid : Grid) (solution : list (list Z)) (x : Coords) :
  isIncorrect grid solution x = true ↔ incorrectAt grid solution x.
Proof.
  unfold isIncorrect, incorrectAt. split.
  - destruct (cell grid x.1 x.2) as [t|]; [| done].
    destruct (cell solution x.1 x.2) as [rot|]; [| done].
    intros H. apply andb_true_iff in H as [Hs Hr].
    exists t, rot. split_and!; try done.
    + by destruct (isServer t).
    + intros ->. by rewrite Z.eqb_refl in Hr.
  - intros (t & rot & -> & Hs & -> & Hne). rewrite Hs. simpl.
    apply negb_true_iff, Z.eqb_neq. done.
Qed.

Lemma collectIncorrect_filter (size : Z) (grid : Grid)
    (solution : list (list Z)) (coords : list Coords) :
  square size grid → square size solution →
  (∀ x, x ∈ coords → inGrid size x) →
  collectIncorrect grid solution coords
  = Some (filter (λ x, isIncorrect grid solution x = true) coords).
Proof.
  intros Hg Hs. induction coords as [| [r c] coords IH]; intros Hin; [done |].
  assert (inGrid size (r, c)) as Hrc by (apply Hin; left).
  destruct (cell_is_Some size grid (r, c) Hg Hrc) as [t Ht].
  destruct (cell_is_Some size solution (r, c) Hs Hrc) as [rot Hrot].
  simpl in Ht, Hrot.
  assert (isIncorrect grid solution (r, c)
          = negb (isServer t) && negb (rot =? rotation t)) as Hinc.
  { unfold isIncorrect. simpl. by rewrite Ht, Hrot. }
  cbn [collectIncorrect]. rewrite Ht. cbn [mbind option_bind].
  rewrite IH by (intros x Hx; apply Hin; by right).
  rewrite filter_cons, Hinc.
  destruct (isServer t); simpl; [done |].
  apply cell_Some in Hrot as (row & -> & Hrot). cbn [mbind option_bind].
  rewrite Hrot.
  destruct (Z.eqb_spec rot (rotation t)) as [-> | Hne]; simpl.
  - by rewrite bool_decide_eq_true_2 by done.
  - by rewrite bool_decide_eq_false_2 by congruence.
Qed.

Lemma incorrectTiles_filter (s : App.State) :
  wfState s →
  incorrectTiles s
  = filter (λ x, isIncorrect (App.grid s) (App.solution s) x = true)
           (allCoords (App.gridSize s)).
Proof.
  intros (Hg & Hs & _). unfold incorrectTiles.
  rewrite (collectIncorrect_filter (App.gridSize s)); try done.
  intros x. apply allCoords_elem.
Qed.

Lemma incorrectTiles_elem (s : App.State) (x : Coords) :
  wfState s →
  x ∈ incorrectTiles s ↔ incorrectAt (App.grid s) (App.solution s) x.
Proof.
  intros Hwf. rewrite incorrectTiles_filter by done.
  rewrite list_elem_of_filter, isIncorrect_true, allCoords_elem.
  split; [by intros [? _] |]. intros H. split; [done |].
  destruct H as (t & _ & Ht & _). destruct x.
  apply (cell_inGrid _ (App.grid s)); [apply Hwf | eauto].
Qed.

Lemma isIncorrect_flagless (g g' : Grid) (solution : list (list Z))
    (x : Coords) :
  flagless g' = flagless g →
  isIncorrect g' solution x = isIncorrect g solution x.
Proof.
  intros Heq. unfold isIncorrect.
  pose proof (cell_flagless g' x.1 x.2) as H'.
  rewrite Heq, cell_flagless in H'.
  destruct (cell g x.1 x.2) as [t|], (cell g' x.1 x.2) as [t'|]; try done.
  simpl in H'. injection H' as _ Hrot Hsrv. by rewrite Hrot, Hsrv.
Qed.

Lemma isIncorrect_setRotation (grid : Grid) (solution : list (list Z))
    (x y : Coords) (rot : Z) :
  cell solution x.1 x.2 = Some rot →
  isIncorrect (setRotation grid x.1 x.2 rot) solution y
  = bool_decide (y ≠ x) && isIncorrect grid solution y.
Proof.
  intros Hrot. unfold isIncorrect. rewrite cell_setRotation.
  destruct y as [r c], x as [r' c']. simpl in *.
  case_decide as E.
  - injection E as -> ->. rewrite bool_decide_eq_false_2 by naive_solver.
    rewrite Hrot. destruct (cell grid r' c'); [| done]. simpl.
    rewrite Z.eqb_refl. by rewrite andb_false_r.
  - by rewrite bool_decide_eq_true_2 by done.
Qed.

(** *** One hint *)

Lemma hint_step (s : App.State) :
  wfState s → App.isWon s = false → incorrectTiles s ≠ [] →
  ∃ x rot g',
    x ∈ incorrectTiles s ∧
    cell (App.solution s) x.1 x.2 = Some rot ∧
    checkConnectivity (setRotation (App.grid s) x.1 x.2 rot)
      (App.serverCoords s) (App.isWrapping s) = Some g' ∧
    App.handleHintClick s
    = Some (App.setHintedTile
              (App.setGrid (App.setScore s (λ prev, prev - 250)) g')
              (Some x)) ∧
    square (App.gridSize s) g' ∧
    flagless g' = setRotation (flagless (App.grid s)) x.1 x.2 rot.
Proof.
  intros Hwf Hwon Hne. unfold App.handleHintClick. rewrite Hwon.
  unfold incorrectTiles in *.
  destruct (collectIncorrect_spec s Hwf (allCoords (App.gridSize s)))
    as (l & Hl & Hspec); [intros x; apply allCoords_elem |].
  rewrite Hl in *. simpl in Hne. cbn [mbind option_bind].
  rewrite bool_decide_eq_false_2 by done.
  destruct (chooseHint_spec s Hwf l Hne) as (x & -> & Hx & _).
  { intros y Hy. by apply allCoords_elem, Hspec. }
  cbn [mbind option_bind]. destruct x as [r c].
  destruct (gridAfterHint_total s Hwf (r, c)) as [g Hg];
    [by apply allCoords_elem, Hspec |].
  unfold gridAfterHint in Hg. simpl in Hg.
  apply bind_Some in Hg as (rot & Hrot & Hcc).
  rewrite Hrot. cbn [mbind option_bind]. rewrite Hcc. cbn [mbind option_bind].
  exists (r, c), rot, g. simpl. split_and!; try done.
  - apply (checkConnectivity_square _ _ _ _ _ (square_setRotation _ _ r c rot
             (proj1 Hwf)) Hcc).
  - rewrite (checkConnectivity_flagless_out _ _ _ _ Hcc).
    apply flagless_setRotation.
Qed.

Lemma filter_neq_length (l : list Coords) (x : Coords) :
  NoDup l → x ∈ l → S (length (filter (λ y, y ≠ x) l)) = length l.
Proof.
  intros Hnd Hx.
  pose proof (length_filter_remove (λ _, True) l x Hnd Hx I) as H.
  rewrite (filter_all (λ _, True)) in H by done.
  rewrite <- H. f_equal. f_equal. apply list_filter_iff. naive_solver.
Qed.

Lemma hint_step_incorrect (s : App.State) (x : Coords) (rot : Z) (g' : Grid) :
  wfState s → cell (App.solution s) x.1 x.2 = Some rot →
  square (App.gridSize s) g' →
  flagless g' = setRotation (flagless (App.grid s)) x.1 x.2 rot →
  incorrectTiles
    (App.setHintedTile (App.setGrid (App.setScore s (λ prev, prev - 250)) g')
       (Some x))
  = filter (λ y, y ≠ x) (incorrectTiles s).
Proof.
  intros Hwf Hrot Hsq' Hflag.
  rewrite !incorrectTiles_filter;
    [| done | destruct Hwf as (_ & ? & ?); by split_and!].
  simpl. rewrite list_filter_filter. apply list_filter_iff. intros y.
  rewrite (isIncorrect_flagless (setRotation (App.grid s) x.1 x.2 rot) g')
    by by rewrite Hflag, flagless_setRotation.
  rewrite isIncorrect_setRotation by done.
  rewrite andb_true_iff, bool_decide_eq_true. naive_solver.
Qed.

Lemma NoDup_incorrectTiles (s : App.State) :
  wfState s → NoDup (incorrectTiles s).
Proof.
  intros Hwf. rewrite incorrectTiles_filter by done.
  apply NoDup_filter, NoDup_allCoords.
Qed.

Lemma hint_shrinks (s : App.State) :
  wfState s → App.isWon s = false → incorrectTiles s ≠ [] →
  ∃ s',
    App.handleHintClick s = Some s' ∧
    S (length (incorrectTiles s')) = length (incorrectTiles s) ∧
    App.score s' = App.score s - 250.
Proof.
  intros Hwf Hwon Hne.
  destruct (hint_step s Hwf Hwon Hne)
    as (x & rot & g' & Hx & Hrot & Hcc & Hhint & Hsq' & Hflag).
  eexists. split; [exact Hhint |]. split; [| done].
  rewrite (hint_step_incorrect s x rot g') by done.
  by apply filter_neq_length; [apply NoDup_incorrectTiles |].
Qed.

(** X12 (a hint corrects exactly one tile): in a well-formed game that is
    not won and has incorrect tiles, a hint costs 250 points and marks one
    incorrect tile as hinted; afterwards the incorrect tiles are the former
    ones without that tile, one fewer. *)
Theorem hint_fixes_one_tile (s : App.State) :
  wfState s → App.isWon s = false → incorrectTiles s ≠ [] →
  ∃ x s',
    App.handleHintClick s = Some s' ∧
    App.hintedTile s' = Some x ∧
    x ∈ incorrectTiles s ∧
    incorrectTiles s' = filter (λ y, y ≠ x) (incorrectTiles s) ∧
    S (length (incorrectTiles s')) = length (incorrectTiles s) ∧
    App.score s' = App.score s - 250.
Proof.
  intros Hwf Hwon Hne.
  destruct (hint_step s Hwf Hwon Hne)
    as (x & rot & g' & Hx & Hrot & Hcc & Hhint & Hsq' & Hflag).
  pose proof (hint_step_incorrect s x rot g' Hwf Hrot Hsq' Hflag) as Heq.
  eexists x, _. split; [exact Hhint |].
  split; [done |]. split; [done |]. split; [exact Heq |]. split; [| done].
  rewrite Heq. apply filter_neq_length; [| done].
  by apply NoDup_incorrectTiles.
Qed.

Lemma hint_fixes_one_tile_witness :
  ∃ x s',
    App.handleHintClick hintDropState = Some s' ∧
    App.hintedTile s' = Some x ∧
    x ∈ incorrectTiles hintDropState ∧
    incorrectTiles s' = filter (λ y, y ≠ x) (incorrectTiles hintDropState) ∧
    S (length (incorrectTiles s')) = length (incorrectTiles hintDropState) ∧
    App.score s' = App.score hintDropState - 250.
Proof.
  apply (hint_fixes_one_tile hintDropState); try done.
  split_and!; try (split; [reflexivity | repeat constructor]).
  unfold inGrid; simpl; lia.
Defined.

(** *** Boards of a generated puzzle *)

Lemma puzzle_square (size : Z) (isWrapping : bool) (conn : list (list Z)) :
  puzzle size isWrapping conn → square size conn.
Proof. by intros [(? & _) _]. Qed.

Lemma board_mask (size : Z) (isWrapping : bool) (conn : list (list Z))
    (serverCoords : Coords) (grid : Grid) (x : Coords) (tile : Tile) :
  2 ≤ size → puzzle size isWrapping conn →
  boardOf size conn serverCoords grid → inGrid size x →
  cell grid x.1 x.2 = Some tile →
  rotation tile = (solvedTile (connAt conn x)).2 →
  maskAt grid x = connAt conn x.
Proof.
  intros Hs Hpz [_ Hb] Hx Htile Hrot.
  destruct (Hb x Hx) as (tile' & Htile' & Hty & _).
  assert (tile' = tile) as -> by congruence.
  unfold maskAt. rewrite Htile. simpl. unfold tileConnections.
  rewrite Hty, Hrot. apply solvedTile_mask.
  by apply (puzzle_nonzero size isWrapping).
Qed.

(** A board that exposes the generated masks is marked connected all over
    by the Evaluator and passes the win check. *)
Lemma solved_board_wins (size : Z) (isWrapping : bool) (conn : list (list Z))
    (serverCoords : Coords) (grid grid' : Grid) :
  puzzle size isWrapping conn → inGrid size serverCoords →
  square size grid →
  (∀ x, inGrid size x → maskAt grid x = connAt conn x) →
  checkConnectivity grid serverCoords isWrapping = Some grid' →
  (∀ x, inGrid size x → connectedAt grid' x = true) ∧
  isWinConditionMet grid' (terminalsOf conn) isWrapping = Some true.
Proof.
  intros (Hinv & start & Hstart & Hlinked) Hsc Hsq Hmask Hcc.
  pose proof Hinv as (Hsqc & Hrec & _).
  assert (Z.of_nat (length grid) = size) as Hlen by apply Hsq.
  pose proof (checkConnectivity_square _ _ _ _ _ Hsq Hcc) as Hsq'.
  assert (Z.of_nat (length grid') = size) as Hlen' by apply Hsq'.
  apply checkConnectivity_Some in Hcc as (cs & Hcs & ->).
  rewrite Hlen in Hcs.
  apply bfsLoop_result in Hcs as (Hsrv & Hcl & _).
  assert (∀ x, inGrid size x → connectedAt (markConnected cs grid) x = true)
    as Hconn.
  { intros x Hx. apply connectedAt_markConnected_true.
    split; [| by apply (cell_is_Some size)].
    pose proof (all_linked size isWrapping conn start Hinv Hstart Hlinked
                  serverCoords x Hsc Hx) as Hpath.
    revert x Hpath Hx.
    apply (rtc_ind_r (λ z, inGrid size z → z ∈ cs)); [done |].
    intros y z Hy (key & Hbit & Hn) IH Hz.
    pose proof (rtc_edge_inGrid size isWrapping conn serverCoords y Hsc Hy)
      as Hyin.
    apply (Hcl y z); [by apply IH |].
    exists key. rewrite !Hmask by done.
    split; [done |]. split; [done |].
    split; [by apply (cell_is_Some size) |].
    destruct (Hrec y key Hyin Hbit) as (z' & Hn' & Hback). congruence. }
  split; [done |].
  unfold isWinConditionMet.
  assert (allRequiredTilesConnected (markConnected cs grid) (terminalsOf conn)
          = true) as ->.
  { unfold allRequiredTilesConnected. case_bool_decide.
    - by apply allConnected_forallb, (allConnected_intro size).
    - apply forallb_forall. intros t Ht.
      apply list_elem_of_In, terminalsOf_elem in Ht.
      apply (Hconn t). destruct t. by apply (cell_inGrid size conn). }
  cbn [negb].
  apply noLeaks_true; [by rewrite Hlen' |].
  intros x key Hx Hbit. rewrite Hlen'.
  assert (inGrid size x) as Hxin.
  { apply connectedAt_true in Hx as (t & Ht & _).
    destruct x. apply (cell_inGrid size (markConnected cs grid)); eauto. }
  rewrite maskAt_markConnected, Hmask in Hbit by done.
  destruct (Hrec x key Hxin Hbit) as (y & Hn & Hback).
  assert (inGrid size y) as Hyin
    by (destruct x; eapply neighbour_inGrid; eauto).
  exists y. split; [done |]. split; [by apply Hconn |].
  by rewrite maskAt_markConnected, Hmask.
Qed.

Lemma board_setRotation (size : Z) (conn : list (list Z))
    (serverCoords : Coords) (g g' : Grid) (r c rot : Z) :
  boardOf size conn serverCoords g → square size g' →
  flagless g' = setRotation (flagless g) r c rot →
  0 ≤ rot < 4 →
  (∀ tile, cell g r c = Some tile → isServer tile = false) →
  boardOf size conn serverCoords g'.
Proof.
  intros [Hsq Hb] Hsq' Hflag Hrot Hsrv. split; [done |].
  intros x Hx. destruct (Hb x Hx) as (t & Ht & Hty & Hs & Hr & Hfix).
  destruct (cell_is_Some size g' x Hsq' Hx) as [t' Ht'].
  exists t'. split; [done |].
  pose proof (cell_flagless g' x.1 x.2) as H'.
  rewrite Hflag, cell_setRotation, cell_flagless, Ht, Ht' in H'.
  case_decide as E; simpl in H'; injection H' as Hty' Hrot' Hsrv'.
  - destruct x as [r' c']. injection E as -> ->. cbn [fst snd] in *.
    specialize (Hsrv t Ht).
    rewrite <- Hty', <- Hsrv', <- Hrot'. split_and!; try done; try lia.
    intros E. rewrite bool_decide_eq_true_2 in Hs by done. congruence.
  - rewrite <- Hty', <- Hsrv', <- Hrot'. split_and!; try done; lia.
Qed.

Lemma playing_wfState (conn : list (list Z)) (s : App.State) :
  puzzle (App.gridSize s) (App.isWrapping s) conn → playing conn s →
  wfState s.
Proof.
  intros Hpz (Hsol & _ & Hsc & [Hsq _] & _). split_and!; try done.
  rewrite Hsol. by apply square_solution, (puzzle_square _ (App.isWrapping s)).
Qed.

Lemma playing_solution (conn : list (list Z)) (s : App.State) (x : Coords) :
  puzzle (App.gridSize s) (App.isWrapping s) conn → playing conn s →
  inGrid (App.gridSize s) x →
  cell (App.solution s) x.1 x.2 = Some (solvedTile (connAt conn x)).2.
Proof.
  intros [Hinv _] (-> & _) Hx.
  by apply (solution_cell (App.gridSize s) (App.isWrapping s)).
Qed.

Lemma playing_rotateTile (conn : list (list Z)) (s s' : App.State) (r c : Z) :
  puzzle (App.gridSize s) (App.isWrapping s) conn → playing conn s →
  App.rotateTile s r c = Some s' → playing conn s'.
Proof.
  intros Hpz Hplay Hrot.
  pose proof (playing_wfState conn s Hpz Hplay) as Hwf.
  unfold App.rotateTile in Hrot.
  destruct (cell (App.grid s) r c) as [tile|] eqn:Htile; [| congruence].
  destruct (App.isWon s) eqn:Hwon; [simpl in Hrot; congruence |].
  destruct (isServer tile) eqn:Hsrv; [simpl in Hrot; congruence |].
  destruct (rotateTile_step s r c tile Hwf Hwon Htile Hsrv)
    as (g' & Hcc & Hstep & Hsq' & Hflag).
  unfold App.rotateTile in Hstep. rewrite Htile, Hwon, Hsrv in Hstep.
  rewrite Hstep in Hrot. injection Hrot as <-.
  destruct Hplay as (Hsol & Hterm & Hsc & Hboard & Hfix).
  split_and!; try done; simpl.
  - assert (inGrid (App.gridSize s) (r, c)) as Hrc.
    { apply (cell_inGrid _ (App.grid s)); [apply Hwf | eauto]. }
    destruct Hboard as [Hsq Hb].
    destruct (Hb (r, c) Hrc) as (t & Ht & _ & _ & Hr & _).
    simpl in Ht. assert (t = tile) as -> by congruence.
    apply (board_setRotation _ _ _ (App.grid s) g' r c
             (Z.rem (rotation tile + 1) 4)); try done.
    + pose proof (Z.rem_bound_pos (rotation tile + 1) 4). lia.
    + intros t' Ht'. congruence.
  - by apply (checkConnectivity_again _ _ _ _ Hcc).
Qed.

Lemma playing_score (conn : list (list Z)) (s : App.State) (update : Z → Z) :
  playing conn s → playing conn (App.setScore s update).
Proof. done. Qed.

Lemma playing_hint (conn : list (list Z)) (s s' : App.State) :
  puzzle (App.gridSize s) (App.isWrapping s) conn → playing conn s →
  App.handleHintClick s = Some s' → playing conn s'.
Proof.
  intros Hpz Hplay Hhint.
  pose proof (playing_wfState conn s Hpz Hplay) as Hwf.
  destruct (App.isWon s) eqn:Hwon.
  { unfold App.handleHintClick in Hhint. rewrite Hwon in Hhint. congruence. }
  destruct (decide (incorrectTiles s = [])) as [Hnil | Hne].
  { unfold App.handleHintClick in Hhint. rewrite Hwon in Hhint.
    unfold incorrectTiles in Hnil.
    destruct Hwf as (Hg & Hs & _).
    rewrite (collectIncorrect_filter (App.gridSize s)) in Hhint, Hnil
      by (try done; intros x; apply allCoords_elem).
    simpl in Hnil. rewrite Hnil in Hhint. simpl in Hhint.
    injection Hhint as <-. by apply playing_score. }
  destruct (hint_step s Hwf Hwon Hne)
    as (x & rot & g' & Hx & Hrot & Hcc & Hstep & Hsq' & Hflag).
  rewrite Hstep in Hhint. injection Hhint as <-.
  apply incorrectTiles_elem in Hx as (t & rot' & Ht & Hsrv & Hrot' & _);
    [| done].
  assert (rot' = rot) as -> by congruence.
  assert (inGrid (App.gridSize s) x) as Hxin.
  { destruct x. apply (cell_inGrid _ (App.grid s)); [apply Hwf | eauto]. }
  pose proof (playing_solution conn s x Hpz Hplay Hxin) as Hsolx.
  destruct Hplay as (Hsol & Hterm & Hsc & Hboard & Hfix).
  split_and!; try done; simpl.
  - apply (board_setRotation _ _ _ (App.grid s) g' x.1 x.2 rot); try done.
    + rewrite Hsolx in Hrot. injection Hrot as <-. apply solvedTile_rotation.
    + intros t' Ht'. congruence.
  - by apply (checkConnectivity_again _ _ _ _ Hcc).
Qed.

Lemma move_fields (s s' : App.State) :
  move s s' →
  App.gridSize s' = App.gridSize s ∧ App.isWrapping s' = App.isWrapping s.
Proof.
  intros [(r & c & H) | H].
  - unfold App.rotateTile in H.
    destruct (cell (App.grid s) r c) as [tile|]; [| by injection H as <-].
    destruct (App.isWon s || isServer tile); [by injection H as <- |].
    apply bind_Some in H as (g & _ & H). by injection H as <-.
  - unfold App.handleHintClick in H.
    destruct (App.isWon s); [by injection H as <- |].
    apply bind_Some in H as (l & _ & H).
    case_bool_decide; [by injection H as <- |].
    apply bind_Some in H as (h & _ & H).
    destruct h as [[r c]|]; [| by injection H as <-].
    apply bind_Some in H as (rot & _ & H).
    apply bind_Some in H as (g & _ & H). by injection H as <-.
Qed.

Lemma playable_move (s s' : App.State) :
  playable s → move s s' → playable s'.
Proof.
  intros (conn & Hpz & Hplay) Hmove.
  destruct (move_fields s s' Hmove) as [Hsize Hwrap].
  exists conn. rewrite Hsize, Hwrap. split; [done |].
  destruct Hmove as [(r & c & H) | H].
  - by apply (playing_rotateTile conn s s' r c).
  - by apply (playing_hint conn s s').
Qed.

Lemma playable_total (s : App.State) :
  playable s →
  (∀ r c, is_Some (App.rotateTile s r c)) ∧ is_Some (App.handleHintClick s).
Proof.
  intros (conn & Hpz & Hplay).
  pose proof (playing_wfState conn s Hpz Hplay) as Hwf. split.
  - intros r c. unfold App.rotateTile.
    destruct (cell (App.grid s) r c) as [tile|] eqn:Htile; [| done].
    destruct (App.isWon s) eqn:Hwon; [done |].
    destruct (isServer tile) eqn:Hsrv; [done |].
    destruct (rotateTile_step s r c tile Hwf Hwon Htile Hsrv)
      as (g' & _ & Hstep & _).
    unfold App.rotateTile in Hstep. rewrite Htile, Hwon, Hsrv in Hstep.
    by rewrite Hstep.
  - destruct (App.isWon s) eqn:Hwon.
    { unfold App.handleHintClick. by rewrite Hwon. }
    destruct (decide (incorrectTiles s = [])) as [Hnil | Hne].
    + unfold App.handleHintClick. rewrite Hwon.
      unfold incorrectTiles in Hnil. destruct Hwf as (Hg & Hs & _).
      rewrite (collectIncorrect_filter (App.gridSize s)) in Hnil |- *
        by (try done; intros x; apply allCoords_elem).
      simpl in Hnil. rewrite Hnil. done.
    + destruct (hint_step s Hwf Hwon Hne) as (x & rot & g' & _ & _ & _ & -> & _).
      done.
Qed.


(** *** A new game, and hints to the end *)

Lemma board_flags (size : Z) (conn : list (list Z)) (serverCoords : Coords)
    (g g' : Grid) :
  boardOf size conn serverCoords g → square size g' →
  flagless g' = flagless g → boardOf size conn serverCoords g'.
Proof.
  intros [Hsq Hb] Hsq' Hflag. split; [done |].
  intros x Hx. destruct (Hb x Hx) as (t & Ht & Hty & Hs & Hr & Hfix).
  destruct (flagless_cell_eq g g' x.1 x.2 t Hflag Ht)
    as (t' & Ht' & Hty' & Hrot' & Hsrv').
  exists t'. rewrite Hty', Hrot', Hsrv'. split_and!; try done; lia.
Qed.

Lemma generated_board (rnd : nat → nat) (size : Z) (isWrapping : bool) :
  0 < size →
  ∃ conn grid serverCoords,
    generateGrid rnd size isWrapping
    = Some (grid, map (map snd) (map (map solvedTile) conn), serverCoords,
            terminalsOf conn) ∧
    (∃ draws, generateConnections rnd size isWrapping = Some (conn, draws)) ∧
    puzzle size isWrapping conn ∧
    inGrid size serverCoords ∧
    boardOf size conn serverCoords grid.
Proof.
  intros Hs.
  destruct (generateGrid_puzzle rnd size isWrapping Hs)
    as (conn & grid & sc & Hgen & Hconn & Hpz & Hsc & Hsq & Hrot & Hgrid).
  exists conn, grid, sc. do 4 (split; [done |]). split; [done |].
  intros x Hx. destruct (Hgrid x Hx) as (tile & Htile & Hty & _ & Hsrv & Hfix).
  pose proof (Forall_cell _ _ _ _ _ Hrot Htile) as Hr. simpl in Hr.
  exists tile. do 4 (split; [done |]).
  intros E. apply Hfix. by apply bool_decide_eq_true_2.
Qed.

Lemma startNewGame_spec (rnd : nat → nat) (u : Ui.State) :
  0 < App.gridSize (Ui.app u) →
  ∃ conn grid solution serverCoords terminals,
    Ui.startNewGame rnd u
    = Some (Ui.mkState
        (App.mkState (App.gridSize (Ui.app u)) (App.isWrapping (Ui.app u))
           grid solution serverCoords terminals false
           (App.hintedTile (Ui.app u))
           (App.gridSize (Ui.app u) * App.gridSize (Ui.app u) * 100))
        (Some (App.gridSize (Ui.app u) / 2, App.gridSize (Ui.app u) / 2))
        [] None false (Ui.leaderboard u)) ∧
    puzzle (App.gridSize (Ui.app u)) (App.isWrapping (Ui.app u)) conn ∧
    playing conn
      (App.mkState (App.gridSize (Ui.app u)) (App.isWrapping (Ui.app u))
         grid solution serverCoords terminals false
         (App.hintedTile (Ui.app u))
         (App.gridSize (Ui.app u) * App.gridSize (Ui.app u) * 100)).
Proof.
  intros Hs. unfold Ui.startNewGame.
  destruct (generated_board rnd _ (App.isWrapping (Ui.app u)) Hs)
    as (conn & grid & sc & -> & _ & Hpz & Hsc & Hboard).
  cbn [mbind option_bind].
  pose proof Hboard as [Hsq _].
  assert (wellFormed grid sc) as Hwf.
  { assert (Z.of_nat (length grid) = App.gridSize (Ui.app u)) as Hlen
      by apply Hsq.
    split; by rewrite Hlen. }
  destruct (checkConnectivity_total grid sc (App.isWrapping (Ui.app u)) Hwf)
    as [grid' Hcc].
  rewrite Hcc. cbn [mbind option_bind].
  eexists conn, grid', _, sc, _. split; [done |]. split; [done |].
  split_and!; try done; simpl.
  - apply (board_flags _ _ _ grid);
      [done | by apply (checkConnectivity_square _ _ _ _ _ Hsq Hcc) |].
    by apply (checkConnectivity_flagless_out _ _ _ _ Hcc).
  - by apply (checkConnectivity_again _ _ _ _ Hcc).
Qed.

Lemma no_incorrect_wins (conn : list (list Z)) (s : App.State) :
  2 ≤ App.gridSize s →
  puzzle (App.gridSize s) (App.isWrapping s) conn → playing conn s →
  incorrectTiles s = [] →
  (∀ x, inGrid (App.gridSize s) x → connectedAt (App.grid s) x = true) ∧
  isWinConditionMet (App.grid s) (App.terminals s) (App.isWrapping s)
  = Some true.
Proof.
  intros Hs Hpz Hplay Hnil.
  pose proof (playing_wfState conn s Hpz Hplay) as Hwf.
  assert (∀ x, inGrid (App.gridSize s) x →
               maskAt (App.grid s) x = connAt conn x) as Hmask.
  { intros x Hx.
    pose proof (playing_solution conn s x Hpz Hplay Hx) as Hsolx.
    destruct Hplay as (_ & _ & _ & Hboard & _).
    pose proof Hboard as [_ Hb].
    destruct (Hb x Hx) as (t & Ht & _ & Hsrv & _ & Hfix).
    apply (board_mask (App.gridSize s) (App.isWrapping s) conn
             (App.serverCoords s) (App.grid s) x t); try done.
    destruct (decide (x = App.serverCoords s)) as [E | E]; [by apply Hfix |].
    rewrite bool_decide_eq_false_2 in Hsrv by done.
    destruct (decide (rotation t = (solvedTile (connAt conn x)).2))
      as [| Hne]; [done |].
    assert (x ∈ incorrectTiles s) as Hin.
    { apply incorrectTiles_elem; [done |].
      exists t, (solvedTile (connAt conn x)).2. by split_and!. }
    rewrite Hnil in Hin. by apply elem_of_nil in Hin. }
  destruct Hplay as (_ & -> & Hsc & [Hsq _] & Hfix).
  by apply (solved_board_wins (App.gridSize s) (App.isWrapping s) conn
              (App.serverCoords s) (App.grid s) (App.grid s)).
Qed.

Lemma hints_spec (conn : list (list Z)) (n : nat) (s : App.State) :
  puzzle (App.gridSize s) (App.isWrapping s) conn → playing conn s →
  App.isWon s = false → length (incorrectTiles s) = n →
  ∃ s',
    hints n s = Some s' ∧ playing conn s' ∧ incorrectTiles s' = [] ∧
    App.gridSize s' = App.gridSize s ∧
    App.isWrapping s' = App.isWrapping s ∧
    App.score s' = App.score s - 250 * Z.of_nat n ∧
    App.isWon s' = false ∧ rtc move s s'.
Proof.
  revert s. induction n as [| n IH]; intros s Hpz Hplay Hwon Hlen.
  - exists s. split_and!; try done; [| lia].
    by destruct (incorrectTiles s).
  - pose proof (playing_wfState conn s Hpz Hplay) as Hwf.
    destruct (hint_shrinks s Hwf Hwon) as (s1 & Hhint & Hlen1 & Hscore1).
    { intros Hnil. by rewrite Hnil in Hlen. }
    destruct (move_fields s s1) as [Hsize1 Hwrap1]; [by right |].
    pose proof (playing_hint conn s s1 Hpz Hplay Hhint) as Hplay1.
    assert (App.isWon s1 = false) as Hwon1.
    { unfold App.handleHintClick in Hhint. rewrite Hwon in Hhint.
      apply bind_Some in Hhint as (l & _ & H).
      case_bool_decide; [by injection H as <- |].
      apply bind_Some in H as (h & _ & H).
      destruct h as [[r c]|]; [| by injection H as <-].
      apply bind_Some in H as (rot & _ & H).
      apply bind_Some in H as (g & _ & H). by injection H as <-. }
    destruct (IH s1)
      as (s' & Hn & Hplay' & Hnil' & Hsize' & Hwrap' & Hscore' & Hwon' & Hrtc);
      [by rewrite Hsize1, Hwrap1 | done | done | lia |].
    exists s'. cbn [hints]. rewrite Hhint. cbn [mbind option_bind].
    split_and!; try done; try congruence; [lia |].
    apply rtc_l with s1; [by right | done].
Qed.

(** The two sample games. *)
Lemma sampleGame_facts :
  playable sampleGame ∧ App.gridSize sampleGame = 7 ∧
  App.isWon sampleGame = false.
Proof.
  destruct (startNewGame_spec (λ k, k) Ui.initial)
    as (conn & grid & sol & sc & ts & Heq & Hpz & Hplay); [simpl; lia |].
  unfold sampleGame. rewrite Heq. cbn [from_option Ui.app].
  split; [| split; reflexivity]. exists conn. split; [exact Hpz | exact Hplay].
Qed.

Lemma solvedGame_facts :
  playable solvedGame ∧ App.gridSize solvedGame = 7 ∧
  App.isWon solvedGame = false ∧ incorrectTiles solvedGame = [] ∧
  rtc move sampleGame solvedGame.
Proof.
  destruct sampleGame_facts as ((conn & Hpz & Hplay) & Hsize & Hwon).
  destruct (hints_spec conn (length (incorrectTiles sampleGame)) sampleGame
              Hpz Hplay Hwon)
    as (s' & Hn & Hplay' & Hnil & Hsize' & Hwrap' & _ & Hwon' & Hrtc);
    [done |].
  unfold solvedGame. rewrite Hn. change (default sampleGame (Some s')) with s'.
  split; [exists conn; split; [rewrite Hsize', Hwrap'; exact Hpz | exact Hplay']
         |].
  split; [rewrite Hsize'; exact Hsize |].
  split; [exact Hwon' |]. split; [exact Hnil | exact Hrtc].
Qed.

Lemma sampleGame_playable : playable sampleGame.
Proof. apply (proj1 sampleGame_facts). Qed.



Lemma solvedGame_playable : playable solvedGame.
Proof. apply (proj1 solvedGame_facts). Qed.

Lemma solvedGame_size : App.gridSize solvedGame = 7.
Proof. apply (proj1 (proj2 solvedGame_facts)). Qed.

Lemma solvedGame_not_won : App.isWon solvedGame = false.
Proof. apply (proj1 (proj2 (proj2 solvedGame_facts))). Qed.

Lemma solvedGame_correct : incorrectTiles solvedGame = [].
Proof. apply (proj1 (proj2 (proj2 (proj2 solvedGame_facts)))). Qed.

Lemma solvedGame_reached : rtc move sampleGame solvedGame.
Proof. apply (proj2 (proj2 (proj2 (proj2 solvedGame_facts)))). Qed.

(** X13 (a board without incorrect tiles is won): in a game on a generated
    puzzle of size 2 or more, if no tile is incorrect then every cell is
    marked connected and the win check answers true. *)
Theorem correct_board_wins (s : App.State) :
  2 ≤ App.gridSize s → playable s → incorrectTiles s = [] →
  (∀ x, inGrid (App.gridSize s) x → connectedAt (App.grid s) x = true) ∧
  isWinConditionMet (App.grid s) (App.terminals s) (App.isWrapping s)
  = Some true.
Proof.
  intros Hs (conn & Hpz & Hplay). by apply (no_incorrect_wins conn).
Qed.

Lemma correct_board_wins_witness :
  (∀ x, inGrid (App.gridSize solvedGame) x →
        connectedAt (App.grid solvedGame) x = true) ∧
  isWinConditionMet (App.grid solvedGame) (App.terminals solvedGame)
    (App.isWrapping solvedGame) = Some true.
Proof.
  apply (correct_board_wins solvedGame).
  - rewrite solvedGame_size. lia.
  - exact solvedGame_playable.
  - exact solvedGame_correct.
Defined.





(** X16 (play never leaves the well-formed states): from a game on a
    generated puzzle, every sequence of rotations and hints leads to a game on
    that puzzle again (square grid, kinds and server as generated, rotations
    in 0..3, server tile at its solved rotation, flags as the Evaluator sets
    them), in which every rotation and the hint return normally. *)
Theorem play_stays_playable (s s' : App.State) :
  playable s → rtc move s s' →
  playable s' ∧
  (∀ r c, is_Some (App.rotateTile s' r c)) ∧
  is_Some (App.handleHintClick s').
Proof.
  intros Hplay Hrtc.
  assert (playable s') as Hplay'.
  { induction Hrtc as [| s s1 s' Hmove _ IH]; [done |].
    by apply IH, (playable_move s). }
  split; [done |]. by apply playable_total.
Qed.

Lemma play_stays_playable_witness :
  playable solvedGame ∧
  (∀ r c, is_Some (App.rotateTile solvedGame r c)) ∧
  is_Some (App.handleHintClick solvedGame).
Proof.
  apply (play_stays_playable sampleGame solvedGame).
  - exact sampleGame_playable.
  - exact solvedGame_reached.
Defined.

(** *** Keyboard navigation *)

Lemma moveFocus_neighbour (gridSize : Z) (isWrapping : bool) (r c : Z)
    (key : Key) (d : DirKey) :
  inGrid gridSize (r, c) → arrowDir key = Some d →
  Ui.moveFocus gridSize isWrapping r c key
  = Some (default (r, c) (neighbour gridSize isWrapping r c (DIRECTIONS d)))
  ∧ inGrid gridSize
      (default (r, c) (neighbour gridSize isWrapping r c (DIRECTIONS d))).
Proof.
  intros [Hr Hc] Hd. simpl in Hr, Hc.
  assert (0 < gridSize) as Hs by lia.
  unfold Ui.moveFocus. rewrite (proj2 (Z.eqb_neq gridSize 0)) by lia.
  rewrite andb_false_r.
  assert (∀ a, 0 ≤ a < gridSize → Z.rem (a + 0 + gridSize) gridSize = a)
    as Hstay.
  { intros a Ha. rewrite rem_wrap by lia. rewrite Z.add_0_r.
    by apply Z.mod_small. }
  assert (∀ a, 0 ≤ a < gridSize →
               Z.rem (a + 1) gridSize = Z.rem (a + 1 + gridSize) gridSize)
    as Hdown.
  { intros a Ha. rewrite rem_wrap by lia. apply Z.rem_mod_nonneg; lia. }
  assert (∀ a, 0 ≤ Z.rem a gridSize < gridSize ∨ a < 0) as Hrange.
  { intros a. destruct (Z.lt_ge_cases a 0); [by right | left].
    apply Z.rem_bound_pos; lia. }
  destruct isWrapping; destruct key; try done; injection Hd as <-;
    unfold neighbour, inBounds, inGrid; cbn [DIRECTIONS dr dc orb fst snd].
  - rewrite Hstay by done. simpl.
    replace (r + -1 + gridSize) with (r - 1 + gridSize) by lia.
    split; [done |]. destruct (Hrange (r - 1 + gridSize)); lia.
  - rewrite Hstay, <- Hdown by done. simpl.
    split; [done |]. destruct (Hrange (r + 1)); lia.
  - rewrite Hstay by done. simpl.
    replace (c + -1 + gridSize) with (c - 1 + gridSize) by lia.
    split; [done |]. destruct (Hrange (c - 1 + gridSize)); lia.
  - rewrite Hstay, <- Hdown by done. simpl.
    split; [done |]. destruct (Hrange (c + 1)); lia.
  - replace (r + -1) with (r - 1) by lia. rewrite Z.add_0_r.
    destruct (Z.leb_spec 0 (r - 1)); simpl.
    + rewrite (proj2 (Z.ltb_lt (r - 1) gridSize)) by lia.
      rewrite (proj2 (Z.leb_le 0 c)), (proj2 (Z.ltb_lt c gridSize)) by lia.
      simpl. rewrite Z.max_r by lia. split; [done | lia].
    + rewrite Z.max_l by lia. split; [f_equal; f_equal; lia | lia].
  - rewrite Z.add_0_r.
    rewrite (proj2 (Z.leb_le 0 (r + 1))) by lia.
    destruct (Z.ltb_spec (r + 1) gridSize); simpl.
    + rewrite (proj2 (Z.leb_le 0 c)), (proj2 (Z.ltb_lt c gridSize)) by lia.
      simpl. rewrite Z.min_r by lia. split; [done | lia].
    + rewrite Z.min_l by lia. split; [f_equal; f_equal; lia | lia].
  - replace (c + -1) with (c - 1) by lia. rewrite Z.add_0_r.
    rewrite (proj2 (Z.leb_le 0 r)), (proj2 (Z.ltb_lt r gridSize)) by lia.
    destruct (Z.leb_spec 0 (c - 1)); simpl.
    + rewrite (proj2 (Z.ltb_lt (c - 1) gridSize)) by lia.
      simpl. rewrite Z.max_r by lia. split; [done | lia].
    + rewrite Z.max_l by lia. split; [f_equal; f_equal; lia | lia].
  - rewrite Z.add_0_r.
    rewrite (proj2 (Z.leb_le 0 r)), (proj2 (Z.ltb_lt r gridSize)) by lia.
    rewrite (proj2 (Z.leb_le 0 (c + 1))) by lia.
    destruct (Z.ltb_spec (c + 1) gridSize); simpl.
    + rewrite Z.min_r by lia. split; [done | lia].
    + rewrite Z.min_l by lia. split; [f_equal; f_equal; lia | lia].
Qed.

(** X17 (arrow keys follow the topology): with the focus on a cell of the
    grid, an arrow key moves the focus to the topological neighbour in its
    direction, the one the engine uses, and leaves it in place where there is
    none (the edge of a bounded board); the new focus is a cell of the grid.
    The first block ignores the key once the game is won, the second does
    not. *)
Theorem arrow_keys_follow_topology (u : Ui.State) (focus : Coords)
    (key : Key) (d : DirKey) :
  inGrid (App.gridSize (Ui.app u)) focus →
  Ui.focusedTile u = Some focus → arrowDir key = Some d →
  ∃ target,
    target
    = default focus
        (neighbour (App.gridSize (Ui.app u)) (App.isWrapping (Ui.app u))
           focus.1 focus.2 (DIRECTIONS d)) ∧
    inGrid (App.gridSize (Ui.app u)) target ∧
    Ui.handleKeyDown u key
    = Some (if App.isWon (Ui.app u) then u
            else Ui.setFocusedTile u (Some target)) ∧
    LegacyUi.handleKeyDown u key = Some (Ui.setFocusedTile u (Some target)).
Proof.
  intros Hin Hfocus Hd. destruct focus as [r c].
  destruct (moveFocus_neighbour _ (App.isWrapping (Ui.app u)) r c key d Hin Hd)
    as [Hmove Htarget].
  eexists. split; [done |]. split; [exact Htarget |].
  unfold Ui.handleKeyDown, LegacyUi.handleKeyDown. rewrite Hfocus.
  split.
  - destruct (App.isWon (Ui.app u)); [done |].
    destruct key; try done; by rewrite Hmove.
  - destruct key; try done; by rewrite Hmove.
Qed.

Lemma arrow_keys_follow_topology_witness :
  ∃ target,
    target
    = default (0, 0)
        (neighbour (App.gridSize (Ui.app Ui.initial))
           (App.isWrapping (Ui.app Ui.initial))
           (0, 0).1 (0, 0).2 (DIRECTIONS DirN)) ∧
    inGrid (App.gridSize (Ui.app Ui.initial)) target ∧
    Ui.handleKeyDown Ui.initial ArrowUp
    = Some (if App.isWon (Ui.app Ui.initial) then Ui.initial
            else Ui.setFocusedTile Ui.initial (Some target)) ∧
    LegacyUi.handleKeyDown Ui.initial ArrowUp
    = Some (Ui.setFocusedTile Ui.initial (Some target)).
Proof.
  apply (arrow_keys_follow_topology Ui.initial (0, 0) ArrowUp DirN);
    try reflexivity.
  unfold inGrid; simpl; lia.
Defined.

(** *** Leaderboard *)

Lemma descending_cons (x : ScoreEntry) (l : list ScoreEntry) :
  descending (x :: l) ↔
  (∀ y, y ∈ l → entryScore y ≤ entryScore x) ∧ descending l.
Proof.
  split.
  - intros H. split.
    + intros y Hy. apply list_elem_of_lookup in Hy as [j Hj].
      apply (H 0%nat (S j) x y); [lia | done | done].
    + intros i j a b Hij Ha Hb. apply (H (S i) (S j) a b); [lia | done | done].
  - intros [Hx Hl] i j a b Hij Ha Hb.
    destruct j as [| j]; [lia |]. simpl in Hb.
    destruct i as [| i]; simpl in Ha.
    + injection Ha as <-. apply Hx. by apply list_elem_of_lookup_2 in Hb.
    + apply (Hl i j a b); [lia | done | done].
Qed.

Lemma descending_take (n : nat) (l : list ScoreEntry) :
  descending l → descending (take n l).
Proof.
  intros H i j a b Hij Ha Hb.
  apply lookup_take_Some in Ha as [Ha _]. apply lookup_take_Some in Hb as [Hb _].
  by apply (H i j a b).
Qed.

Lemma insertByScore_perm (e : ScoreEntry) (l : list ScoreEntry) :
  insertByScore e l ≡ₚ e :: l.
Proof.
  induction l as [| x l IH]; simpl; [done |].
  destruct (entryScore x <? entryScore e); [done |].
  rewrite IH. apply Permutation_swap.
Qed.

Lemma insertByScore_descending (e : ScoreEntry) (l : list ScoreEntry) :
  descending l → descending (insertByScore e l).
Proof.
  induction l as [| x l IH]; intros Hl; simpl.
  - apply descending_cons. split; [| done]. intros y Hy.
    by apply elem_of_nil in Hy.
  - apply descending_cons in Hl as [Hx Hl].
    destruct (Z.ltb_spec (entryScore x) (entryScore e)).
    + apply descending_cons. split.
      * intros y Hy. apply elem_of_cons in Hy as [-> | Hy]; [lia |].
        specialize (Hx y Hy). lia.
      * by apply descending_cons.
    + apply descending_cons. split; [| by apply IH].
      intros y Hy. rewrite insertByScore_perm in Hy.
      apply elem_of_cons in Hy as [-> | Hy]; [lia | by apply Hx].
Qed.

Lemma insertByScore_behind (e : ScoreEntry) (l : list ScoreEntry) :
  (∀ y, y ∈ l → entryScore e ≤ entryScore y) → insertByScore e l = l ++ [e].
Proof.
  induction l as [| x l IH]; intros H; simpl; [done |].
  rewrite (proj2 (Z.ltb_ge (entryScore x) (entryScore e)))
    by (apply H; left).
  f_equal. apply IH. intros y Hy. apply H. by right.
Qed.

Lemma insertByScore_place (e : ScoreEntry) (l : list ScoreEntry) :
  ∃ l1 l2,
    l = l1 ++ l2 ∧ insertByScore e l = l1 ++ e :: l2 ∧
    (∀ y, y ∈ l1 → entryScore e ≤ entryScore y).
Proof.
  induction l as [| x l (l1 & l2 & Hl & Hins & Hl1)]; simpl.
  - exists [], []. split_and!; try done. intros y Hy.
    by apply elem_of_nil in Hy.
  - destruct (Z.ltb_spec (entryScore x) (entryScore e)).
    + exists [], (x :: l). split_and!; try done. intros y Hy.
      by apply elem_of_nil in Hy.
    + exists (x :: l1), l2. rewrite Hl at 1. rewrite Hins.
      split_and!; try done. intros y Hy.
      apply elem_of_cons in Hy as [-> | Hy]; [done | by apply Hl1].
Qed.

Lemma sortByScore_from (acc l : list ScoreEntry) :
  descending acc →
  descending (foldl (λ sorted e, insertByScore e sorted) acc l) ∧
  foldl (λ sorted e, insertByScore e sorted) acc l ≡ₚ acc ++ l.
Proof.
  revert acc. induction l as [| x l IH]; intros acc Hacc; simpl.
  - by rewrite app_nil_r.
  - destruct (IH (insertByScore x acc)) as [Hd Hp];
      [by apply insertByScore_descending |].
    split; [done |]. rewrite Hp, insertByScore_perm. simpl.
    apply Permutation_middle.
Qed.

Lemma descending_nil : descending [].
Proof. intros i j a b _ Ha. done. Qed.

Lemma sortByScore_sorted (acc l : list ScoreEntry) :
  descending (acc ++ l) →
  foldl (λ sorted e, insertByScore e sorted) acc l = acc ++ l.
Proof.
  revert acc. induction l as [| x l IH]; intros acc H; simpl.
  - by rewrite app_nil_r.
  - rewrite insertByScore_behind.
    + rewrite IH; rewrite <- app_assoc; done.
    + intros y Hy. apply list_elem_of_lookup in Hy as [i Hi].
      apply (H i (length acc) y x).
      * by apply lookup_lt_Some in Hi.
      * by apply lookup_app_l_Some.
      * by rewrite list_lookup_middle.
Qed.

Lemma sortByScore_append (e : ScoreEntry) (l : list ScoreEntry) :
  descending l → sortByScore (l ++ [e]) = insertByScore e l.
Proof.
  intros H. unfold sortByScore. rewrite foldl_app. simpl.
  by rewrite (sortByScore_sorted [] l).
Qed.

Lemma sortByScore_spec (entries : list ScoreEntry) :
  descending (sortByScore entries) ∧ sortByScore entries ≡ₚ entries.
Proof. apply (sortByScore_from [] entries descending_nil). Qed.

Lemma updateLeaderboard_descending (newScore : ScoreEntry)
    (prevLeaderboard : list ScoreEntry) :
  descending (updateLeaderboard newScore prevLeaderboard).
Proof. apply descending_take, sortByScore_spec. Qed.

Lemma updateLeaderboard_length (newScore : ScoreEntry)
    (prevLeaderboard : list ScoreEntry) :
  length (updateLeaderboard newScore prevLeaderboard)
  = Nat.min 10 (S (length prevLeaderboard)).
Proof.
  unfold updateLeaderboard.
  rewrite length_take, (proj2 (sortByScore_spec _)), length_app. simpl.
  by rewrite Nat.add_1_r.
Qed.

(** X18 (the leaderboard stays sorted and short): the updated leaderboard
    is in descending order of score, holds the smaller of 10 and one more
    entry than before, and every entry it holds is the new one or an old
    one. *)
Theorem leaderboard_update_sorted (newScore : ScoreEntry)
    (prevLeaderboard : list ScoreEntry) :
  descending (updateLeaderboard newScore prevLeaderboard) ∧
  length (updateLeaderboard newScore prevLeaderboard)
  = Nat.min 10 (S (length prevLeaderboard)) ∧
  updateLeaderboard newScore prevLeaderboard ⊆+ newScore :: prevLeaderboard.
Proof.
  split; [apply updateLeaderboard_descending |].
  split; [apply updateLeaderboard_length |].
  unfold updateLeaderboard.
  transitivity (sortByScore (prevLeaderboard ++ [newScore])).
  - apply sublist_submseteq, sublist_take.
  - rewrite (proj2 (sortByScore_spec _)). apply Permutation_submseteq.
    by rewrite <- Permutation_cons_append.
Qed.

Lemma isTopTen_kept (newScore : ScoreEntry)
    (prevLeaderboard : list ScoreEntry) :
  descending prevLeaderboard → (length prevLeaderboard ≤ 10)%nat →
  isTopTen prevLeaderboard (entryScore newScore) = Some true →
  newScore ∈ updateLeaderboard newScore prevLeaderboard.
Proof.
  intros Hd Hlen. unfold isTopTen, updateLeaderboard.
  rewrite sortByScore_append by done.
  destruct (Z.ltb_spec (Z.of_nat (length prevLeaderboard)) 10) as [Hlt | Hge].
  - intros _. rewrite take_ge.
    + rewrite insertByScore_perm. by left.
    + rewrite insertByScore_perm. simpl. lia.
  - assert (length prevLeaderboard = 10%nat) as Hten by lia.
    rewrite Hten. change (Z.of_nat 10 - 1) with (Z.of_nat 9).
    rewrite readAt_of_nat.
    destruct (prevLeaderboard !! 9%nat) as [lowest|] eqn:Hlow; [| done].
    cbn [mbind option_bind]. intros [= Hgt]. apply Z.gtb_lt in Hgt.
    destruct (insertByScore_place newScore prevLeaderboard)
      as (l1 & l2 & Hl & -> & Hl1).
    assert (length l1 ≤ 9)%nat as Hshort.
    { destruct (decide (length l1 ≤ 9)%nat) as [| Hlong]; [done |].
      assert (lowest ∈ l1) as Hin.
      { apply list_elem_of_lookup. exists 9%nat.
        rewrite Hl in Hlow. rewrite lookup_app_l in Hlow by lia. done. }
      apply Hl1 in Hin. lia. }
    apply elem_of_take. exists (length l1). split; [| lia].
    by rewrite list_lookup_middle.
Qed.

Lemma isTopTen_dropped (newScore : ScoreEntry)
    (prevLeaderboard : list ScoreEntry) :
  descending prevLeaderboard → (length prevLeaderboard ≤ 10)%nat →
  isTopTen prevLeaderboard (entryScore newScore) = Some false →
  updateLeaderboard newScore prevLeaderboard = prevLeaderboard.
Proof.
  intros Hd Hlen. unfold isTopTen, updateLeaderboard.
  rewrite sortByScore_append by done.
  destruct (Z.ltb_spec (Z.of_nat (length prevLeaderboard)) 10) as [Hlt | Hge];
    [done |].
  assert (length prevLeaderboard = 10%nat) as Hten by lia.
  rewrite Hten. change (Z.of_nat 10 - 1) with (Z.of_nat 9).
  rewrite readAt_of_nat.
  destruct (prevLeaderboard !! 9%nat) as [lowest|] eqn:Hlow; [| done].
  cbn [mbind option_bind]. intros [= Hle].
  assert (entryScore newScore ≤ entryScore lowest) as Hle'.
  { destruct (Z.gtb_spec (entryScore newScore) (entryScore lowest)); [done |].
    lia. }
  rewrite insertByScore_behind.
  - by rewrite take_app_length' by done.
  - intros y Hy. apply list_elem_of_lookup in Hy as [i Hi].
    destruct (decide (i = 9%nat)) as [-> | Hne].
    + assert (y = lowest) as -> by congruence. lia.
    + pose proof (lookup_lt_Some _ _ _ Hi).
      assert (i < 9)%nat as Hi9 by lia.
      pose proof (Hd i 9%nat y lowest Hi9 Hi Hlow). lia.
Qed.

Lemma isTopTen_total (leaderboard : list ScoreEntry) (final : Z) :
  is_Some (isTopTen leaderboard final).
Proof.
  unfold isTopTen.
  destruct (Z.ltb_spec (Z.of_nat (length leaderboard)) 10); [done |].
  destruct (proj2 (readAt_is_Some leaderboard
                     (Z.of_nat (length leaderboard) - 1))) as [e ->];
    [lia | done].
Qed.

(** X19 (the high-score flag is exact): for a leaderboard in descending
    order with at most 10 entries, the test made at the win returns an
    answer; when it answers true the new entry is on the updated
    leaderboard, and when it answers false the update would leave the
    leaderboard as it is. *)
Theorem top_ten_flag_exact (newScore : ScoreEntry)
    (prevLeaderboard : list ScoreEntry) :
  descending prevLeaderboard → (length prevLeaderboard ≤ 10)%nat →
  ∃ flag,
    isTopTen prevLeaderboard (entryScore newScore) = Some flag ∧
    if flag : bool
    then newScore ∈ updateLeaderboard newScore prevLeaderboard
    else updateLeaderboard newScore prevLeaderboard = prevLeaderboard.
Proof.
  intros Hd Hlen.
  destruct (isTopTen_total prevLeaderboard (entryScore newScore))
    as [flag Hflag].
  exists flag. split; [done |]. destruct flag.
  - by apply isTopTen_kept.
  - by apply isTopTen_dropped.
Qed.

Lemma top_ten_flag_exact_witness :
  ∃ flag,
    isTopTen [mkScoreEntry String.EmptyString 300 5 false;
              mkScoreEntry String.EmptyString 100 7 true] 200
    = Some flag ∧
    if flag : bool
    then mkScoreEntry String.EmptyString 200 9 true
         ∈ updateLeaderboard (mkScoreEntry String.EmptyString 200 9 true)
             [mkScoreEntry String.EmptyString 300 5 false;
              mkScoreEntry String.EmptyString 100 7 true]
    else updateLeaderboard (mkScoreEntry String.EmptyString 200 9 true)
           [mkScoreEntry String.EmptyString 300 5 false;
            mkScoreEntry String.EmptyString 100 7 true]
         = [mkScoreEntry String.EmptyString 300 5 false;
            mkScoreEntry String.EmptyString 100 7 true].
Proof.
  apply (top_ten_flag_exact (mkScoreEntry String.EmptyString 200 9 true)
           [mkScoreEntry String.EmptyString 300 5 false;
            mkScoreEntry String.EmptyString 100 7 true]).
  - intros i j a b Hij Ha Hb.
    destruct i as [| [| i]], j as [| [| j]]; try lia; try done.
    injection Ha as <-. injection Hb as <-. simpl. lia.
  - simpl. lia.
Defined.

(** *** The distance map of the win cascade *)

Lemma writeAt_Some (m m' : list (list Z)) (r c v : Z) :
  writeAt m r c v = Some m' →
  ∀ r' c', cell m' r' c'
           = if decide ((r', c') = (r, c)) then Some v else cell m r' c'.
Proof.
  unfold writeAt. intros H. apply bind_Some in H as (old & Hold & H).
  injection H as <-. intros r' c'.
  pose proof Hold as Hold'.
  apply cell_Some in Hold' as (row & Hrow & Hc).
  apply readAt_Some in Hrow as [Hr _]. apply readAt_Some in Hc as [Hc _].
  rewrite cell_alter by done. case_decide as E; [| done].
  injection E as -> ->. by rewrite Hold.
Qed.

Lemma square_writeAt (size : Z) (m m' : list (list Z)) (r c v : Z) :
  square size m → writeAt m r c v = Some m' → square size m'.
Proof.
  unfold writeAt. intros Hsq H. apply bind_Some in H as (old & _ & H).
  injection H as <-. by apply square_alter.
Qed.

Lemma writeAt_total (size : Z) (m : list (list Z)) (x : Coords) (v : Z) :
  square size m → inGrid size x → is_Some (writeAt m x.1 x.2 v).
Proof.
  intros Hsq Hx. destruct (cell_is_Some size m x Hsq Hx) as [old H].
  unfold writeAt. rewrite H. by eexists.
Qed.

Lemma distAt_writeAt (m m' : list (list Z)) (x y : Coords) (v : Z) :
  writeAt m x.1 x.2 v = Some m' →
  distAt m' y = if decide (y = x) then v else distAt m y.
Proof.
  intros H. unfold distAt. rewrite (writeAt_Some _ _ _ _ _ H).
  destruct x, y. simpl. by case_decide.
Qed.

Section Distance.

Variables (grid : Grid) (size : Z) (isWrapping : bool) (serverCoords : Coords).

Hypothesis Hsq : square size grid.

Lemma distExpand_spec (x : Coords) (dist : Z) (st st' : DistState)
    (key : DirKey) :
  distExpand grid size isWrapping x.1 x.2 dist (maskAt grid x) st key
  = Some st' →
  (st' = st ∧
   ∀ y, hasBit (maskAt grid x) key →
        neighbour size isWrapping x.1 x.2 (DIRECTIONS key) = Some y →
        connectedAt grid y = true → y ∈ visitedForDist st) ∨
  (∃ y map',
     hasBit (maskAt grid x) key ∧
     neighbour size isWrapping x.1 x.2 (DIRECTIONS key) = Some y ∧
     ¬ (y ∈ visitedForDist st) ∧ connectedAt grid y = true ∧
     writeAt (newDistanceMap st) y.1 y.2 (dist + 1) = Some map' ∧
     st' = mkDist (distQueue st ++ [(y, dist + 1)]) (distHead st)
                  ({[y]} ∪ visitedForDist st) map').
Proof.
  unfold distExpand. cbv zeta.
  destruct (Z.eqb_spec (Z.land (maskAt grid x) (mask (DIRECTIONS key))) 0)
    as [Hz | Hnz].
  { intros [= <-]. left. split; [done |]. intros y Hbit. by destruct Hbit. }
  destruct (neighbour size isWrapping x.1 x.2 (DIRECTIONS key))
    as [[nr nc]|] eqn:Hn; [| intros [= <-]; by left].
  case_bool_decide as Hvis.
  { intros [= <-]. left. split; [done |]. by intros y _ [= <-] _. }
  intros H. apply bind_Some in H as (nb & Hnb & H).
  destruct (connected nb) eqn:Hc.
  - apply bind_Some in H as (map' & Hw & H). injection H as <-.
    right. exists (nr, nc), map'. split_and!; try done.
    unfold connectedAt. simpl. by rewrite Hnb.
  - injection H as <-. left. split; [done |]. intros y _ [= <-].
    unfold connectedAt. simpl. rewrite Hnb. simpl. congruence.
Qed.

Lemma distExpand_inv (closed : nat) (x : Coords) (dist : Z)
    (st st' : DistState) (key : DirKey) :
  distInv grid size isWrapping serverCoords closed st →
  (x, dist) ∈ distQueue st →
  distExpand grid size isWrapping x.1 x.2 dist (maskAt grid x) st key
  = Some st' →
  distInv grid size isWrapping serverCoords closed st' ∧
  distHead st' = distHead st ∧
  (∀ i e, distQueue st !! i = Some e → distQueue st' !! i = Some e) ∧
  (∀ z, z ∈ visitedForDist st → z ∈ visitedForDist st') ∧
  (∀ y, hasBit (maskAt grid x) key →
        neighbour size isWrapping x.1 x.2 (DIRECTIONS key) = Some y →
        connectedAt grid y = true → y ∈ visitedForDist st').
Proof.
  intros Hinv Hx H.
  apply distExpand_spec in H
    as [[-> Hcl] | (y & map' & Hbit & Hn & Hnew & Hc & Hw & ->)];
    [by split_and! |].
  destruct Hinv as (Hmap & Hhead & Hnd & Hvis & Hent & Hout & Hreach & Hclosed
                    & Hlayer & Hserver).
  destruct (Hent x dist Hx) as (Hxin & Hxd & Hd0).
  assert (inGrid size y) as Hyin.
  { destruct x as [r c]. by apply (neighbour_inGrid size isWrapping r c key). }
  assert (powers grid size isWrapping x y) as Hpow by (by exists key).
  split; [| split_and!];
    cbn [distQueue distHead visitedForDist newDistanceMap].
  - unfold distInv. cbn [distQueue distHead visitedForDist newDistanceMap].
    split_and!.
    + by apply (square_writeAt size _ _ _ _ _ Hmap Hw).
    + lia.
    + rewrite length_app. simpl. lia.
    + rewrite fmap_app. simpl. apply NoDup_app. split; [done |].
      split; [| apply NoDup_singleton].
      intros z Hz ->%list_elem_of_singleton. by apply Hnew, Hvis.
    + intros z. rewrite fmap_app, elem_of_app, elem_of_union, Hvis. simpl.
      rewrite elem_of_singleton, list_elem_of_singleton. tauto.
    + intros z d Hz. rewrite (distAt_writeAt _ _ y z _ Hw).
      apply elem_of_app in Hz as [Hz | Hz].
      * destruct (Hent z d Hz) as (? & ? & ?).
        rewrite decide_False; [done |]. intros ->. apply Hnew, Hvis.
        apply list_elem_of_fmap. by exists (y, d).
      * apply list_elem_of_singleton in Hz as [= -> ->].
        rewrite decide_True by done. split_and!; [done | done | lia].
    + intros z Hz Hnot. rewrite (distAt_writeAt _ _ y z _ Hw).
      rewrite decide_False by (intros ->; apply Hnot; set_solver).
      apply Hout; [done |]. intros Hin. apply Hnot. set_solver.
    + intros z Hz. apply elem_of_union in Hz as [->%elem_of_singleton | Hz].
      * apply rtc_r with x; [| done]. apply Hreach, Hvis.
        apply list_elem_of_fmap. by exists (x, dist).
      * by apply Hreach.
    + intros i z d z' Hi Hz Hpz. apply elem_of_union. right.
      apply (Hclosed i z d z' Hi); [| done].
      rewrite lookup_app_l in Hz by lia. done.
    + intros z d Hz. apply elem_of_app in Hz as [Hz | Hz].
      * destruct (Hlayer z d Hz) as [? | (z0 & Hz0 & Hp)]; [by left |].
        right. exists z0. split; [| done]. apply elem_of_app. by left.
      * apply list_elem_of_singleton in Hz as [= -> ->]. right. exists x.
        split; [| done]. apply elem_of_app. left.
        by replace (dist + 1 - 1) with dist by lia.
    + apply elem_of_app. by left.
  - done.
  - intros i e Hi. by apply lookup_app_l_Some.
  - intros z Hz. set_solver.
  - intros y' _ Hn' _. assert (y' = y) as -> by congruence. set_solver.
Qed.

Lemma distExpand_total (closed : nat) (x : Coords) (dist conn : Z)
    (st : DistState) (key : DirKey) :
  distInv grid size isWrapping serverCoords closed st → inGrid size x →
  is_Some (distExpand grid size isWrapping x.1 x.2 dist conn st key).
Proof.
  intros (Hmap & _) Hx. unfold distExpand. cbv zeta.
  destruct (_ =? 0); [done |].
  destruct (neighbour size isWrapping x.1 x.2 (DIRECTIONS key))
    as [[nr nc]|] eqn:Hn; [| done].
  case_bool_decide; [done |].
  assert (inGrid size (nr, nc)) as Hin.
  { destruct x as [r c]. by apply (neighbour_inGrid size isWrapping r c key). }
  destruct (cell_is_Some size grid (nr, nc) Hsq Hin) as [nb Hnb].
  simpl in Hnb. rewrite Hnb. cbn [mbind option_bind].
  destruct (connected nb); [| done].
  destruct (writeAt_total size (newDistanceMap st) (nr, nc) (dist + 1) Hmap Hin)
    as [map' Hw].
  simpl in Hw. by rewrite Hw.
Qed.

Lemma distExpandAll_inv (closed : nat) (x : Coords) (dist : Z)
    (keys : list DirKey) (st st' : DistState) :
  distInv grid size isWrapping serverCoords closed st →
  (x, dist) ∈ distQueue st →
  distExpandAll grid size isWrapping x.1 x.2 dist (maskAt grid x) st keys
  = Some st' →
  distInv grid size isWrapping serverCoords closed st' ∧
  distHead st' = distHead st ∧
  (∀ i e, distQueue st !! i = Some e → distQueue st' !! i = Some e) ∧
  (∀ z, z ∈ visitedForDist st → z ∈ visitedForDist st') ∧
  (∀ key y, key ∈ keys → hasBit (maskAt grid x) key →
            neighbour size isWrapping x.1 x.2 (DIRECTIONS key) = Some y →
            connectedAt grid y = true → y ∈ visitedForDist st').
Proof.
  revert st. induction keys as [| key keys IH]; intros st Hinv Hx H.
  - injection H as <-. do 4 (split; [done |]). intros key y Hk.
    by apply elem_of_nil in Hk.
  - cbn [distExpandAll] in H. apply bind_Some in H as (st1 & H1 & H).
    destruct (distExpand_inv closed x dist st st1 key Hinv Hx H1)
      as (Hinv1 & Hh1 & Hq1 & Hv1 & Hc1).
    assert ((x, dist) ∈ distQueue st1) as Hx1.
    { apply list_elem_of_lookup in Hx as [i Hi].
      apply list_elem_of_lookup. exists i. by apply Hq1. }
    destruct (IH st1 Hinv1 Hx1 H) as (Hinv' & Hh' & Hq' & Hv' & Hc').
    split; [done |]. split_and!.
    + congruence.
    + intros i e Hi. by apply Hq', Hq1.
    + intros z Hz. by apply Hv', Hv1.
    + intros k y Hk Hbit Hn Hy.
      apply elem_of_cons in Hk as [-> | Hk]; [| by apply (Hc' k)].
      by apply Hv', Hc1.
Qed.

Lemma distExpandAll_total (closed : nat) (x : Coords) (dist : Z)
    (keys : list DirKey) (st : DistState) :
  distInv grid size isWrapping serverCoords closed st →
  (x, dist) ∈ distQueue st →
  is_Some (distExpandAll grid size isWrapping x.1 x.2 dist (maskAt grid x)
             st keys).
Proof.
  revert st. induction keys as [| key keys IH]; intros st Hinv Hx; [done |].
  cbn [distExpandAll].
  assert (inGrid size x) as Hxin.
  { destruct Hinv as (_ & _ & _ & _ & Hent & _). by apply (Hent x dist). }
  destruct (distExpand_total closed x dist (maskAt grid x) st key Hinv Hxin)
    as [st1 H1].
  rewrite H1. cbn [mbind option_bind].
  destruct (distExpand_inv closed x dist st st1 key Hinv Hx H1)
    as (Hinv1 & _ & Hq1 & _).
  apply IH; [done |].
  apply list_elem_of_lookup in Hx as [i Hi].
  apply list_elem_of_lookup. exists i. by apply Hq1.
Qed.

Lemma distStep_inv (st : DistState) (e : Coords * Z) :
  distInv grid size isWrapping serverCoords (distHead st) st →
  distQueue st !! distHead st = Some e →
  ∃ st',
    distStep grid size isWrapping st = Some st' ∧
    distHead st' = S (distHead st) ∧
    distInv grid size isWrapping serverCoords (distHead st') st'.
Proof.
  intros Hinv He. destruct e as [x dist].
  set (st1 := mkDist (distQueue st) (S (distHead st)) (visitedForDist st)
                     (newDistanceMap st)).
  assert ((x, dist) ∈ distQueue st) as Hx by by apply list_elem_of_lookup_2 in He.
  assert (distInv grid size isWrapping serverCoords (distHead st) st1) as Hinv1.
  { destruct Hinv as (? & ? & ? & ? & ? & ? & ? & ? & ? & ?).
    unfold distInv. split_and!; try done; simpl; [lia |].
    apply lookup_lt_Some in He. lia. }
  destruct (distExpandAll_total (distHead st) x dist dirKeys st1 Hinv1 Hx)
    as [st' H'].
  destruct (distExpandAll_inv (distHead st) x dist dirKeys st1 st' Hinv1 Hx H')
    as (Hinv' & Hh' & Hq' & Hv' & Hc').
  assert (inGrid size x) as Hxin.
  { destruct Hinv as (_ & _ & _ & _ & Hent & _). by apply (Hent x dist). }
  destruct (cell_is_Some size grid x Hsq Hxin) as [tile Htile].
  exists st'. split; [| split; [done |]].
  - unfold distStep. rewrite He. destruct x as [qr qc]. simpl in Htile.
    rewrite Htile. cbn [mbind option_bind].
    by rewrite <- (maskAt_cell grid qr qc tile Htile).
  - destruct Hinv' as (Hmap & Hhead & Hnd & Hvis & Hent & Hout & Hreach
                       & Hclosed & Hlayer & Hserver).
    rewrite Hh' in Hhead. simpl in Hhead.
    unfold distInv. rewrite Hh'. simpl. split_and!; try done; try lia.
    intros i z d y Hi Hz Hp.
    {
      destruct (decide (i = distHead st)) as [-> | Hne].
      * assert ((z, d) = (x, dist)) as [= -> ->].
        { apply Hq' in He. simpl in He. congruence. }
        destruct Hp as (key & Hbit & Hn & Hy).
        apply (Hc' key y); try done. apply elem_of_dirKeys.
      * apply (Hclosed i z d y); [lia | done | done]. }
Qed.

Lemma distInv_length (closed : nat) (st : DistState) :
  distInv grid size isWrapping serverCoords closed st →
  (length (distQueue st) ≤ Z.to_nat size * Z.to_nat size)%nat.
Proof.
  intros (_ & _ & Hnd & _ & Hent & _).
  rewrite <- length_allCoords, <- (length_fmap fst).
  apply submseteq_length, NoDup_submseteq; [done |].
  intros x Hx. apply list_elem_of_fmap in Hx as ([x' d] & -> & Hx).
  apply allCoords_elem. by apply (Hent x' d).
Qed.

Lemma distLoop_inv (fuel : nat) (st : DistState) (res : list (list Z)) :
  distInv grid size isWrapping serverCoords (distHead st) st →
  distLoop fuel grid size isWrapping st = Some res →
  ∃ st',
    distInv grid size isWrapping serverCoords (distHead st') st' ∧
    distQueue st' !! distHead st' = None ∧ newDistanceMap st' = res.
Proof.
  revert st. induction fuel as [| fuel IH]; intros st Hinv H; simpl in H.
  - destruct (distQueue st !! distHead st) eqn:He; [done |].
    injection H as <-. by exists st.
  - destruct (distQueue st !! distHead st) as [e|] eqn:He.
    + destruct (distStep_inv st e Hinv He) as (st1 & Hstep & _ & Hinv1).
      rewrite Hstep in H. cbn [mbind option_bind] in H. by apply (IH st1).
    + injection H as <-. by exists st.
Qed.

Lemma distLoop_total (fuel : nat) (st : DistState) :
  distInv grid size isWrapping serverCoords (distHead st) st →
  (Z.to_nat size * Z.to_nat size ≤ fuel + distHead st)%nat →
  is_Some (distLoop fuel grid size isWrapping st).
Proof.
  revert st. induction fuel as [| fuel IH]; intros st Hinv Hfuel; simpl.
  - pose proof (distInv_length _ st Hinv) as Hlen.
    rewrite (proj2 (lookup_ge_None _ _)) by lia. done.
  - destruct (distQueue st !! distHead st) as [e|] eqn:He; [| done].
    destruct (distStep_inv st e Hinv He) as (st1 & -> & Hh1 & Hinv1).
    cbn [mbind option_bind]. apply IH; [done | lia].
Qed.

Lemma distInv_init (map0 : list (list Z)) :
  inGrid size serverCoords →
  writeAt (matrix size (-1)) serverCoords.1 serverCoords.2 0 = Some map0 →
  distInv grid size isWrapping serverCoords 0
    (mkDist [(serverCoords, 0)] 0 {[serverCoords]} map0).
Proof.
  intros Hsc Hw.
  assert (0 ≤ size) as Hs by (destruct Hsc; lia).
  unfold distInv. split_and!; simpl.
  - apply (square_writeAt size _ _ _ _ _ (square_matrix size (-1) Hs) Hw).
  - lia.
  - lia.
  - apply NoDup_singleton.
  - intros x. by rewrite elem_of_singleton, list_elem_of_singleton.
  - intros x d [= -> ->]%list_elem_of_singleton.
    rewrite (distAt_writeAt _ _ serverCoords serverCoords _ Hw).
    by rewrite decide_True by done.
  - intros x Hx Hnot. rewrite (distAt_writeAt _ _ serverCoords x _ Hw).
    rewrite decide_False by set_solver.
    unfold distAt. destruct x. by rewrite cell_matrix.
  - intros x ->%elem_of_singleton. done.
  - intros i x d y Hi. lia.
  - intros y d [= -> ->]%list_elem_of_singleton. by left.
  - by apply list_elem_of_singleton.
Qed.

Lemma computeDistanceMap_spec :
  Z.of_nat (length grid) = size → inGrid size serverCoords →
  ∃ distanceMap,
    computeDistanceMap grid serverCoords isWrapping = Some distanceMap ∧
    square size distanceMap ∧
    (∀ x, inGrid size x →
          (0 ≤ distAt distanceMap x ↔
           rtc (powers grid size isWrapping) serverCoords x) ∧
          (distAt distanceMap x = -1 ∨ 0 ≤ distAt distanceMap x) ∧
          (distAt distanceMap x = 0 ↔ x = serverCoords) ∧
          (0 < distAt distanceMap x →
           ∃ y, inGrid size y ∧
                distAt distanceMap y = distAt distanceMap x - 1 ∧
                powers grid size isWrapping y x)).
Proof.
  intros Hlen Hsc. unfold computeDistanceMap. cbv zeta. rewrite Hlen.
  assert (0 ≤ size) as Hs by (destruct Hsc; lia).
  destruct (writeAt_total size (matrix size (-1)) serverCoords 0
              (square_matrix size (-1) Hs) Hsc) as [map0 Hw].
  rewrite Hw. cbn [mbind option_bind].
  pose proof (distInv_init map0 Hsc Hw) as Hinv0.
  destruct (distLoop_total (length grid * length grid)
              (mkDist [(serverCoords, 0)] 0 {[serverCoords]} map0) Hinv0)
    as [res Hres]; [simpl; lia |].
  exists res. split; [done |].
  apply distLoop_inv in Hres as (st & Hinv & Hend & <-); [| done].
  destruct Hinv as (Hmap & Hhead & Hnd & Hvis & Hent & Hout & Hreach & Hclosed
                    & Hlayer & Hserver).
  apply lookup_ge_None in Hend.
  assert (∀ x, x ∈ visitedForDist st →
               ∃ d, (x, d) ∈ distQueue st ∧
                    distAt (newDistanceMap st) x = d ∧ 0 ≤ d) as Hdist.
  { intros x Hx. apply Hvis, list_elem_of_fmap in Hx as ([x' d] & -> & Hx).
    exists d. split; [done |]. by apply (Hent x' d). }
  assert (serverCoords ∈ visitedForDist st) as Hsrv.
  { apply Hvis, list_elem_of_fmap. by exists (serverCoords, 0). }
  assert (∀ x, rtc (powers grid size isWrapping) serverCoords x →
               x ∈ visitedForDist st) as Hcomplete.
  { apply (rtc_ind_r (λ z, z ∈ visitedForDist st)); [done |].
    intros y z _ Hp Hy.
    apply Hvis, list_elem_of_fmap in Hy as ([y' d] & -> & Hy).
    apply list_elem_of_lookup in Hy as [i Hi].
    apply (Hclosed i y' d z); [| done | done].
    apply lookup_lt_Some in Hi. lia. }
  split; [done |]. intros x Hx.
  destruct (decide (x ∈ visitedForDist st)) as [Hin | Hnot].
  - destruct (Hdist x Hin) as (d & Hq & Hd & Hd0).
    split; [| split; [| split]].
    + split; [intros _; by apply Hreach | lia].
    + right. lia.
    + split.
      * intros Hzero.
        destruct (Hlayer x d Hq) as [[-> _] | (x0 & Hx0 & _)]; [done |].
        destruct (Hent x0 (d - 1) Hx0) as (_ & _ & ?). lia.
      * intros ->. by destruct (Hent serverCoords 0 Hserver) as (_ & ? & _).
    + intros Hpos.
      destruct (Hlayer x d Hq) as [[_ ->] | (x0 & Hx0 & Hp)]; [lia |].
      destruct (Hent x0 (d - 1) Hx0) as (Hx0in & Hx0d & _).
      exists x0. split; [done |]. split; [lia | done].
  - pose proof (Hout x Hx Hnot) as Hminus.
    split; [| split; [| split]].
    + split; [lia |]. intros Hr. by apply Hcomplete in Hr.
    + by left.
    + split; [lia |]. intros ->. done.
    + lia.
Qed.

End Distance.

(** *** The win check and the win effect *)

Lemma allM_total {A} (check : A → option bool) (l : list A) :
  (∀ x, x ∈ l → is_Some (check x)) → is_Some (allM check l).
Proof.
  induction l as [| x l IH]; intros H; simpl; [done |].
  destruct (H x) as [ok ->]; [by left |]. cbn [mbind option_bind].
  destruct ok; [| done]. apply IH. intros y Hy. apply H. by right.
Qed.

Lemma leakFree_total (grid : Grid) (size : Z) (isWrapping : bool) (r c conn : Z)
    (key : DirKey) :
  square size grid → inGrid size (r, c) →
  is_Some (leakFree grid size isWrapping r c conn key).
Proof.
  intros Hsq Hrc. unfold leakFree. cbv zeta.
  destruct (_ =? 0); [done |]. rewrite offGrid_inBounds.
  destruct (neighbour size isWrapping r c (DIRECTIONS key)) as [y|] eqn:Hn.
  - pose proof (neighbour_inGrid size isWrapping r c key y Hrc Hn) as Hy.
    destruct (cell_is_Some size grid y Hsq Hy) as [nb Hnb].
    unfold neighbour in Hn.
    destruct isWrapping; simpl in *.
    + injection Hn as <-. simpl in Hnb. rewrite Hnb. simpl.
      destruct (connected nb); simpl; [| done]. by destruct (_ =? 0).
    + destruct (inBounds _ _ _); [| done]. injection Hn as <-.
      simpl in Hnb. rewrite Hnb. simpl.
      destruct (connected nb); simpl; [| done]. by destruct (_ =? 0).
  - unfold neighbour in Hn. destruct isWrapping; simpl in *; [done |].
    by destruct (inBounds _ _ _).
Qed.

Lemma noLeaks_total (grid : Grid) (isWrapping : bool) :
  square (Z.of_nat (length grid)) grid → is_Some (noLeaks grid isWrapping).
Proof.
  intros Hsq. unfold noLeaks. cbv zeta. apply allM_total.
  intros x Hx. apply allCoords_elem in Hx.
  destruct (cell_is_Some _ grid x Hsq Hx) as [tile ->].
  cbn [mbind option_bind]. destruct (connected tile); cbn [negb]; [| done].
  apply allM_total. intros key _. apply leakFree_total; [done |].
  by destruct x.
Qed.

Lemma isWinConditionMet_total (grid : Grid) (terminals : list Coords)
    (isWrapping : bool) :
  square (Z.of_nat (length grid)) grid →
  is_Some (isWinConditionMet grid terminals isWrapping).
Proof.
  intros Hsq. unfold isWinConditionMet.
  destruct (allRequiredTilesConnected grid terminals); simpl; [| done].
  by apply noLeaks_total.
Qed.

Lemma forallb_allConnected (grid : Grid) :
  forallb connected (concat grid) = true → allConnected grid.
Proof.
  intros H. rewrite forallb_forall in H.
  apply Forall_forall. intros row Hrow. apply Forall_forall. intros t Ht.
  apply H, in_concat. exists row. split; by apply list_elem_of_In.
Qed.

(** X20 (what the win check decides): on a square grid the win check
    returns an answer, and the answer is true exactly when every terminal is
    marked connected (every tile, if there is no terminal) and every stub of
    a connected tile meets a connected neighbour that exposes the opposite
    stub. *)
Theorem win_check_characterised (grid : Grid) (terminals : list Coords)
    (isWrapping : bool) :
  square (Z.of_nat (length grid)) grid →
  is_Some (isWinConditionMet grid terminals isWrapping) ∧
  (isWinConditionMet grid terminals isWrapping = Some true ↔
   (if terminals is [] then allConnected grid
    else ∀ t, t ∈ terminals → connectedAt grid t = true) ∧
   leakFreeGrid grid isWrapping).
Proof.
  intros Hsq. split; [by apply isWinConditionMet_total |].
  unfold isWinConditionMet.
  assert (allRequiredTilesConnected grid terminals = true ↔
          if terminals is [] then allConnected grid
          else ∀ t, t ∈ terminals → connectedAt grid t = true) as Hreq.
  { unfold allRequiredTilesConnected. destruct terminals as [| t0 ts].
    - rewrite bool_decide_eq_true_2 by done.
      split; [apply forallb_allConnected | apply allConnected_forallb].
    - rewrite bool_decide_eq_false_2 by done. rewrite forallb_forall.
      split; intros H t Ht; apply H; by apply list_elem_of_In. }
  destruct (allRequiredTilesConnected grid terminals); simpl.
  - rewrite noLeaks_true by done. split; [| by intros [_ ?]].
    intros H. split; [by apply Hreq | done].
  - split; [done |]. intros [H _]. by apply Hreq in H.
Qed.

Lemma win_check_characterised_witness :
  is_Some (isWinConditionMet hintDropGrid [(0, 0); (4, 0)] false) ∧
  (isWinConditionMet hintDropGrid [(0, 0); (4, 0)] false = Some true ↔
   (if [(0, 0); (4, 0)] is [] then allConnected hintDropGrid
    else ∀ t, t ∈ [(0, 0); (4, 0)] → connectedAt hintDropGrid t = true) ∧
   leakFreeGrid hintDropGrid false).
Proof.
  apply (win_check_characterised hintDropGrid [(0, 0); (4, 0)] false).
  split; [reflexivity | repeat constructor].
Defined.

(** *** The distance map on the Evaluator's output *)

Lemma evaluated_powers (grid0 grid : Grid) (serverCoords : Coords)
    (isWrapping : bool) (x : Coords) :
  wellFormed grid0 serverCoords →
  checkConnectivity grid0 serverCoords isWrapping = Some grid →
  rtc (powers grid (Z.of_nat (length grid0)) isWrapping) serverCoords x ↔
  connectedAt grid x = true.
Proof.
  intros [Hsq Hsc] Hcc.
  apply checkConnectivity_Some in Hcc as (cs & Hloop & ->).
  apply bfsLoop_result in Hloop as (Hsrv & Hclosed & Hsound).
  split.
  - intros Hr. apply rtc_inv_r in Hr as [<- | (y & _ & key & _ & _ & Hx)];
      [| done].
    apply connectedAt_markConnected_true. split; [done |].
    by apply (cell_is_Some _ _ _ Hsq).
  - intros Hx. apply connectedAt_markConnected_true in Hx as [Hx _].
    apply Hsound in Hx.
    assert (x ∈ cs ∧
            rtc (powers (markConnected cs grid0) (Z.of_nat (length grid0))
                   isWrapping) serverCoords x) as [_ ?]; [| done].
    revert x Hx. apply (rtc_ind_r (λ z, z ∈ cs ∧ rtc _ serverCoords z));
      [done |].
    intros y z _ Hyz [Hy Hpath].
    pose proof (Hclosed y z Hy Hyz) as Hz.
    split; [done |]. apply rtc_r with y; [done |].
    destruct Hyz as (key & Hbit & Hn & Hcell & _).
    exists key. rewrite maskAt_markConnected. split; [done |].
    split; [done |]. by apply connectedAt_markConnected_true.
Qed.

(** X21 (the distance map): on a well-formed board the distance map is
    computed; it is as large as the grid, holds 0 at the server and nowhere
    else, and -1 or a positive number elsewhere; a cell has a non-negative
    entry exactly when a chain of stubs pointing at connected tiles leads to
    it from the server, and a cell with a positive entry is pointed at by a
    cell whose entry is one less. *)
Theorem distance_map_layers (grid : Grid) (serverCoords : Coords)
    (isWrapping : bool) :
  wellFormed grid serverCoords →
  ∃ distanceMap,
    computeDistanceMap grid serverCoords isWrapping = Some distanceMap ∧
    square (Z.of_nat (length grid)) distanceMap ∧
    ∀ x, inGrid (Z.of_nat (length grid)) x →
      (0 ≤ distAt distanceMap x ↔
       rtc (powers grid (Z.of_nat (length grid)) isWrapping) serverCoords x) ∧
      (distAt distanceMap x = -1 ∨ 0 ≤ distAt distanceMap x) ∧
      (distAt distanceMap x = 0 ↔ x = serverCoords) ∧
      (0 < distAt distanceMap x →
       ∃ y, inGrid (Z.of_nat (length grid)) y ∧
            distAt distanceMap y = distAt distanceMap x - 1 ∧
            powers grid (Z.of_nat (length grid)) isWrapping y x).
Proof.
  intros [Hsq Hsc]. by apply computeDistanceMap_spec.
Qed.

Lemma distance_map_layers_witness :
  ∃ distanceMap,
    computeDistanceMap hintDropGrid (1, 0) false = Some distanceMap ∧
    square (Z.of_nat (length hintDropGrid)) distanceMap ∧
    ∀ x, inGrid (Z.of_nat (length hintDropGrid)) x →
      (0 ≤ distAt distanceMap x ↔
       rtc (powers hintDropGrid (Z.of_nat (length hintDropGrid)) false)
         (1, 0) x) ∧
      (distAt distanceMap x = -1 ∨ 0 ≤ distAt distanceMap x) ∧
      (distAt distanceMap x = 0 ↔ x = (1, 0)) ∧
      (0 < distAt distanceMap x →
       ∃ y, inGrid (Z.of_nat (length hintDropGrid)) y ∧
            distAt distanceMap y = distAt distanceMap x - 1 ∧
            powers hintDropGrid (Z.of_nat (length hintDropGrid)) false y x).
Proof.
  apply (distance_map_layers hintDropGrid (1, 0) false).
  split; [split; [reflexivity | repeat constructor] |].
  unfold inGrid; simpl; lia.
Defined.

(** X22 (the cascade covers the powered tiles): on the grid the Evaluator
    returns, the distance map gives a non-negative entry to exactly the
    cells that are marked connected. *)
Theorem cascade_covers_connected_tiles (grid : Grid) (serverCoords : Coords)
    (isWrapping : bool) :
  wellFormed grid serverCoords →
  ∃ grid' distanceMap,
    checkConnectivity grid serverCoords isWrapping = Some grid' ∧
    computeDistanceMap grid' serverCoords isWrapping = Some distanceMap ∧
    ∀ x, inGrid (Z.of_nat (length grid)) x →
         (0 ≤ distAt distanceMap x ↔ connectedAt grid' x = true).
Proof.
  intros Hwf.
  destruct (checkConnectivity_total grid serverCoords isWrapping Hwf)
    as [grid' Hcc].
  pose proof Hwf as [Hsq Hsc].
  pose proof (checkConnectivity_square _ _ _ _ _ Hsq Hcc) as Hsq'.
  assert (Z.of_nat (length grid') = Z.of_nat (length grid)) as Hlen
    by apply Hsq'.
  destruct (computeDistanceMap_spec grid' (Z.of_nat (length grid)) isWrapping
              serverCoords Hsq' Hlen Hsc) as (dm & Hdm & _ & Hspec).
  exists grid', dm. split; [done |]. split; [done |].
  intros x Hx. destruct (Hspec x Hx) as (-> & _).
  by apply (evaluated_powers grid).
Qed.

Lemma cascade_covers_connected_tiles_witness :
  ∃ grid' distanceMap,
    checkConnectivity sampleGrid (0, 0) true = Some grid' ∧
    computeDistanceMap grid' (0, 0) true = Some distanceMap ∧
    ∀ x, inGrid (Z.of_nat (length sampleGrid)) x →
         (0 ≤ distAt distanceMap x ↔ connectedAt grid' x = true).
Proof.
  apply (cascade_covers_connected_tiles sampleGrid (0, 0) true).
  split; [split; [reflexivity | repeat constructor] |].
  unfold inGrid; simpl; lia.
Defined.

(** *** The win effect *)

Lemma playable_wfState (s : App.State) : playable s → wfState s.
Proof. intros (conn & Hpz & Hplay). by apply (playing_wfState conn). Qed.

Lemma playable_evaluated (s : App.State) :
  playable s →
  checkConnectivity (App.grid s) (App.serverCoords s) (App.isWrapping s)
  = Some (App.grid s).
Proof. by intros (conn & _ & _ & _ & _ & _ & ?). Qed.

Lemma winEffect_fired (timeBonus : Z) (u u' : Ui.State) :
  Ui.winEffect timeBonus u = Some u' →
  App.isWon (Ui.app u) = false → App.isWon (Ui.app u') = true →
  ∃ distanceMap flag,
    isWinConditionMet (App.grid (Ui.app u)) (App.terminals (Ui.app u))
      (App.isWrapping (Ui.app u)) = Some true ∧
    isTopTen (Ui.leaderboard u) (App.score (Ui.app u) + timeBonus)
    = Some flag ∧
    computeDistanceMap (App.grid (Ui.app u)) (App.serverCoords (Ui.app u))
      (App.isWrapping (Ui.app u)) = Some distanceMap ∧
    u' = Ui.mkState
           (App.mkState (App.gridSize (Ui.app u)) (App.isWrapping (Ui.app u))
              (App.grid (Ui.app u)) (App.solution (Ui.app u))
              (App.serverCoords (Ui.app u)) (App.terminals (Ui.app u)) true
              (App.hintedTile (Ui.app u)) (App.score (Ui.app u)))
           (Ui.focusedTile u) distanceMap
           (Some (App.score (Ui.app u) + timeBonus, timeBonus)) flag
           (Ui.leaderboard u).
Proof.
  unfold Ui.winEffect. cbv zeta. intros H Hwon Hwon'. rewrite Hwon in H.
  cbn [orb] in H.
  destruct (_ =? 0); [injection H as <-; congruence |].
  apply bind_Some in H as (met & Hmet & H).
  destruct met; [| injection H as <-; congruence].
  apply bind_Some in H as (flag & Hflag & H).
  apply bind_Some in H as (dm & Hdm & H). injection H as <-.
  by exists dm, flag.
Qed.

(** X23 (the win effect): in a game on a generated puzzle that is not won,
    the win check and the win effect return normally.  If the check answers
    false the state is unchanged.  If it answers true the game is marked
    won, with the board untouched; the final score is the score plus the time
    bonus; the high-score flag is the answer of the leaderboard test; the
    distance map has a non-negative entry exactly on the connected cells; and
    from then on rotations and hints leave the state as it is. *)
Theorem winEffect_spec (timeBonus : Z) (u : Ui.State) :
  playable (Ui.app u) → App.isWon (Ui.app u) = false →
  ∃ met u',
    isWinConditionMet (App.grid (Ui.app u)) (App.terminals (Ui.app u))
      (App.isWrapping (Ui.app u)) = Some met ∧
    Ui.winEffect timeBonus u = Some u' ∧
    if met : bool then
      Ui.app u'
      = App.mkState (App.gridSize (Ui.app u)) (App.isWrapping (Ui.app u))
          (App.grid (Ui.app u)) (App.solution (Ui.app u))
          (App.serverCoords (Ui.app u)) (App.terminals (Ui.app u)) true
          (App.hintedTile (Ui.app u)) (App.score (Ui.app u)) ∧
      Ui.finalScoreInfo u'
      = Some (App.score (Ui.app u) + timeBonus, timeBonus) ∧
      isTopTen (Ui.leaderboard u) (App.score (Ui.app u) + timeBonus)
      = Some (Ui.isHighScore u') ∧
      (∀ x, inGrid (App.gridSize (Ui.app u)) x →
            (0 ≤ distAt (Ui.distanceMap u') x ↔
             connectedAt (App.grid (Ui.app u)) x = true)) ∧
      (∀ r c, App.rotateTile (Ui.app u') r c = Some (Ui.app u')) ∧
      App.handleHintClick (Ui.app u') = Some (Ui.app u')
    else u' = u.
Proof.
  intros Hplay Hwon.
  pose proof (playable_wfState _ Hplay) as (Hsq & _ & Hsc).
  pose proof (playable_evaluated _ Hplay) as Heval.
  assert (Z.of_nat (length (App.grid (Ui.app u))) = App.gridSize (Ui.app u))
    as Hlen by apply Hsq.
  destruct (isWinConditionMet_total (App.grid (Ui.app u))
              (App.terminals (Ui.app u)) (App.isWrapping (Ui.app u)))
    as [met Hmet]; [by rewrite Hlen |].
  exists met. unfold Ui.winEffect. cbv zeta. rewrite Hwon, Hmet, Hlen.
  cbn [orb mbind option_bind].
  rewrite (proj2 (Z.eqb_neq _ 0)) by (destruct Hsc; lia).
  destruct met; [| by exists u].
  destruct (isTopTen_total (Ui.leaderboard u)
              (App.score (Ui.app u) + timeBonus)) as [flag Hflag].
  rewrite Hflag. cbn [mbind option_bind].
  destruct (computeDistanceMap_spec (App.grid (Ui.app u))
              (App.gridSize (Ui.app u)) (App.isWrapping (Ui.app u))
              (App.serverCoords (Ui.app u)) Hsq Hlen Hsc)
    as (dm & Hdm & _ & Hspec).
  rewrite Hdm. cbn [mbind option_bind].
  eexists. split; [done |]. split; [done |]. simpl.
  split; [done |]. split; [done |]. split; [done |]. split; [| split].
  - intros x Hx. destruct (Hspec x Hx) as (-> & _).
    rewrite <- Hlen.
    apply (evaluated_powers (App.grid (Ui.app u))); [| done].
    split; by rewrite Hlen.
  - intros r c. unfold App.rotateTile. simpl.
    by destruct (cell (App.grid (Ui.app u)) r c).
  - done.
Qed.

Lemma winEffect_spec_witness :
  ∃ met u',
    isWinConditionMet (App.grid (Ui.app solvedSession))
      (App.terminals (Ui.app solvedSession))
      (App.isWrapping (Ui.app solvedSession)) = Some met ∧
    Ui.winEffect 5 solvedSession = Some u' ∧
    if met : bool then
      Ui.app u'
      = App.mkState (App.gridSize (Ui.app solvedSession))
          (App.isWrapping (Ui.app solvedSession))
          (App.grid (Ui.app solvedSession))
          (App.solution (Ui.app solvedSession))
          (App.serverCoords (Ui.app solvedSession))
          (App.terminals (Ui.app solvedSession)) true
          (App.hintedTile (Ui.app solvedSession))
          (App.score (Ui.app solvedSession)) ∧
      Ui.finalScoreInfo u'
      = Some (App.score (Ui.app solvedSession) + 5, 5) ∧
      isTopTen (Ui.leaderboard solvedSession)
        (App.score (Ui.app solvedSession) + 5)
      = Some (Ui.isHighScore u') ∧
      (∀ x, inGrid (App.gridSize (Ui.app solvedSession)) x →
            (0 ≤ distAt (Ui.distanceMap u') x ↔
             connectedAt (App.grid (Ui.app solvedSession)) x = true)) ∧
      (∀ r c, App.rotateTile (Ui.app u') r c = Some (Ui.app u')) ∧
      App.handleHintClick (Ui.app u') = Some (Ui.app u')
    else u' = solvedSession.
Proof.
  apply (winEffect_spec 5 solvedSession).
  - exact solvedGame_playable.
  - exact solvedGame_not_won.
Defined.

(** X24 (a high score is recorded): when the win effect has marked the game
    won and flagged a high score, and the leaderboard was in descending order
    with at most 10 entries, submitting non-empty initials puts the entry
    with the final score, grid size and wrap mode on the leaderboard, which
    stays in descending order with at most 10 entries, and clears the
    flag. *)
Theorem high_score_is_recorded (timeBonus : Z) (name : String.string)
    (u u' : Ui.State) :
  Ui.winEffect timeBonus u = Some u' →
  App.isWon (Ui.app u) = false → App.isWon (Ui.app u') = true →
  Ui.isHighScore u' = true →
  descending (Ui.leaderboard u) → (length (Ui.leaderboard u) ≤ 10)%nat →
  name ≠ String.EmptyString →
  mkScoreEntry name (App.score (Ui.app u) + timeBonus)
    (App.gridSize (Ui.app u)) (App.isWrapping (Ui.app u))
  ∈ Ui.leaderboard (Ui.handleInitialsSubmit name u') ∧
  descending (Ui.leaderboard (Ui.handleInitialsSubmit name u')) ∧
  (length (Ui.leaderboard (Ui.handleInitialsSubmit name u')) ≤ 10)%nat ∧
  Ui.isHighScore (Ui.handleInitialsSubmit name u') = false.
Proof.
  intros Heff Hwon Hwon' Hhigh Hdesc Hlen Hname.
  destruct (winEffect_fired timeBonus u u' Heff Hwon Hwon')
    as (dm & flag & _ & Hflag & _ & ->).
  simpl in Hhigh. subst flag.
  unfold Ui.handleInitialsSubmit. simpl.
  destruct name as [| a name]; [done |]. simpl.
  set (entry := mkScoreEntry _ _ _ _).
  split; [by apply isTopTen_kept |].
  split; [apply updateLeaderboard_descending |]. split; [| done].
  rewrite updateLeaderboard_length. lia.
Qed.

Lemma high_score_is_recorded_witness :
  mkScoreEntry sampleName (App.score (Ui.app pathSession) + 5)
    (App.gridSize (Ui.app pathSession)) (App.isWrapping (Ui.app pathSession))
  ∈ Ui.leaderboard (Ui.handleInitialsSubmit sampleName pathWon) ∧
  descending (Ui.leaderboard (Ui.handleInitialsSubmit sampleName pathWon)) ∧
  (length (Ui.leaderboard (Ui.handleInitialsSubmit sampleName pathWon)) ≤ 10)%nat ∧
  Ui.isHighScore (Ui.handleInitialsSubmit sampleName pathWon) = false.
Proof.
  apply (high_score_is_recorded 5 sampleName pathSession pathWon);
    try reflexivity.
  - intros i j a b _ Ha. done.
  - simpl. lia.
  - done.
Defined.

(** *** The second block: trees *)

Lemma sumOver_lower (k : Z) (f : Coords → Z) (l : list Coords) :
  (∀ x, x ∈ l → k ≤ f x) → k * Z.of_nat (length l) ≤ sumOver f l.
Proof.
  induction l as [| a l IH]; intros H; simpl; [lia |].
  assert (k ≤ f a) by (apply H; left).
  assert (k * Z.of_nat (length l) ≤ sumOver f l)
    by (apply IH; intros x Hx; apply H; by right).
  lia.
Qed.

Lemma numConnections_pos (m : Z) : 1 ≤ m ≤ 15 → 1 ≤ numConnections m.
Proof.
  intros Hm.
  assert (m = 1 ∨ m = 2 ∨ m = 3 ∨ m = 4 ∨ m = 5 ∨ m = 6 ∨ m = 7 ∨
          m = 8 ∨ m = 9 ∨ m = 10 ∨ m = 11 ∨ m = 12 ∨ m = 13 ∨ m = 14 ∨
          m = 15) as Hcases by lia.
  destruct_or!; subst m; done.
Qed.

Lemma tree_has_terminal (size : Z) (isWrapping : bool)
    (conn : list (list Z)) :
  2 ≤ size → puzzle size isWrapping conn →
  totalBits size conn = 2 * size * size - 2 → terminalsOf conn ≠ [].
Proof.
  intros Hs Hpz Hbits Hnil.
  pose proof (puzzle_square _ _ _ Hpz) as Hsq.
  assert (2 * Z.of_nat (length (allCoords size)) ≤ totalBits size conn) as Hlow.
  { apply sumOver_lower. intros x Hx. apply allCoords_elem in Hx.
    pose proof (puzzle_nonzero size isWrapping conn x Hs Hpz Hx) as Hm.
    pose proof (numConnections_pos _ Hm).
    destruct (decide (numConnections (connAt conn x) = 1)) as [Hone |]; [| lia].
    assert (x ∈ terminalsOf conn) as Hin.
    { apply terminalsOf_iff. exists (connAt conn x).
      split; [by apply (connAt_cell size) | done]. }
    rewrite Hnil in Hin. by apply elem_of_nil in Hin. }
  rewrite length_allCoords in Hlow. nia.
Qed.

Lemma board_stubs (size : Z) (isWrapping : bool) (conn : list (list Z))
    (serverCoords : Coords) (grid : Grid) :
  2 ≤ size → puzzle size isWrapping conn →
  boardOf size conn serverCoords grid →
  totalStubs size grid = totalBits size conn.
Proof.
  intros Hs Hpz [_ Hb]. unfold totalStubs, totalBits. apply sumOver_ext.
  intros x Hx. apply allCoords_elem in Hx.
  destruct (Hb x Hx) as (tile & Htile & Hty & _). rewrite Htile. simpl.
  rewrite Hty. apply stubs_solvedTile. by apply (puzzle_nonzero size isWrapping).
Qed.

Lemma Legacy_generated_board (rnd : nat → nat) (size : Z)
    (isWrapping : bool) :
  0 < size →
  ∃ conn grid serverCoords,
    Legacy.generateGrid rnd size isWrapping
    = Some (grid, map (map snd) (map (map solvedTile) conn), serverCoords,
            terminalsOf conn) ∧
    puzzle size isWrapping conn ∧
    totalBits size conn = 2 * size * size - 2 ∧
    inGrid size serverCoords ∧
    boardOf size conn serverCoords grid.
Proof.
  intros Hpos.
  change (Legacy.generateGrid rnd size isWrapping)
    with (if size <=? 0 then None
          else walked ← spanningTree rnd size isWrapping;
               finishGrid rnd size (walkConnections walked) (walkDraws walked)).
  rewrite (proj2 (Z.leb_gt size 0)) by lia.
  destruct (spanningTree_spec rnd size isWrapping Hpos)
    as (st & start & Hst & Hinv & Hstart & Hlinked).
  rewrite Hst. cbn [mbind option_bind].
  destruct (spanningTree_totalBits rnd size isWrapping Hpos st Hst)
    as (Hsq & _ & Hbits).
  destruct (finishGrid_spec rnd size (walkConnections st) (walkDraws st)
              Hpos Hsq) as (grid & sc & Hfin & Hsc & Hsqg & Htiles).
  exists (walkConnections st), grid, sc.
  split; [done |]. split; [split; [done | by exists start] |].
  do 2 (split; [done |]). split; [done |].
  intros x Hx. destruct (Htiles x Hx) as (tile & Htile & Hty & _ & Hsrv & Hfix).
  apply finishGrid_rotations in Hfin as [Hrot _].
  pose proof (Forall_cell _ _ _ _ _ Hrot Htile) as Hr. simpl in Hr.
  exists tile. do 4 (split; [done |]).
  intros E. apply Hfix. by apply bool_decide_eq_true_2.
Qed.

Lemma Legacy_startNewGame_spec (rnd : nat → nat) (u : Ui.State) :
  0 < App.gridSize (Ui.app u) →
  ∃ conn grid solution serverCoords terminals,
    LegacyUi.startNewGame rnd u
    = Some (Ui.mkState
        (App.mkState (App.gridSize (Ui.app u)) (App.isWrapping (Ui.app u))
           grid solution serverCoords terminals false
           (App.hintedTile (Ui.app u)) (App.score (Ui.app u)))
        (Some (App.gridSize (Ui.app u) / 2, App.gridSize (Ui.app u) / 2))
        [] (Ui.finalScoreInfo u) (Ui.isHighScore u) (Ui.leaderboard u)) ∧
    puzzle (App.gridSize (Ui.app u)) (App.isWrapping (Ui.app u)) conn ∧
    totalBits (App.gridSize (Ui.app u)) conn
    = 2 * App.gridSize (Ui.app u) * App.gridSize (Ui.app u) - 2 ∧
    playing conn
      (App.mkState (App.gridSize (Ui.app u)) (App.isWrapping (Ui.app u))
         grid solution serverCoords terminals false
         (App.hintedTile (Ui.app u)) (App.score (Ui.app u))).
Proof.
  intros Hs. unfold LegacyUi.startNewGame.
  destruct (Legacy_generated_board rnd _ (App.isWrapping (Ui.app u)) Hs)
    as (conn & grid & sc & -> & Hpz & Hbits & Hsc & Hboard).
  cbn [mbind option_bind].
  pose proof Hboard as [Hsq _].
  assert (wellFormed grid sc) as Hwf.
  { assert (Z.of_nat (length grid) = App.gridSize (Ui.app u)) as Hlen
      by apply Hsq.
    split; by rewrite Hlen. }
  rewrite Legacy_checkConnectivity_eq.
  destruct (checkConnectivity_total grid sc (App.isWrapping (Ui.app u)) Hwf)
    as [grid' Hcc].
  rewrite Hcc. cbn [mbind option_bind].
  eexists conn, grid', _, sc, _. do 3 (split; [done |]).
  split_and!; try done; simpl.
  - apply (board_flags _ _ _ grid);
      [done | by apply (checkConnectivity_square _ _ _ _ _ Hsq Hcc) |].
    by apply (checkConnectivity_flagless_out _ _ _ _ Hcc).
  - by apply (checkConnectivity_again _ _ _ _ Hcc).
Qed.

(** X25 (second block: a new game is a tree): for every size from 2 on,
    [startNewGame] of the second block succeeds whatever the draws; the new
    state is that of a game on a generated puzzle, not won, with at least one
    terminal, and its tiles carry exactly [2 * (gridSize * gridSize - 1)]
    stubs: the wires form a spanning tree. *)
Theorem legacy_new_game_is_a_tree (rnd : nat → nat) (u : Ui.State) :
  2 ≤ App.gridSize (Ui.app u) →
  ∃ u',
    LegacyUi.startNewGame rnd u = Some u' ∧
    playable (Ui.app u') ∧
    App.isWon (Ui.app u') = false ∧
    App.terminals (Ui.app u') ≠ [] ∧
    totalStubs (App.gridSize (Ui.app u)) (App.grid (Ui.app u'))
    = 2 * App.gridSize (Ui.app u) * App.gridSize (Ui.app u) - 2.
Proof.
  intros Hs.
  destruct (Legacy_startNewGame_spec rnd u)
    as (conn & grid & sol & sc & ts & -> & Hpz & Hbits & Hplay); [lia |].
  eexists. split; [done |]. simpl. split_and!; try done.
  - by exists conn.
  - destruct Hplay as (_ & Hts & _). simpl in Hts. rewrite Hts.
    by apply (tree_has_terminal (App.gridSize (Ui.app u))
                (App.isWrapping (Ui.app u))).
  - rewrite <- Hbits.
    destruct Hplay as (_ & _ & _ & Hboard & _). simpl in Hboard.
    by apply (board_stubs (App.gridSize (Ui.app u))
                (App.isWrapping (Ui.app u)) conn sc).
Qed.

Lemma legacy_new_game_is_a_tree_witness :
  ∃ u',
    LegacyUi.startNewGame (λ k, k) Ui.initial = Some u' ∧
    playable (Ui.app u') ∧
    App.isWon (Ui.app u') = false ∧
    App.terminals (Ui.app u') ≠ [] ∧
    totalStubs (App.gridSize (Ui.app Ui.initial)) (App.grid (Ui.app u'))
    = 2 * App.gridSize (Ui.app Ui.initial) * App.gridSize (Ui.app Ui.initial)
      - 2.
Proof. apply (legacy_new_game_is_a_tree (λ k, k) Ui.initial). simpl. lia. Defined.

(** *** The second block: win effect and rotation *)

(** X26 (a win of the first block is a win of the second): on a
    well-formed game that is not won and has terminals, if the first block's
    win check answers true then both win effects fire, and they leave the
    same engine state, marked won, and the same distance map. *)
Theorem first_block_win_implies_second (timeBonus : Z) (u : Ui.State) :
  wfState (Ui.app u) → App.isWon (Ui.app u) = false →
  App.terminals (Ui.app u) ≠ [] →
  isWinConditionMet (App.grid (Ui.app u)) (App.terminals (Ui.app u))
    (App.isWrapping (Ui.app u)) = Some true →
  ∃ u1 u2,
    Ui.winEffect timeBonus u = Some u1 ∧
    LegacyUi.winEffect u = Some u2 ∧
    App.isWon (Ui.app u1) = true ∧
    Ui.app u2 = Ui.app u1 ∧
    Ui.distanceMap u2 = Ui.distanceMap u1.
Proof.
  intros (Hsq & _ & Hsc) Hwon Hts Hmet.
  assert (Z.of_nat (length (App.grid (Ui.app u))) = App.gridSize (Ui.app u))
    as Hlen by apply Hsq.
  assert (0 < App.gridSize (Ui.app u)) as Hpos by (destruct Hsc; lia).
  destruct (computeDistanceMap_spec (App.grid (Ui.app u))
              (App.gridSize (Ui.app u)) (App.isWrapping (Ui.app u))
              (App.serverCoords (Ui.app u)) Hsq Hlen Hsc)
    as (dm & Hdm & _).
  destruct (isTopTen_total (Ui.leaderboard u)
              (App.score (Ui.app u) + timeBonus)) as [flag Hflag].
  unfold Ui.winEffect, LegacyUi.winEffect. cbv zeta.
  rewrite Hwon, Hmet, Hlen, Hflag, Hdm.
  rewrite (proj2 (Z.eqb_neq _ 0)) by lia.
  assert ((Z.of_nat (length (App.terminals (Ui.app u))) =? 0) = false) as ->.
  { apply Z.eqb_neq. destruct (App.terminals (Ui.app u)); [done |].
    simpl. lia. }
  cbn [orb mbind option_bind].
  assert (allM (λ t : Coords, tile ← cell (App.grid (Ui.app u)) t.1 t.2;
                              Some (connected tile))
               (App.terminals (Ui.app u)) = Some true) as ->.
  { apply allM_true. intros t Ht.
    unfold isWinConditionMet in Hmet.
    destruct (allRequiredTilesConnected _ _) eqn:Hreq; [| done].
    unfold allRequiredTilesConnected in Hreq.
    rewrite bool_decide_eq_false_2 in Hreq by done.
    rewrite forallb_forall in Hreq.
    apply list_elem_of_In, Hreq in Ht.
    destruct (cell (App.grid (Ui.app u)) t.1 t.2) as [tile|]; [| done].
    simpl in *. by rewrite Ht. }
  cbn [mbind option_bind]. by eexists _, _.
Qed.

Lemma first_block_win_implies_second_witness :
  ∃ u1 u2,
    Ui.winEffect 5 pathSession = Some u1 ∧
    LegacyUi.winEffect pathSession = Some u2 ∧
    App.isWon (Ui.app u1) = true ∧
    Ui.app u2 = Ui.app u1 ∧
    Ui.distanceMap u2 = Ui.distanceMap u1.
Proof.
  apply (first_block_win_implies_second 5 pathSession); try reflexivity.
  - split_and!; try (split; [reflexivity | repeat constructor]).
    unfold inGrid; simpl; lia.
  - done.
Defined.






(** *** Densification *)

Lemma numConnections_lor_le (m : Z) (key : DirKey) :
  0 ≤ m < 16 →
  numConnections m ≤ numConnections (Z.lor m (mask (DIRECTIONS key)))
  ≤ numConnections m + 1.
Proof.
  intros Hm.
  assert (m = 0 ∨ m = 1 ∨ m = 2 ∨ m = 3 ∨ m = 4 ∨ m = 5 ∨ m = 6 ∨ m = 7 ∨
          m = 8 ∨ m = 9 ∨ m = 10 ∨ m = 11 ∨ m = 12 ∨ m = 13 ∨ m = 14 ∨
          m = 15) as Hcases by lia.
  destruct_or!; subst m; destruct key; vm_compute; split; discriminate.
Qed.

Section Density.

Variables (rnd : nat → nat) (size : Z) (isWrapping : bool).

Hypothesis size_pos : 0 < size.

Lemma totalBits_link_le (conn : list (list Z)) (x y : Coords) (key : DirKey) :
  connInv size isWrapping conn → inGrid size x → inGrid size y →
  totalBits size conn ≤ totalBits size (link conn x y key)
  ≤ totalBits size conn + 2.
Proof.
  intros (Hsq & _ & Hrange) Hx Hy. unfold link.
  rewrite (totalBits_orAt size) by (try apply square_orAt; done).
  rewrite (totalBits_orAt size conn) by done.
  pose proof (numConnections_lor_le (connAt conn x) key (Hrange x Hx)) as H1.
  assert (0 ≤ connAt (orAt conn x.1 x.2 (mask (DIRECTIONS key))) y < 16)
    as Hy16.
  { destruct (decide (y = x)) as [-> | Hne].
    - rewrite connAt_orAt_eq by (by apply (cell_is_Some size)).
      by apply lor_mask_range, Hrange.
    - rewrite connAt_orAt_ne by done. by apply Hrange. }
  pose proof (numConnections_lor_le _ (from (DIRECTIONS key)) Hy16) as H2.
  lia.
Qed.

Lemma densifyRound_bits (conn : list (list Z)) (draws : nat)
    (cd : list (list Z) * nat) :
  connInv size isWrapping conn →
  densifyRound rnd size isWrapping (conn, draws) = Some cd →
  totalBits size conn ≤ totalBits size cd.1 ≤ totalBits size conn + 2.
Proof.
  intros Hinv. unfold densifyRound. cbn [fst snd].
  set (r := randomInt rnd draws size).
  set (c := randomInt rnd (S draws) size).
  assert (inGrid size (r, c)) as Hrc
    by (split; simpl; by apply randomInt_range).
  case_bool_decide as Hnil; [intros [= <-]; simpl; lia |].
  destruct (randomInt_lookup rnd _ (S (S draws)) Hnil) as (key & -> & _).
  cbn [mbind option_bind].
  destruct (neighbour size isWrapping r c (DIRECTIONS key)) as [[nr nc]|] eqn:Hn;
    [| intros [= <-]; simpl; lia].
  intros [= <-]. cbn [fst].
  assert (inGrid size (nr, nc)) as Hy by (eapply neighbour_inGrid; eauto).
  change (orAt _ nr nc _) with (link conn (r, c) (nr, nc) key).
  by apply totalBits_link_le.
Qed.

Lemma densify_bits (rounds : nat) (conn : list (list Z)) (draws : nat)
    (cd : list (list Z) * nat) :
  connInv size isWrapping conn →
  densify rnd rounds size isWrapping (conn, draws) = Some cd →
  totalBits size conn ≤ totalBits size cd.1
  ≤ totalBits size conn + 2 * Z.of_nat rounds.
Proof.
  revert conn draws. induction rounds as [| rounds IH]; intros conn draws Hinv H.
  - injection H as <-. simpl. lia.
  - cbn [densify] in H. apply bind_Some in H as ([conn1 draws1] & H1 & H).
    pose proof (densifyRound_bits conn draws _ Hinv H1) as Hb1.
    destruct (densifyRound_spec rnd size isWrapping size_pos conn draws Hinv)
      as (cd1 & Hcd1 & Hinv1 & _).
    rewrite H1 in Hcd1. injection Hcd1 as <-.
    pose proof (IH conn1 draws1 Hinv1 H) as Hb. simpl in Hb1, Hinv1. lia.
Qed.

End Density.

(** X8 (densification adds few edges): for every size from 2 on, the tiles
    of a generated grid carry at least the [2 * (size * size - 1)] stubs of
    the spanning tree and at most [2 * floor(size * size * 0.4)] more. *)
Theorem densification_adds_few_edges (rnd : nat → nat) (size : Z)
    (isWrapping : bool) :
  2 ≤ size →
  ∃ grid solution serverCoords terminals,
    generateGrid rnd size isWrapping
      = Some (grid, solution, serverCoords, terminals) ∧
    2 * size * size - 2 ≤ totalStubs size grid
    ≤ 2 * size * size - 2 + 2 * (size * size * 2 / 5).
Proof.
  intros Hs. assert (0 < size) as Hpos by lia.
  destruct (generated_board rnd size isWrapping Hpos)
    as (conn & grid & sc & Hgen & [draws Hconn] & Hpz & Hsc & Hboard).
  eexists grid, _, sc, _. split; [exact Hgen |].
  rewrite (board_stubs size isWrapping conn sc grid Hs Hpz Hboard).
  unfold generateConnections in Hconn.
  apply bind_Some in Hconn as (st & Hst & Hden).
  destruct (spanningTree_spec rnd size isWrapping Hpos)
    as (st' & start & Hst' & Hinv & _).
  rewrite Hst in Hst'. injection Hst' as <-.
  destruct (spanningTree_totalBits rnd size isWrapping Hpos st Hst)
    as (_ & _ & Hbits).
  pose proof (densify_bits rnd size isWrapping Hpos _ _ _ _ Hinv Hden) as Hb.
  simpl in Hb. rewrite Z2Nat.id in Hb; [lia |].
  apply Z.div_pos; nia.
Qed.

Lemma densification_adds_few_edges_witness :
  ∃ grid solution serverCoords terminals,
    generateGrid (λ k, (5 * k + 2)%nat) 5 false
      = Some (grid, solution, serverCoords, terminals) ∧
    2 * 5 * 5 - 2 ≤ totalStubs 5 grid ≤ 2 * 5 * 5 - 2 + 2 * (5 * 5 * 2 / 5).
Proof.
  apply (densification_adds_few_edges (λ k, (5 * k + 2)%nat) 5 false). lia.
Defined.
